(** * The alert service of the middleware

    A shallow embedding of [middlewared/plugins/alert.py]: the alert
    policies, the reconciliation of the alerts of a run with the alerts of
    the store, the scheduling pass, the dispatch to the alert services,
    the one-shot alerts and the listing.

    The algorithms (the diff of a policy, [__handle_alert], the filtering
    and the cancellation for one alert service, the sort of the listing)
    are functions on alert values.  The methods that assign to attributes
    of alert objects ([__run_alerts], [process_alerts], [oneshot_create])
    run on a heap of alert objects, with the store as a list of
    references, so that an object that is reached from two places is one
    object.  What a method reads from outside (clocks, identifiers, the
    outcome of a check, the state of the system) is an argument of its
    embedding. *)

From Stdlib Require Import ZArith List Bool Permutation Sorted Lia.
From Stdlib Require OrderedTypeEx.
From stdpp Require Import base decidable option list gmap strings fin_maps.

Import ListNotations.
Local Open Scope string_scope.
Local Open Scope list_scope.

(** ** Dictionaries

    A Python [dict] keeps its keys in the order of their first insertion,
    and an assignment to a key that is present replaces the value where
    it is.  The order shows (a policy returns its gone and new alerts in
    the order of its dictionaries), so a dictionary is an association
    list. *)

Module Dict.
Section Ops.
Context {K V : Type} `{EqDecision K}.

Fixpoint get (d : list (K * V)) (k : K) : option V :=
  match d with
  | [] => None
  | (k', v) :: d' => if decide (k = k') then Some v else get d' k
  end.

(** [d[k] = v] *)
Fixpoint set (d : list (K * V)) (k : K) (v : V) : list (K * V) :=
  match d with
  | [] => [(k, v)]
  | (k', v') :: d' =>
      if decide (k = k') then (k, v) :: d' else (k', v') :: set d' k v
  end.

(** [k in d] *)
Definition mem (k : K) (d : list (K * V)) : bool :=
  match get d k with Some _ => true | None => false end.

Definition keys (d : list (K * V)) : list K := map fst d.
Definition values (d : list (K * V)) : list V := map snd d.

(** [d.pop(k, None)], the popped value dropped *)
Fixpoint pop (d : list (K * V)) (k : K) : list (K * V) :=
  match d with
  | [] => []
  | (k', v) :: d' => if decide (k = k') then d' else (k', v) :: pop d' k
  end.

(** [{k: v for (k, v) in kvs}] *)
Definition of_list (kvs : list (K * V)) : list (K * V) :=
  fold_left (fun d kv => set d (fst kv) (snd kv)) kvs [].
End Ops.
End Dict.


(** ** Dates and times

    A [datetime] is its wall-clock reading in microseconds since
    0001-01-01T00:00 ([datetime.min]) and, when it is timezone-aware, its
    offset from UTC in microseconds. *)

Record DateTime := mkDateTime { wall : Z; tzinfo : option Z }.

#[global] Instance DateTime_eq_dec : EqDecision DateTime.
Proof. solve_decision. Defined.

Definition naive (t : Z) : DateTime := {| wall := t; tzinfo := None |}.

Definition usec_per_hour : Z := 3600000000.
Definition usec_per_day : Z := 86400000000.

(** [d.date()] as a day number, and [d.hour] *)
Definition date (d : DateTime) : Z := (wall d / usec_per_day)%Z.
Definition hour (d : DateTime) : Z := ((wall d mod usec_per_day) / usec_per_hour)%Z.

(** What [__handle_alert] does to a first-seen timestamp: an aware one
    becomes [d.astimezone(timezone.utc).replace(tzinfo=None)], a naive one
    is kept. *)
Definition to_naive_utc (d : DateTime) : DateTime :=
  match tzinfo d with
  | Some off => naive (wall d - off)
  | None => d
  end.

(** Python's [==] on datetimes: two naive ones are compared by their
    readings, two aware ones by their instants, and a naive one never
    equals an aware one. *)
Definition datetime_eqb (a b : DateTime) : bool :=
  match tzinfo a, tzinfo b with
  | None, None => (wall a =? wall b)%Z
  | Some oa, Some ob => (wall a - oa =? wall b - ob)%Z
  | _, _ => false
  end.

(** Python's ordering of datetimes; [None] stands for the [TypeError]
    raised when a naive and an aware datetime are ordered. *)
Definition datetime_cmp (a b : DateTime) : option comparison :=
  match tzinfo a, tzinfo b with
  | None, None => Some (wall a ?= wall b)%Z
  | Some oa, Some ob => Some (wall a - oa ?= wall b - ob)%Z
  | _, _ => None
  end.

(** ** Numbers

    Durations and monotonic clock readings are Python numbers ([int] 0 at
    first, [float] afterwards).  Their arithmetic is kept abstract:
    [num_truediv x n] is [x / n] for an integer [n] that is not zero. *)

Class PyNum := {
  num : Type;
  num_zero : num;
  num_add : num -> num -> num;
  num_sub : num -> num -> num;
  num_max : num -> num -> num;
  num_leb : num -> num -> bool;
  num_ltb : num -> num -> bool;
  num_truediv : num -> Z -> num;
}.

(** [x / n]: [None] stands for [ZeroDivisionError]. *)
Definition py_truediv `{PyNum} (x : num) (n : Z) : option num :=
  if (n =? 0)%Z then None else Some (num_truediv x n).

(** ** Alert classes and alerts *)

(** A member of the [AlertLevel] enum: its name and its value. *)
Record AlertLevel := mkLevel { level_name : string; value : Z }.

#[global] Instance AlertLevel_eq_dec : EqDecision AlertLevel.
Proof. solve_decision. Defined.

(** The class attributes the engine reads.  [is_oneshot] stands for
    [issubclass(klass, OneShotAlertClass)]; [expires_after] is a
    [timedelta] in microseconds. *)
Record AlertClass := mkClass {
  name : string;
  title : string;
  level : AlertLevel;
  products : list string;
  exclude_from_list : bool;
  is_oneshot : bool;
  deleted_automatically : bool;
  expires_after : option Z;
}.

#[global] Instance AlertClass_eq_dec : EqDecision AlertClass.
Proof. solve_decision. Defined.

Definition Args : Type := list (string * string).
Definition Key : Type := option string.
Definition Uuid : Type := option string.

(** The attributes of an [Alert] object that the engine reads or writes.
    [None] is Python's [None]; [dismissed] is only ever tested for truth,
    so the constructor's default [None] is [false].  [last_occurrence] is
    only ever assigned [datetime.utcnow()], a naive reading. *)
Record Alert := mkAlert {
  uuid : Uuid;
  source : option string;
  klass : AlertClass;
  args : option Args;
  node : option string;
  key : Key;
  datetime : option DateTime;
  last_occurrence : option Z;
  dismissed : bool;
  mail : option string;
}.

#[global] Instance Alert_eq_dec : EqDecision Alert.
Proof. solve_decision. Defined.

Definition set_uuid (u : Uuid) (a : Alert) : Alert :=
  mkAlert u (source a) (klass a) (args a) (node a) (key a) (datetime a)
          (last_occurrence a) (dismissed a) (mail a).

Definition set_source (s : option string) (a : Alert) : Alert :=
  mkAlert (uuid a) s (klass a) (args a) (node a) (key a) (datetime a)
          (last_occurrence a) (dismissed a) (mail a).

Definition set_node (n : option string) (a : Alert) : Alert :=
  mkAlert (uuid a) (source a) (klass a) (args a) n (key a) (datetime a)
          (last_occurrence a) (dismissed a) (mail a).

Definition set_datetime (d : option DateTime) (a : Alert) : Alert :=
  mkAlert (uuid a) (source a) (klass a) (args a) (node a) (key a) d
          (last_occurrence a) (dismissed a) (mail a).

Definition set_last_occurrence (t : option Z) (a : Alert) : Alert :=
  mkAlert (uuid a) (source a) (klass a) (args a) (node a) (key a) (datetime a)
          t (dismissed a) (mail a).

Definition set_dismissed (b : bool) (a : Alert) : Alert :=
  mkAlert (uuid a) (source a) (klass a) (args a) (node a) (key a) (datetime a)
          (last_occurrence a) b (mail a).

(** What [middlewared.alert.base] declares and this module uses: the
    levels and the products of the alert classes defined here, and the key
    that [Alert.__init__] gives an alert created without one. *)
Class AlertBase := {
  CRITICAL : AlertLevel;
  WARNING : AlertLevel;
  base_products : list string;
  default_key : option Args -> Key;
}.

(** [Alert(klass, args=args, _source=source)] *)
Definition Alert_init `{AlertBase} (klass : AlertClass) (args : option Args)
    (source : option string) : Alert :=
  mkAlert None source klass args None (default_key args) None None false None.

Definition AlertSourceRunFailedAlertClass `{AlertBase} : AlertClass :=
  {| name := "AlertSourceRunFailed";
     title := "Alert Check Failed";
     level := CRITICAL;
     products := base_products;
     exclude_from_list := true;
     is_oneshot := false;
     deleted_automatically := true;
     expires_after := None |}.

Definition AlertSourceRunFailedOnBackupNodeAlertClass `{AlertBase} : AlertClass :=
  {| name := "AlertSourceRunFailedOnBackupNode";
     title := "Alert Check Failed (Standby Controller)";
     level := CRITICAL;
     products := base_products;
     exclude_from_list := true;
     is_oneshot := false;
     deleted_automatically := true;
     expires_after := None |}.

Definition AutomaticAlertFailedAlertClass `{AlertBase} : AlertClass :=
  {| name := "AutomaticAlertFailed";
     title := "Failed to Notify iXsystems About Alert";
     level := WARNING;
     products := base_products;
     exclude_from_list := true;
     is_oneshot := true;
     deleted_automatically := false;
     expires_after := None |}.

Definition TestAlertClass `{AlertBase} : AlertClass :=
  {| name := "Test";
     title := "Test alert";
     level := CRITICAL;
     products := base_products;
     exclude_from_list := true;
     is_oneshot := false;
     deleted_automatically := true;
     expires_after := None |}.

(** ** Alert policies *)

(** The value of a policy's bucketing function.  [IMMEDIATELY] returns
    the instant itself, [HOURLY] the pair [(d.date(), d.hour)], [DAILY]
    [d.date()] and [NEVER] the constant [None], which is also the initial
    [last_key_value] of every policy. *)
Inductive KeyValue :=
| KNone
| KNow (d : DateTime)
| KHour (day h : Z)
| KDate (day : Z).

(** Python's [==] on these values. *)
Definition KeyValue_eqb (a b : KeyValue) : bool :=
  match a, b with
  | KNone, KNone => true
  | KNow d1, KNow d2 => datetime_eqb d1 d2
  | KHour d1 h1, KHour d2 h2 => (d1 =? d2)%Z && (h1 =? h2)%Z
  | KDate d1, KDate d2 => (d1 =? d2)%Z
  | _, _ => false
  end.

Module AlertPolicy.

(** The policy keeps, keyed by identifier, the alerts of the last bucket.
    [T] is the type of an alert: an alert value, or a reference to an
    alert object of the heap. *)
Record t (T : Type) := mk {
  key : DateTime -> KeyValue;
  last_key_value : KeyValue;
  last_key_value_alerts : list (Uuid * T);
}.
Arguments mk {T}.
Arguments key {T}.
Arguments last_key_value {T}.
Arguments last_key_value_alerts {T}.

(** [AlertPolicy.__init__] *)
Definition init {T : Type} (key : DateTime -> KeyValue) : t T :=
  mk key KNone [].

Section Receive.
Context {T : Type} (uuid_of : T -> Uuid).

(** [AlertPolicy.receive_alerts]: the policy after the call, and the pair
    [(gone_alerts, new_alerts)]. *)
Definition receive_alerts (self : t T) (now : DateTime) (alerts : list T)
    : t T * (list T * list T) :=
  let alerts := Dict.of_list (map (fun alert => (uuid_of alert, alert)) alerts) in
  let k := key self now in
  if negb (KeyValue_eqb k (last_key_value self)) then
    let gone_alerts :=
      List.filter (fun alert => negb (Dict.mem (uuid_of alert) alerts))
                  (Dict.values (last_key_value_alerts self)) in
    let new_alerts :=
      List.filter (fun alert =>
                     negb (Dict.mem (uuid_of alert) (last_key_value_alerts self)))
                  (Dict.values alerts) in
    (mk (key self) k alerts, (gone_alerts, new_alerts))
  else (self, ([], [])).

(** [AlertPolicy.delete_alert] *)
Definition delete_alert (self : t T) (alert : T) : t T :=
  mk (key self) (last_key_value self)
     (Dict.pop (last_key_value_alerts self) (uuid_of alert)).

End Receive.

End AlertPolicy.

Definition POLICIES : list string := ["IMMEDIATELY"; "HOURLY"; "DAILY"; "NEVER"].
Definition DEFAULT_POLICY : string := "IMMEDIATELY".

(** The policies that [AlertService.initialize] creates, in dictionary
    order. *)
Definition initial_policies (T : Type) : list (string * AlertPolicy.t T) :=
  [ ("IMMEDIATELY", AlertPolicy.init (fun now => KNow now));
    ("HOURLY", AlertPolicy.init (fun d => KHour (date d) (hour d)));
    ("DAILY", AlertPolicy.init (fun d => KDate (date d)));
    ("NEVER", AlertPolicy.init (fun _ => KNone)) ].

(** ** Per-class overrides, levels and visibility *)

(** An entry of [alertclasses.config()["classes"]].  The level is held as
    the enum member that [AlertLevel[...]] resolves its name to. *)
Record ClassConfig := mkClassConfig {
  config_level : option AlertLevel;
  config_policy : option string;
  config_proactive_support : option bool;
}.

Definition get_alert_level (alert : Alert) (classes : gmap string ClassConfig)
    : AlertLevel :=
  default (level (klass alert)) (classes !! name (klass alert) ≫= config_level).

Definition get_alert_policy (alert : Alert) (classes : gmap string ClassConfig)
    : string :=
  default DEFAULT_POLICY (classes !! name (klass alert) ≫= config_policy).

(** [AlertSerializer.should_show_alert] *)
Definition should_show_alert (product_type : string)
    (classes : gmap string ClassConfig) (alert : Alert) : bool :=
  if negb (bool_decide (product_type ∈ products (klass alert))) then false
  else if bool_decide (classes !! name (klass alert) ≫= config_policy = Some "NEVER")
  then false
  else true.

(** ** Sorting

    [sorted(l, key=k)] is stable, so where no comparison raises its result
    is the one of any stable sort: the insertion sort below.  A comparison
    may raise (ordering a naive against an aware datetime); the sort below
    then gives [None] if it makes such a comparison, which Python's sort
    need not make. *)

Section Sorting.
Context {A : Type} (cmp : A -> A -> option comparison).

Fixpoint insert_sorted (x : A) (l : list A) : option (list A) :=
  match l with
  | [] => Some [x]
  | y :: l' =>
      match cmp x y with
      | None => None
      | Some Gt => cons y <$> insert_sorted x l'
      | Some _ => Some (x :: l)
      end
  end.

Fixpoint sorted (l : list A) : option (list A) :=
  match l with
  | [] => Some []
  | x :: l' => sorted l' ≫= insert_sorted x
  end.

End Sorting.

(** ** Listing the alerts *)

(** The comparison of the last components of two keys: two [None] are
    equal, two datetimes are compared as datetimes, and ordering [None]
    against a datetime raises. *)
Definition first_seen_cmp (a b : option DateTime) : option comparison :=
  match a, b with
  | None, None => Some Eq
  | Some x, Some y => datetime_cmp x y
  | _, _ => None
  end.

(** The ordering of the sort keys
    [(-get_alert_level(alert, classes).value, alert.klass.title, alert.datetime)]. *)
Definition list_key_cmp (classes : gmap string ClassConfig) (a b : Alert)
    : option comparison :=
  match (- value (get_alert_level a classes) ?= - value (get_alert_level b classes))%Z with
  | Eq =>
      match String.compare (title (klass a)) (title (klass b)) with
      | Eq => first_seen_cmp (datetime a) (datetime b)
      | c => Some c
      end
  | c => Some c
  end.

(** [AlertService.list], before each alert is serialized.  [None] stands
    for an exception raised while sorting. *)
Definition list_alerts (product_type : string) (classes : gmap string ClassConfig)
    (alerts : list Alert) : option (list Alert) :=
  List.filter (should_show_alert product_type classes)
    <$> sorted (list_key_cmp classes) alerts.

(** The order that the listing is meant to follow: by descending level,
    then by title, then by first-seen timestamp (of naive timestamps). *)
Definition listed_before (classes : gmap string ClassConfig) (a b : Alert) : Prop :=
  (value (get_alert_level b classes) < value (get_alert_level a classes))%Z \/
  (value (get_alert_level a classes) = value (get_alert_level b classes) /\
   (String.compare (title (klass a)) (title (klass b)) = Lt \/
    (title (klass a) = title (klass b) /\
     exists x y, datetime a = Some (naive x) /\ datetime b = Some (naive y) /\
                 (x <= y)%Z))).

(** ** Reconciliation *)

(** The comparison of [__handle_alert]:
    [(a.node, a.source, a.klass, a.key) == (alert.node, alert.source, alert.klass, alert.key)]. *)
Definition same_alert (a alert : Alert) : bool :=
  bool_decide ((node a, source a, klass a, key a)
               = (node alert, source alert, klass alert, key alert)).

(** What one call of [__handle_alert] reads from outside: the identifier
    that [self.__uuid()] would return and the two readings of
    [datetime.utcnow()], for the first-seen default and for the last
    occurrence. *)
Record HandleInput := mkHandleInput {
  new_uuid : string;
  utcnow_first_seen : Z;
  utcnow_last_occurrence : Z;
}.

(** [AlertService.__handle_alert] on the alerts of the store, as a
    function from the alert before the call to the alert after it. *)
Definition handle_alert (alerts : list Alert) (inp : HandleInput) (alert : Alert)
    : Alert :=
  let existing_alert := List.find (fun a => same_alert a alert) alerts in
  let alert :=
    match existing_alert with
    | None => set_uuid (Some (new_uuid inp)) alert
    | Some existing_alert => set_uuid (uuid existing_alert) alert
    end in
  let alert :=
    match existing_alert with
    | None =>
        let d := default (naive (utcnow_first_seen inp)) (datetime alert) in
        set_datetime (Some (to_naive_utc d)) alert
    | Some existing_alert => set_datetime (datetime existing_alert) alert
    end in
  let alert := set_last_occurrence (Some (utcnow_last_occurrence inp)) alert in
  match existing_alert with
  | None => set_dismissed false alert
  | Some existing_alert => set_dismissed (dismissed existing_alert) alert
  end.

(** [AlertService.__should_expire_alert]; [None] stands for the
    [TypeError] of ordering [None] against a datetime. *)
Definition should_expire_alert (utcnow : Z) (alert : Alert) : option bool :=
  if is_oneshot (klass alert) then
    match expires_after (klass alert) with
    | Some ttl =>
        match last_occurrence alert with
        | Some t => Some (t <? utcnow - ttl)%Z
        | None => None
        end
    | None => Some false
    end
  else Some false.

(** ** Running a source *)

Inductive LogEntry :=
| LogError (msg : string) (arg : string)
| LogDebug (msg : string) (arg : string).

(** What [alert_source.check()] returns. *)
Inductive CheckValue :=
| ReturnsNone
| ReturnsAlert (alert : Alert)
| ReturnsList (alerts : list Alert).

Inductive CheckResult :=
| Returns (v : CheckValue)
| RaisesUnavailable
| Raises (e : string).

Module Stat.
(** An entry of [sources_run_times]. *)
Record t `{PyNum} := mk {
  last : list num;
  max : num;
  total_count : Z;
  total_time : num;
}.

(** The default entry of the [defaultdict]. *)
Definition initial `{PyNum} : t :=
  {| last := []; max := num_zero; total_count := 0; total_time := num_zero |}.
End Stat.

(** What one call of [__run_source] reads from outside: the outcome of the
    check and the two readings of [time.monotonic()]. *)
Record RunInput `{PyNum} := mkRunInput {
  check : CheckResult;
  monotonic_start : num;
  monotonic_end : num;
}.

(** The part of the service's state that [__run_source] uses. *)
Record RunState `{PyNum} := mkRunState {
  alert_sources_errors : gset string;
  sources_run_times : list (string * Stat.t);
  log : list LogEntry;
}.

(** The [finally] clause of [__run_source]. *)
Definition record_run_time `{PyNum} (source_name : string) (run_time : num)
    (times : list (string * Stat.t)) : list (string * Stat.t) :=
  let source_stat := default Stat.initial (Dict.get times source_name) in
  Dict.set times source_name
    {| Stat.last := drop (length (Stat.last source_stat) - 9) (Stat.last source_stat)
                    ++ [run_time];
       Stat.max := num_max (Stat.max source_stat) run_time;
       Stat.total_count := (Stat.total_count source_stat + 1)%Z;
       Stat.total_time := num_add (Stat.total_time source_stat) run_time |}.

(** The loop of [__run_source] that keeps the first alert of every key. *)
Fixpoint unique_alerts (keys : gset Key) (alerts : list Alert) : list Alert :=
  match alerts with
  | [] => []
  | alert :: alerts' =>
      if bool_decide (key alert ∈ keys) then unique_alerts keys alerts'
      else alert :: unique_alerts ({[ key alert ]} ∪ keys) alerts'
  end.

(** [AlertService.__run_source], for a source of [ALERT_SOURCES].  The
    result is [None] when [UnavailableException] is raised, and the
    returned alerts otherwise. *)
Definition run_source `{PyNum} `{AlertBase} (st : RunState) (source_name : string)
    (inp : RunInput) : RunState * option (list Alert) :=
  let run_time := num_sub (monotonic_end inp) (monotonic_start inp) in
  let times := record_run_time source_name run_time (sources_run_times st) in
  let finish (errors : gset string) (log : list LogEntry) (alerts : list Alert) :=
    let alerts := unique_alerts ∅ alerts in
    ({| alert_sources_errors := errors; sources_run_times := times; log := log |},
     Some (map (set_source (Some source_name)) alerts)) in
  match check inp with
  | RaisesUnavailable =>
      ({| alert_sources_errors := alert_sources_errors st;
          sources_run_times := times;
          log := log st |}, None)
  | Raises e =>
      let '(errors, log) :=
        if bool_decide (source_name ∈ alert_sources_errors st)
        then (alert_sources_errors st, log st)
        else ({[ source_name ]} ∪ alert_sources_errors st,
              log st ++ [LogError "Error checking for alert" source_name]) in
      finish errors log
        [Alert_init AlertSourceRunFailedAlertClass
           (Some [("source_name", source_name); ("traceback", e)]) None]
  | Returns v =>
      let alerts :=
        match v with
        | ReturnsNone => []
        | ReturnsAlert alert => [alert]
        | ReturnsList alerts => alerts
        end in
      finish (alert_sources_errors st ∖ {[ source_name ]}) (log st) alerts
  end.

(** Consecutive calls of [__run_source] for one source: the state after
    the last call and the results of the calls. *)
Fixpoint run_source_each `{PyNum} `{AlertBase} (st : RunState) (source_name : string)
    (inps : list RunInput) : RunState * list (option (list Alert)) :=
  match inps with
  | [] => (st, [])
  | inp :: inps' =>
      let '(st, result) := run_source st source_name inp in
      let '(st, results) := run_source_each st source_name inps' in
      (st, result :: results)
  end.

(** An entry of the result of [sources_stats]: the statistics and their
    average. *)
Record StatAvg `{PyNum} := mkStatAvg { avg : num; stat : Stat.t }.

(** [v["total_time"] / v["total_count"] if v["total_count"] != 0 else 0] *)
Definition average `{PyNum} (v : Stat.t) : option num :=
  if negb (Stat.total_count v =? 0)%Z
  then py_truediv (Stat.total_time v) (Stat.total_count v)
  else Some num_zero.

(** The dictionary comprehension of [sources_stats] over the sorted items. *)
Fixpoint with_averages `{PyNum} (items : list (string * Stat.t))
    (acc : list (string * StatAvg)) : option (list (string * StatAvg)) :=
  match items with
  | [] => Some acc
  | (k, v) :: items' =>
      match average v with
      | None => None
      | Some a => with_averages items' (Dict.set acc k {| avg := a; stat := v |})
      end
  end.

(** [AlertService.sources_stats]; [None] stands for an exception. *)
Definition sources_stats `{PyNum} (sources_run_times : list (string * Stat.t))
    : option (list (string * StatAvg)) :=
  sorted (fun t1 t2 => Some (String.compare (fst t1) (fst t2))) sources_run_times
    ≫= fun items => with_averages items [].

(** ** Notifying the alert services *)

(** Python's [l.remove(x)], which removes the first element equal to [x];
    [None] stands for the [ValueError] raised when there is none.  Alerts
    are compared as values: were they compared as objects, another of two
    equal alerts could be the one removed, and the values left would be
    the same. *)
Fixpoint list_remove {A : Type} `{EqDecision A} (x : A) (l : list A)
    : option (list A) :=
  match l with
  | [] => None
  | y :: l' => if decide (x = y) then Some l' else cons y <$> list_remove x l'
  end.

(** [gone_alert.klass == new_alert.klass and gone_alert.key == new_alert.key] *)
Definition same_class_key (gone_alert new_alert : Alert) : bool :=
  bool_decide (klass gone_alert = klass new_alert)
  && bool_decide (key gone_alert = key new_alert).

(** The loop of [send_alerts] over [list(service_gone_alerts)], the copy
    being [todo].  The inner loop stops at the first new alert of the
    class and key of the gone alert, which [List.find] returns, and
    removes both. *)
Fixpoint cancel_churn (todo service_gone_alerts service_new_alerts : list Alert)
    : option (list Alert * list Alert) :=
  match todo with
  | [] => Some (service_gone_alerts, service_new_alerts)
  | gone_alert :: todo' =>
      match List.find (same_class_key gone_alert) service_new_alerts with
      | Some new_alert =>
          gone ← list_remove gone_alert service_gone_alerts;
          new ← list_remove new_alert service_new_alerts;
          cancel_churn todo' gone new
      | None => cancel_churn todo' service_gone_alerts service_new_alerts
      end
  end.

(** The same cancellation by recursion on the gone alerts: the result is
    the gone alerts that found no partner and the new alerts that are
    left.  [cancel_churn_pairs] below shows that the loop computes it. *)
Fixpoint cancel_pairs (gone_alerts new_alerts : list Alert)
    : list Alert * list Alert :=
  match gone_alerts with
  | [] => ([], new_alerts)
  | gone_alert :: gone_alerts' =>
      match List.find (same_class_key gone_alert) new_alerts with
      | Some new_alert =>
          cancel_pairs gone_alerts' (default new_alerts (list_remove new_alert new_alerts))
      | None =>
          let '(gone, new) := cancel_pairs gone_alerts' new_alerts in
          (gone_alert :: gone, new)
      end
  end.

(** A row of [system.alertservice]; [service_level] is the member that
    [AlertLevel[alert_service_desc["level"]]] resolves to. *)
Record AlertServiceDesc := mkServiceDesc {
  service_type : string;
  service_attributes : string;
  service_level : AlertLevel;
}.

(** A constructed alert service: whether its [send] raises on the three
    lists it is given. *)
Definition Backend : Type := list Alert -> list Alert -> list Alert -> bool.

(** A factory builds a service from the attributes or raises ([None]). *)
Definition Factory : Type := string -> option Backend.

(** What happens to one alert service in one pass over a policy. *)
Inductive ServiceOutcome :=
| NothingChanged
| UnknownService
| CreationFailed
| NothingToSend
| Sent (alerts gone_alerts new_alerts : list Alert) (raised : bool).

(** The two conditions that all three comprehensions of [send_alerts]
    share: [product_type in alert.klass.products] and
    [get_alert_level(alert, classes).value >= service_level.value]. *)
Definition applies_to_service (product_type : string)
    (classes : gmap string ClassConfig) (alert_service_desc : AlertServiceDesc)
    (alert : Alert) : bool :=
  bool_decide (product_type ∈ products (klass alert))
  && (value (service_level alert_service_desc) <=? value (get_alert_level alert classes))%Z.

(** [service_alerts], the alerts of the store that the service is told of. *)
Definition service_alerts_of (product_type : string)
    (classes : gmap string ClassConfig) (alert_service_desc : AlertServiceDesc)
    (alerts : list Alert) : list Alert :=
  List.filter
    (fun alert =>
       applies_to_service product_type classes alert_service_desc alert
       && negb (String.eqb (get_alert_policy alert classes) "NEVER"))
    alerts.

(** [service_gone_alerts] and [service_new_alerts], before the
    cancellation: the gone (or new) alerts of the policy that the service
    is told of. *)
Definition service_changes_of (product_type : string)
    (classes : gmap string ClassConfig) (alert_service_desc : AlertServiceDesc)
    (policy_name : string) (changed : list Alert) : list Alert :=
  List.filter
    (fun alert =>
       applies_to_service product_type classes alert_service_desc alert
       && String.eqb (get_alert_policy alert classes) policy_name)
    changed.

Definition undismissed (alerts : list Alert) : list Alert :=
  List.filter (fun alert => negb (dismissed alert)) alerts.

(** The body of the loop of [send_alerts] over the enabled alert services,
    for one policy.  [None] stands for an exception that leaves the loop. *)
Definition notify_service (product_type : string) (classes : gmap string ClassConfig)
    (factories : gmap string Factory) (policy_name : string)
    (alerts gone_alerts new_alerts : list Alert) (alert_service_desc : AlertServiceDesc)
    : option ServiceOutcome :=
  let service_alerts :=
    service_alerts_of product_type classes alert_service_desc alerts in
  let service_gone_alerts :=
    service_changes_of product_type classes alert_service_desc policy_name gone_alerts in
  let service_new_alerts :=
    service_changes_of product_type classes alert_service_desc policy_name new_alerts in
  '(service_gone_alerts, service_new_alerts) ←
    cancel_churn service_gone_alerts service_gone_alerts service_new_alerts;
  Some
    match service_gone_alerts, service_new_alerts with
    | [], [] => NothingChanged
    | _, _ =>
        match factories !! service_type alert_service_desc with
        | None => UnknownService
        | Some factory =>
            match factory (service_attributes alert_service_desc) with
            | None => CreationFailed
            | Some alert_service =>
                let alerts := undismissed service_alerts in
                let service_gone_alerts := undismissed service_gone_alerts in
                let service_new_alerts := undismissed service_new_alerts in
                match alerts, service_gone_alerts, service_new_alerts with
                | [], [], [] => NothingToSend
                | _, _, _ =>
                    Sent alerts service_gone_alerts service_new_alerts
                         (alert_service alerts service_gone_alerts service_new_alerts)
                end
            end
        end
    end.

(** ** The service's state, on a heap of alert objects *)

Definition loc : Type := nat.

#[global] Instance Alert_inhabited : Inhabited Alert :=
  populate (mkAlert None None (mkClass "" "" (mkLevel "" 0) [] false false false None)
                    None None None None None false None).

(** The attributes of the [AlertService] instance (and the module's
    [SEND_ALERTS_ON_READY]).  [alerts] and the policies hold references to
    the alert objects of [heap].  The methods that change them are jobs
    under the lock [process_alerts], which run one at a time: a method is
    a function from the state before it to the state after it. *)
Record State `{PyNum} := mkState {
  heap : list Alert;
  self_node : string;
  alerts : list loc;
  policies : list (string * AlertPolicy.t loc);
  alert_source_last_run : gmap string Z;
  blocked_sources : gmap string (gset string);
  sources_locks : list (string * (string * num));
  blocked_failover_alerts_until : num;
  run_state : RunState;
  SEND_ALERTS_ON_READY : bool;
}.

Section StateOps.
Context `{PyNum}.

Definition set_heap (h : list Alert) (st : State) : State :=
  {| heap := h; self_node := self_node st; alerts := alerts st;
     policies := policies st; alert_source_last_run := alert_source_last_run st;
     blocked_sources := blocked_sources st; sources_locks := sources_locks st;
     blocked_failover_alerts_until := blocked_failover_alerts_until st;
     run_state := run_state st; SEND_ALERTS_ON_READY := SEND_ALERTS_ON_READY st |}.

Definition set_alerts (l : list loc) (st : State) : State :=
  {| heap := heap st; self_node := self_node st; alerts := l;
     policies := policies st; alert_source_last_run := alert_source_last_run st;
     blocked_sources := blocked_sources st; sources_locks := sources_locks st;
     blocked_failover_alerts_until := blocked_failover_alerts_until st;
     run_state := run_state st; SEND_ALERTS_ON_READY := SEND_ALERTS_ON_READY st |}.

Definition set_policies (p : list (string * AlertPolicy.t loc)) (st : State) : State :=
  {| heap := heap st; self_node := self_node st; alerts := alerts st;
     policies := p; alert_source_last_run := alert_source_last_run st;
     blocked_sources := blocked_sources st; sources_locks := sources_locks st;
     blocked_failover_alerts_until := blocked_failover_alerts_until st;
     run_state := run_state st; SEND_ALERTS_ON_READY := SEND_ALERTS_ON_READY st |}.

Definition set_alert_source_last_run (m : gmap string Z) (st : State) : State :=
  {| heap := heap st; self_node := self_node st; alerts := alerts st;
     policies := policies st; alert_source_last_run := m;
     blocked_sources := blocked_sources st; sources_locks := sources_locks st;
     blocked_failover_alerts_until := blocked_failover_alerts_until st;
     run_state := run_state st; SEND_ALERTS_ON_READY := SEND_ALERTS_ON_READY st |}.

Definition set_locks (b : gmap string (gset string))
    (l : list (string * (string * num))) (st : State) : State :=
  {| heap := heap st; self_node := self_node st; alerts := alerts st;
     policies := policies st; alert_source_last_run := alert_source_last_run st;
     blocked_sources := b; sources_locks := l;
     blocked_failover_alerts_until := blocked_failover_alerts_until st;
     run_state := run_state st; SEND_ALERTS_ON_READY := SEND_ALERTS_ON_READY st |}.

Definition set_run_state (r : RunState) (st : State) : State :=
  {| heap := heap st; self_node := self_node st; alerts := alerts st;
     policies := policies st; alert_source_last_run := alert_source_last_run st;
     blocked_sources := blocked_sources st; sources_locks := sources_locks st;
     blocked_failover_alerts_until := blocked_failover_alerts_until st;
     run_state := r; SEND_ALERTS_ON_READY := SEND_ALERTS_ON_READY st |}.

Definition set_SEND_ALERTS_ON_READY (b : bool) (st : State) : State :=
  {| heap := heap st; self_node := self_node st; alerts := alerts st;
     policies := policies st; alert_source_last_run := alert_source_last_run st;
     blocked_sources := blocked_sources st; sources_locks := sources_locks st;
     blocked_failover_alerts_until := blocked_failover_alerts_until st;
     run_state := run_state st; SEND_ALERTS_ON_READY := b |}.

Definition add_log (e : LogEntry) (st : State) : State :=
  set_run_state
    {| alert_sources_errors := alert_sources_errors (run_state st);
       sources_run_times := sources_run_times (run_state st);
       log := log (run_state st) ++ [e] |} st.

(** The object that a reference points to. *)
Definition obj (h : list Alert) (l : loc) : Alert := h !!! l.

(** The alerts of the store, as values. *)
Definition store (st : State) : list Alert := map (obj (heap st)) (alerts st).

(** A new object. *)
Definition alloc (alert : Alert) (st : State) : State * loc :=
  (set_heap (heap st ++ [alert]) st, length (heap st)).

Fixpoint alloc_all (alerts : list Alert) (st : State) : State * list loc :=
  match alerts with
  | [] => (st, [])
  | alert :: alerts' =>
      let '(st, l) := alloc alert st in
      let '(st, ls) := alloc_all alerts' st in
      (st, l :: ls)
  end.

(** An assignment to attributes of the object at [l]. *)
Definition update (f : Alert -> Alert) (l : loc) (st : State) : State :=
  set_heap (<[l := f (obj (heap st) l)]> (heap st)) st.

(** [copy.deepcopy] of a list of alert objects: every object is copied
    once, and the memo maps the objects copied so far to their copies. *)
Fixpoint deepcopy (memo : list (loc * loc)) (ls : list loc) (h : list Alert)
    : list Alert * list loc :=
  match ls with
  | [] => (h, [])
  | l :: ls' =>
      match Dict.get memo l with
      | Some l' => let '(h, r) := deepcopy memo ls' h in (h, l' :: r)
      | None =>
          let l' := length h in
          let '(h, r) := deepcopy (Dict.set memo l l') ls' (h ++ [obj h l]) in
          (h, l' :: r)
      end
  end.

End StateOps.

(** ** The scheduling pass *)

(** What [system.state] and the failover plugin answer at one moment. *)
Record SystemStatus := mkSystemStatus {
  system_state : string;
  failover_licensed : bool;
  failover_status : string;
  failover_in_progress : bool;
}.

(** [AlertService.__should_run_or_send_alerts] *)
Definition should_run_or_send_alerts (s : SystemStatus) : bool :=
  if negb (String.eqb (system_state s) "READY") then false
  else if failover_licensed s then
    if String.eqb (failover_status s) "BACKUP" || failover_in_progress s then false
    else true
  else true.

(** An entry of [ALERT_SOURCES]; [should_run now last_run] is
    [alert_source.schedule.should_run(now, last_run)]. *)
Record AlertSource := mkAlertSource {
  source_name : string;
  source_products : list string;
  failover_related : bool;
  run_on_backup_node : bool;
  should_run : Z -> Z -> bool;
}.

(** The outcome of running a source on the other node: the alerts it
    returned, a [CallError] of a tolerated errno, a [ReserveFDException],
    or any other exception. *)
Inductive RemoteResult :=
| RemoteReturns (alerts : list Alert)
| RemoteUnavailable
| RemoteReserveFD
| RemoteRaises (e : string).

(** What one pass of [__run_alerts] reads from outside.  [remote_status]
    is the version, the state and the failover status of the other node,
    or [None] when asking for them raises.  The readings of the clocks and
    the outcomes of the checks are indexed by the lock or the source they
    are read for. *)
Record RunEnv `{PyNum} := mkRunEnv {
  product_type : string;
  licensed : bool;
  failover_node : string;
  remote_status : option (string * string * string);
  system_version : string;
  monotonic_failover : num;
  monotonic_lock : string -> num;
  utcnow_schedule : string -> Z;
  utcnow_last_run : string -> Z;
  source_input : string -> RunInput;
  remote_result : string -> RemoteResult;
  handle_input : string -> nat -> HandleInput;
}.

Section Pass.
Context `{PyNum} `{AlertBase}.

(** [AlertService.unblock_source]; [None] stands for the [KeyError] of
    removing a lock from a set that does not hold it. *)
Definition unblock_source (lock : string) (st : State) : option State :=
  match Dict.get (sources_locks st) lock with
  | None => Some st
  | Some (source_name, _) =>
      let blocked := default ∅ (blocked_sources st !! source_name) in
      if bool_decide (lock ∈ blocked) then
        Some (set_locks (<[source_name := blocked ∖ {[ lock ]}]> (blocked_sources st))
                        (Dict.pop (sources_locks st) lock) st)
      else None
  end.

(** The sweep of the expired locks, over [list(self.sources_locks.items())]. *)
Fixpoint unblock_expired (monotonic : string -> num)
    (items : list (string * (string * num))) (st : State) : option State :=
  match items with
  | [] => Some st
  | (k, (_, expires_at)) :: items' =>
      (if num_leb expires_at (monotonic k) then unblock_source k st else Some st)
        ≫= unblock_expired monotonic items'
  end.

(** [self.__handle_alert(alert)] for the alerts of a list, in order; the
    [i]-th call reads [inp i]. *)
Fixpoint handle_alerts (inp : nat -> HandleInput) (i : nat) (ls : list loc)
    (st : State) : State :=
  match ls with
  | [] => st
  | l :: ls' =>
      handle_alerts inp (S i) ls' (update (handle_alert (store st) (inp i)) l st)
  end.

Definition is_from (node_name source_name : string) (alert : Alert) : bool :=
  bool_decide (node alert = Some node_name)
  && bool_decide (source alert = Some source_name).

(** The alerts of a source on this node, [alerts_a]: the ones of the
    store if the source is blocked or unavailable, the ones of a run
    otherwise; they are given the node.  The result tells whether the
    source is blocked. *)
Definition local_alerts (env : RunEnv) (master_node name : string) (st : State)
    : State * list loc * bool :=
  let alerts_a :=
    List.filter (fun l => is_from master_node name (obj (heap st) l)) (alerts st) in
  let '(st, alerts_a, locked) :=
    if bool_decide (default ∅ (blocked_sources st !! name) ≠ ∅) then
      (add_log (LogDebug "Not running alert source because it is blocked" name) st,
       alerts_a, true)
    else
      let '(rs, result) := run_source (run_state st) name (source_input env name) in
      let st := set_run_state rs st in
      match result with
      | Some fresh => let '(st, ls) := alloc_all fresh st in (st, ls, false)
      | None => (st, alerts_a, false)
      end in
  (fold_left (fun st l => update (set_node (Some master_node)) l st) alerts_a st,
   alerts_a, locked).

(** The alerts of a source on the other node, [alerts_b]. *)
Definition remote_alerts (env : RunEnv) (backup_node : string) (run_on_backup : bool)
    (alert_source : AlertSource) (locked : bool) (st : State) : State * list loc :=
  let name := source_name alert_source in
  let '(st, alerts_b) :=
    if run_on_backup && run_on_backup_node alert_source then
      let stored :=
        List.filter (fun l => is_from backup_node name (obj (heap st) l)) (alerts st) in
      if locked then (st, stored)
      else
        match remote_result env name with
        | RemoteReturns fresh => alloc_all fresh st
        | RemoteUnavailable => (st, stored)
        | RemoteReserveFD =>
            (add_log (LogDebug "Failed to reserve a privileged port" "") st, stored)
        | RemoteRaises e =>
            alloc_all
              [Alert_init AlertSourceRunFailedOnBackupNodeAlertClass
                 (Some [("source_name", name); ("traceback", e)]) (Some name)] st
        end
    else (st, []) in
  (fold_left (fun st l => update (set_node (Some backup_node)) l st) alerts_b st,
   alerts_b).

(** The body of the loop of [__run_alerts] over [ALERT_SOURCES.values()]. *)
Definition run_alert_source (env : RunEnv) (master_node backup_node : string)
    (run_on_backup : bool) (run_failover_related : bool)
    (st : State) (alert_source : AlertSource) : State :=
  let name := source_name alert_source in
  if negb (bool_decide (product_type env ∈ source_products alert_source)) then st
  else if failover_related alert_source && negb run_failover_related then st
  else if negb (should_run alert_source (utcnow_schedule env name)
                           (default 0%Z (alert_source_last_run st !! name))) then st
  else
    let st := set_alert_source_last_run
                (<[name := utcnow_last_run env name]> (alert_source_last_run st)) st in
    let '(st, alerts_a, locked) := local_alerts env master_node name st in
    let '(st, alerts_b) := remote_alerts env backup_node run_on_backup alert_source locked st in
    let st := handle_alerts (handle_input env name) 0 (alerts_a ++ alerts_b) st in
    set_alerts
      (List.filter (fun l => negb (bool_decide (source (obj (heap st) l) = Some name)))
                   (alerts st)
       ++ alerts_a ++ alerts_b) st.

(** [AlertService.__run_alerts] over the registered sources. *)
Definition run_alerts (sources : list AlertSource) (env : RunEnv) (st : State)
    : option State :=
  let enterprise := String.eqb (product_type env) "SCALE_ENTERPRISE" in
  let swapped := enterprise && licensed env && String.eqb (failover_node env) "B" in
  let master_node := if swapped then "B" else "A" in
  let backup_node := if swapped then "A" else "B" in
  let run_on_backup :=
    enterprise && licensed env &&
    match remote_status env with
    | Some (remote_version, remote_system_state, remote_failover_status) =>
        String.eqb remote_version (system_version env)
        && String.eqb remote_system_state "READY"
        && String.eqb remote_failover_status "BACKUP"
    | None => false
    end in
  let run_failover_related :=
    enterprise && num_ltb (blocked_failover_alerts_until st) (monotonic_failover env) in
  st ← unblock_expired (monotonic_lock env) (sources_locks st) st;
  Some (fold_left
          (run_alert_source env master_node backup_node run_on_backup run_failover_related)
          sources st).

(** [AlertService.__expire_alerts]; the [i]-th alert of the store is
    examined at [utcnow i]. *)
Fixpoint keep_unexpired (utcnow : nat -> Z) (i : nat) (h : list Alert)
    (ls : list loc) : option (list loc) :=
  match ls with
  | [] => Some []
  | l :: ls' =>
      match should_expire_alert (utcnow i) (obj h l) with
      | None => None
      | Some expire =>
          kept ← keep_unexpired utcnow (S i) h ls';
          Some (if expire then kept else l :: kept)
      end
  end.

Definition expire_alerts (utcnow : nat -> Z) (st : State) : option State :=
  kept ← keep_unexpired utcnow 0 (heap st) (alerts st);
  Some (set_alerts kept st).

(** What one scheduling pass reads from outside. *)
Record PassEnv := mkPassEnv {
  status_before : SystemStatus;
  run_env : RunEnv;
  utcnow_expire : nat -> Z;
  status_after : SystemStatus;
}.

(** [AlertService.process_alerts].  The result is the state after the
    pass and whether [alert.send_alerts] was called; [None] stands for an
    exception that ends the pass. *)
Definition process_alerts (sources : list AlertSource) (env : PassEnv) (st : State)
    : option (State * bool) :=
  if negb (should_run_or_send_alerts (status_before env)) then Some (st, false)
  else
    let '(h, valid_alerts) := deepcopy [] (alerts st) (heap st) in
    let st := set_heap h st in
    st ← run_alerts sources (run_env env) st;
    st ← expire_alerts (utcnow_expire env) st;
    if negb (should_run_or_send_alerts (status_after env))
    then Some (set_alerts valid_alerts st, false)
    else Some (st, true).

(** ** One-shot alerts *)

Inductive CreateResult :=
| CallError (msg : string)
| Created (st : State) (send_alerts_called : bool).

(** [AlertService.oneshot_create].  [create] is the [create] method of
    the one-shot classes, and [class_by_name] the registry
    [AlertClass.class_by_name]. *)
Definition oneshot_create (class_by_name : gmap string AlertClass)
    (create : AlertClass -> option Args -> option Alert) (inp : HandleInput)
    (st : State) (klass_name : string) (create_args : option Args) : CreateResult :=
  match class_by_name !! klass_name with
  | None => CallError "Invalid alert class"
  | Some klass =>
      if negb (is_oneshot klass) then CallError "Alert class is not a one-shot alert class"
      else
        match create klass create_args with
        | None => Created st false
        | Some alert =>
            let '(st, l) := alloc alert st in
            let st := update (set_source (Some "")) l st in
            let st := update (set_node (Some (self_node st))) l st in
            let st := update (handle_alert (store st) inp) l st in
            let st :=
              set_alerts
                (List.filter
                   (fun a => negb (bool_decide (uuid (obj (heap st) a) = uuid (obj (heap st) l))))
                   (alerts st)
                 ++ [l]) st in
            Created st true
        end
  end.

(** ** The dispatch pass *)

Inductive Effect :=
| Send (service_type : string) (alerts gone_alerts new_alerts : list Alert)
| Event (kind : string) (id : Uuid)
| MailSend (mail : string).

(** What one pass of [send_alerts] reads from outside; [alert_services]
    are the rows of [system.alertservice] that are enabled. *)
Record SendEnv := mkSendEnv {
  send_system_state : string;
  send_product_type : string;
  classes : gmap string ClassConfig;
  utcnow_send : Z;
  alert_services : list AlertServiceDesc;
  ALERT_SERVICES_FACTORIES : gmap string Factory;
}.

(** The effects and the log entries of one alert service. *)
Definition outcome_effects (alert_service_desc : AlertServiceDesc)
    (o : ServiceOutcome) : list Effect * list LogEntry :=
  let type := service_type alert_service_desc in
  match o with
  | NothingChanged | NothingToSend => ([], [])
  | UnknownService => ([], [LogError "Alert service does not exist" type])
  | CreationFailed => ([], [LogError "Error creating alert service" type])
  | Sent alerts gone_alerts new_alerts raised =>
      ([Send type alerts gone_alerts new_alerts],
       if raised then [LogError "Error in alert service" type] else [])
  end.

(** The loop over the enabled alert services, for one policy. *)
Fixpoint notify_services (env : SendEnv) (policy_name : string)
    (alerts gone_alerts new_alerts : list Alert) (descs : list AlertServiceDesc)
    : option (list Effect * list LogEntry) :=
  match descs with
  | [] => Some ([], [])
  | desc :: descs' =>
      o ← notify_service (send_product_type env) (classes env)
            (ALERT_SERVICES_FACTORIES env) policy_name alerts gone_alerts new_alerts desc;
      '(effects, entries) ← notify_services env policy_name alerts gone_alerts new_alerts descs';
      let '(e, g) := outcome_effects desc o in
      Some (e ++ effects, g ++ entries)
  end.

(** The events and the mails of the [IMMEDIATELY] policy. *)
Definition immediate_effects (env : SendEnv) (gone_alerts new_alerts : list Alert)
    : list Effect :=
  let shown := should_show_alert (send_product_type env) (classes env) in
  map (fun alert => Event "REMOVED" (uuid alert)) (List.filter shown gone_alerts)
  ++ map (fun alert => Event "ADDED" (uuid alert)) (List.filter shown new_alerts)
  ++ omap (fun alert => MailSend <$> mail alert) new_alerts.

(** The loop of [send_alerts] over [self.policies.items()].  The policies
    diff references to the alert objects; the services are given the
    objects as they are at this moment. *)
Fixpoint send_policies (env : SendEnv) (h : list Alert) (store : list loc)
    (todo : list (string * AlertPolicy.t loc))
    : option (list (string * AlertPolicy.t loc) * list Effect * list LogEntry) :=
  match todo with
  | [] => Some ([], [], [])
  | (policy_name, policy) :: todo' =>
      let '(policy, (gone_alerts, new_alerts)) :=
        AlertPolicy.receive_alerts (fun l => uuid (obj h l)) policy
          (naive (utcnow_send env)) store in
      let gone_alerts := map (obj h) gone_alerts in
      let new_alerts := map (obj h) new_alerts in
      '(effects, entries) ←
        notify_services env policy_name (map (obj h) store) gone_alerts new_alerts
          (alert_services env);
      let immediate :=
        if String.eqb policy_name "IMMEDIATELY"
        then immediate_effects env gone_alerts new_alerts else [] in
      '(policies, effects', entries') ← send_policies env h store todo';
      Some ((policy_name, policy) :: policies,
            effects ++ immediate ++ effects', entries ++ entries')
  end.

(** [AlertService.send_alerts], up to the creation of support tickets
    (proactive support), which this model leaves out. *)
Definition send_alerts (env : SendEnv) (st : State) : option (State * list Effect) :=
  if negb (String.eqb (send_system_state env) "READY")
  then Some (set_SEND_ALERTS_ON_READY true st, [])
  else
    '(policies, effects, entries) ←
      send_policies env (heap st) (alerts st) (policies st);
    Some (fold_left (fun st e => add_log e st) entries (set_policies policies st),
          effects).

(** The end of [AlertService.initialize]: the policies are created and
    given the alerts that were loaded. *)
Definition initialize_policies (utcnow : string -> Z) (st : State) : State :=
  set_policies
    (map (fun p =>
            (fst p,
             fst (AlertPolicy.receive_alerts (fun l => uuid (obj (heap st) l)) (snd p)
                    (naive (utcnow (fst p))) (alerts st))))
         (initial_policies loc)) st.

End Pass.

(** ** References and well-formed states *)

(** Every reference of the store points to an object of the heap. *)
Definition refs_valid `{PyNum} (st : State) : Prop :=
  Forall (fun l => l < length (heap st)) (alerts st).

(** A reference that is not among the ones from [base] up to [top], not
    included. *)
Definition outside (base top : nat) (l : loc) : Prop := l < base \/ top <= l.

(** The objects at the references from [base] up to [top], not included,
    are the ones of the heap [h]; the store does not refer to them; and
    the policies are [p].  This is what a pass keeps of a copy of the
    store made at its beginning. *)
Definition untouched `{PyNum} (h : list Alert) (base top : nat)
    (p : list (string * AlertPolicy.t loc)) (st : State) : Prop :=
  top <= length (heap st) /\
  (forall l, base <= l < top -> heap st !! l = h !! l) /\
  Forall (outside base top) (alerts st) /\
  policies st = p.

(** The object at [l] exists and has a last occurrence. *)
Definition seen (h : list Alert) (l : loc) : Prop :=
  l < length h /\ last_occurrence (obj h l) <> None.

(** Every alert of the store has a last occurrence, as every alert that
    went through [__handle_alert] has. *)
Definition store_seen `{PyNum} (st : State) : Prop :=
  Forall (seen (heap st)) (alerts st).

(** No object is lost and no last occurrence is taken away. *)
Definition grows `{PyNum} (st st' : State) : Prop :=
  length (heap st) <= length (heap st') /\
  forall l, seen (heap st) l -> seen (heap st') l.

(** The two tables of [block_source] agree: no lock is twice in
    [sources_locks], and every lock of it is in the set of the locks of
    its source. *)
Definition locks_consistent `{PyNum} (st : State) : Prop :=
  List.NoDup (Dict.keys (sources_locks st)) /\
  forall k n e, In (k, (n, e)) (sources_locks st) ->
                k ∈ default ∅ (blocked_sources st !! n).

(** ** Concrete data

    A system with two alert classes, used to run the definitions. *)

Module Example.

(** Integers as numbers, with the quotient as division. *)
Definition Z_num : PyNum :=
  {| num := Z; num_zero := 0%Z; num_add := Z.add; num_sub := Z.sub;
     num_max := Z.max; num_leb := Z.leb; num_ltb := Z.ltb;
     num_truediv := Z.div |}.

Definition base : AlertBase :=
  {| CRITICAL := mkLevel "CRITICAL" 5;
     WARNING := mkLevel "WARNING" 3;
     base_products := ["SCALE"; "SCALE_ENTERPRISE"];
     default_key := fun args =>
       match args with
       | Some ((_, v) :: _) => Some v
       | _ => None
       end |}.

Definition DiskFail : AlertClass :=
  {| name := "DiskFail"; title := "Disk failed";
     level := mkLevel "CRITICAL" 5; products := ["SCALE"; "SCALE_ENTERPRISE"];
     exclude_from_list := false; is_oneshot := false;
     deleted_automatically := true; expires_after := None |}.

Definition Quota : AlertClass :=
  {| name := "Quota"; title := "Quota exceeded";
     level := mkLevel "WARNING" 3; products := ["SCALE"; "SCALE_ENTERPRISE"];
     exclude_from_list := false; is_oneshot := true;
     deleted_automatically := false; expires_after := None |}.

(** An alert of the store: dismissed, first seen at 1000. *)
Definition sda : Alert :=
  {| uuid := Some "U"; source := Some "disk"; klass := DiskFail; args := None;
     node := Some "A"; key := Some "sda"; datetime := Some (naive 1000);
     last_occurrence := Some 1000%Z; dismissed := true; mail := None |}.

(** The same condition as a check reports it, first seen at 5000 in a
    timezone one hour ahead of UTC. *)
Definition sda_seen : Alert :=
  {| uuid := None; source := Some "disk"; klass := DiskFail; args := None;
     node := Some "A"; key := Some "sda";
     datetime := Some (mkDateTime 3600005000 (Some 3600000000%Z));
     last_occurrence := None; dismissed := false; mail := None |}.

Definition sdb_seen : Alert :=
  {| uuid := None; source := Some "disk"; klass := DiskFail; args := None;
     node := Some "A"; key := Some "sdb";
     datetime := Some (mkDateTime 3600005000 (Some 3600000000%Z));
     last_occurrence := None; dismissed := false; mail := None |}.

Definition input : HandleInput :=
  {| new_uuid := "V"; utcnow_first_seen := 7000; utcnow_last_occurrence := 7001 |}.

(** The alerts of a dispatch pass: the gone alerts of both nodes and the
    new alert of node A have the class DiskFail and the key sda. *)
Definition gone_a : Alert :=
  {| uuid := Some "G1"; source := Some "disk"; klass := DiskFail; args := None;
     node := Some "A"; key := Some "sda"; datetime := Some (naive 1000);
     last_occurrence := Some 1000%Z; dismissed := false; mail := None |}.


Definition gone_c : Alert :=
  {| uuid := Some "G3"; source := Some "disk"; klass := DiskFail; args := None;
     node := Some "A"; key := Some "sdc"; datetime := Some (naive 1000);
     last_occurrence := Some 1000%Z; dismissed := false; mail := None |}.

Definition new_a : Alert :=
  {| uuid := Some "N1"; source := Some "smart"; klass := DiskFail; args := None;
     node := Some "A"; key := Some "sda"; datetime := Some (naive 2000);
     last_occurrence := Some 2000%Z; dismissed := false; mail := None |}.

(** An alert service that takes the alerts from WARNING on, and whose
    [send] does not raise. *)
Definition mail_service : AlertServiceDesc :=
  {| service_type := "Mail"; service_attributes := "{}";
     service_level := mkLevel "WARNING" 3 |}.

Definition factories : gmap string Factory :=
  {[ "Mail" := fun _ => Some (fun _ _ _ => false) ]}.

(** The synthetic alert of a failed check, in the store. *)
Definition check_failed : Alert :=
  {| uuid := Some "F"; source := Some "disk";
     klass := @AlertSourceRunFailedAlertClass base;
     args := Some [("source_name", "disk"); ("traceback", "boom")];
     node := Some "A"; key := Some "disk"; datetime := Some (naive 500);
     last_occurrence := Some 500%Z; dismissed := false; mail := None |}.

(** An hourly policy, and the same policy after it has seen the alert sda
    at one o'clock of day one. *)
Definition hourly : AlertPolicy.t Alert :=
  AlertPolicy.init (fun d => KHour (date d) (hour d)).

Definition hourly_seen : AlertPolicy.t Alert :=
  fst (AlertPolicy.receive_alerts uuid hourly (naive 90000000000) [sda]).

(** A one-shot alert of the class Quota and the key tank, dismissed,
    that was created on the node [n]. *)
Definition quota (n : string) : Alert :=
  {| uuid := Some "Q"; source := Some ""; klass := Quota; args := None;
     node := Some n; key := Some "tank"; datetime := Some (naive 1000);
     last_occurrence := Some 1000%Z; dismissed := true; mail := None |}.

(** A state of node A whose store holds that alert alone. *)
Definition state_with (a : Alert) : @State Z_num :=
  @mkState Z_num [a] "A" [0] [] ∅ ∅ [] (0%Z : @num Z_num)
    (@mkRunState Z_num ∅ [] []) false.

Definition class_by_name : gmap string AlertClass :=
  {[ "Quota" := Quota; "DiskFail" := DiskFail ]}.

(** The [create] method of the class Quota: an alert of the key tank. *)
Definition create (k : AlertClass) (_ : option Args) : option Alert :=
  Some {| uuid := None; source := None; klass := k; args := None; node := None;
          key := Some "tank"; datetime := None; last_occurrence := None;
          dismissed := false; mail := None |}.

(** A state with two alerts in the store, the first one dismissed, just
    after the policies were created. *)
Definition state : @State Z_num :=
  @mkState Z_num [sda; gone_c] "A" [0; 1] (initial_policies loc) ∅ ∅ []
    (0%Z : @num Z_num) (@mkRunState Z_num ∅ [] []) false.

Definition send_env : SendEnv :=
  {| send_system_state := "READY";
     send_product_type := "SCALE";
     classes := ∅;
     utcnow_send := 90000000000;
     alert_services := [mail_service];
     ALERT_SERVICES_FACTORIES := factories |}.

(** A source that reports the disks sda and sdb, in a pass during which
    this node becomes the standby node. *)
Definition disk_source : AlertSource :=
  {| source_name := "disk"; source_products := ["SCALE"; "SCALE_ENTERPRISE"];
     failover_related := false; run_on_backup_node := false;
     should_run := fun _ _ => true |}.

Definition pass_env : @PassEnv Z_num :=
  @mkPassEnv Z_num
    (mkSystemStatus "READY" true "MASTER" false)
    (@mkRunEnv Z_num "SCALE_ENTERPRISE" true "A" None "25.04" (10%Z : @num Z_num)
       (fun _ => (0%Z : @num Z_num)) (fun _ => 8000%Z) (fun _ => 8001%Z)
       (fun _ => @mkRunInput Z_num (Returns (ReturnsList [sda_seen; sdb_seen]))
                   (3%Z : @num Z_num) (5%Z : @num Z_num))
       (fun _ => RemoteUnavailable)
       (fun _ i => mkHandleInput "V" 9000 (9001 + Z.of_nat i)))
    (fun _ => 9500%Z)
    (mkSystemStatus "READY" true "BACKUP" false).

(** The state above with the source disk blocked by a lock that has not
    expired. *)
Definition blocked_state : @State Z_num :=
  @mkState Z_num [sda; gone_c] "A" [0; 1] (initial_policies loc) ∅
    {[ "disk" := {[ "lock" ]} ]} [("lock", ("disk", (100%Z : @num Z_num)))]
    (0%Z : @num Z_num) (@mkRunState Z_num ∅ [] []) false.

(** A run state in which no error was logged, and a check that raises. *)
Definition run_state0 : @RunState Z_num := @mkRunState Z_num ∅ [] [].

Definition failing : @RunInput Z_num :=
  @mkRunInput Z_num (Raises "boom") (3%Z : @num Z_num) (5%Z : @num Z_num).

End Example.

(** ** Blocking and unblocking a source *)

Section Locks.
Context `{PyNum}.

Inductive BlockResult :=
| BlockError (msg : string)
| Blocked (st : State) (lock : string).

(** [AlertService.block_source] over the registered sources; [lock] is
    the string that [str(uuid.uuid4())] gives and [monotonic] the reading
    of the clock. *)
Definition block_source (sources : list AlertSource) (lock : string)
    (monotonic : num) (st : State) (name : string) (timeout : num) : BlockResult :=
  if negb (bool_decide (name ∈ map source_name sources))
  then BlockError "Invalid alert source"
  else
    let blocked := default ∅ (blocked_sources st !! name) in
    Blocked
      (set_locks (<[name := {[ lock ]} ∪ blocked]> (blocked_sources st))
                 (Dict.set (sources_locks st) lock (name, num_add monotonic timeout))
                 st)
      lock.

End Locks.

(** ** Dismissing, restoring and deleting alerts *)

Section Dismiss.
Context `{PyNum}.

(** [AlertService.__alert_by_uuid]: the first alert of the store that has
    the identifier. *)
Definition alert_by_uuid (u : string) (st : State) : option loc :=
  List.find (fun a => bool_decide (uuid (obj (heap st) a) = Some u)) (alerts st).

(** [alerts.remove(alert)] on a list of alert objects, which are compared
    by their attributes; [None] stands for the [ValueError]. *)
Fixpoint remove_obj (h : list Alert) (alert : Alert) (ls : list loc)
    : option (list loc) :=
  match ls with
  | [] => None
  | l :: ls' =>
      if decide (alert = obj h l) then Some ls' else cons l <$> remove_obj h alert ls'
  end.

(** [AlertService._send_alert_changed_event], up to the serialization of
    the alert. *)
Definition _send_alert_changed_event (product_type : string)
    (classes : gmap string ClassConfig) (alert : Alert) : list Effect :=
  if should_show_alert product_type classes alert
  then [Event "CHANGED" (uuid alert)] else [].

Definition _send_alert_deleted_event (alert : Alert) : list Effect :=
  [Event "REMOVED" (uuid alert)].

(** [AlertService._delete_on_dismiss] *)
Definition _delete_on_dismiss (alert : loc) (st : State) : State * list Effect :=
  let '(ls, removed) :=
    match remove_obj (heap st) (obj (heap st) alert) (alerts st) with
    | Some ls => (ls, true)
    | None => (alerts st, false)
    end in
  let h := heap st in
  let st := set_alerts ls st in
  let st :=
    set_policies
      (map (fun p => (fst p,
                      AlertPolicy.delete_alert (fun a => uuid (obj h a)) (snd p) alert))
           (policies st)) st in
  (st, if removed then _send_alert_deleted_event (obj h alert) else []).

(** The loop of [dismiss] over the related alerts, [left_alerts] being
    what the class's [dismiss] method returned. *)
Fixpoint dismiss_related (left_alerts : list Alert) (related_alerts : list loc)
    (st : State) : State * list Effect :=
  match related_alerts with
  | [] => (st, [])
  | deleted_alert :: related_alerts' =>
      if bool_decide (obj (heap st) deleted_alert ∈ left_alerts)
      then dismiss_related left_alerts related_alerts' st
      else
        let '(st, e) := _delete_on_dismiss deleted_alert st in
        let '(st, e') := dismiss_related left_alerts related_alerts' st in
        (st, e ++ e')
  end.

(** [AlertService.dismiss].  [dismissable klass] is
    [issubclass(klass, DismissableAlertClass)] and [dismiss_method] the
    [dismiss] method of such a class, which returns the alerts that are
    left. *)
Definition dismiss (dismissable : AlertClass -> bool)
    (dismiss_method : AlertClass -> list Alert -> Alert -> list Alert)
    (product_type : string) (classes : gmap string ClassConfig)
    (u : string) (st : State) : State * list Effect :=
  match alert_by_uuid u st with
  | None => (st, [])
  | Some l =>
      let alert := obj (heap st) l in
      if dismissable (klass alert) then
        let related_alerts :=
          List.filter
            (fun a => bool_decide ((node (obj (heap st) a), klass (obj (heap st) a))
                                   = (node alert, klass alert)))
            (alerts st) in
        let left_alerts :=
          dismiss_method (klass alert) (map (obj (heap st)) related_alerts) alert in
        dismiss_related left_alerts related_alerts st
      else if is_oneshot (klass alert) && negb (deleted_automatically (klass alert)) then
        _delete_on_dismiss l st
      else
        let st := update (set_dismissed true) l st in
        (st, _send_alert_changed_event product_type classes (obj (heap st) l))
  end.

(** [AlertService.restore] *)
Definition restore (product_type : string) (classes : gmap string ClassConfig)
    (u : string) (st : State) : State * list Effect :=
  match alert_by_uuid u st with
  | None => (st, [])
  | Some l =>
      let st := update (set_dismissed false) l st in
      (st, _send_alert_changed_event product_type classes (obj (heap st) l))
  end.

(** What [oneshot_delete] ends with: a [CallError], raised with the store
    as the classes before the offending one left it; the [ValueError] of
    removing an alert that the store does not hold; or its return, after
    [alert.flush_alerts] and [alert.send_alerts] were called if an alert
    was deleted. *)
Inductive DeleteResult :=
| DeleteCallError (msg : string) (st : State)
| DeleteValueError
| Deleted (st : State) (flush_and_send_called : bool).

(** The loop of [oneshot_delete] over the related alerts of one class:
    the alerts of the store that are left and the flag [deleted]. *)
Fixpoint remove_deleted (h : list Alert) (left_alerts : list Alert)
    (related_alerts ls : list loc) (deleted : bool) : option (list loc * bool) :=
  match related_alerts with
  | [] => Some (ls, deleted)
  | deleted_alert :: related_alerts' =>
      if bool_decide (obj h deleted_alert ∈ left_alerts)
      then remove_deleted h left_alerts related_alerts' ls deleted
      else
        match remove_obj h (obj h deleted_alert) ls with
        | None => None
        | Some ls => remove_deleted h left_alerts related_alerts' ls true
        end
  end.

(** The loop of [oneshot_delete] over the names of the classes;
    [delete_method] is the [delete] method of the one-shot classes, which
    returns the alerts that are left. *)
Fixpoint oneshot_delete_each {Query : Type} (class_by_name : gmap string AlertClass)
    (delete_method : AlertClass -> list Alert -> Query -> list Alert)
    (query : Query) (klasses : list string) (st : State) (deleted : bool)
    : DeleteResult :=
  match klasses with
  | [] => Deleted st deleted
  | klassname :: klasses' =>
      match class_by_name !! klassname with
      | None => DeleteCallError "Invalid alert source" st
      | Some cls =>
          if negb (is_oneshot cls)
          then DeleteCallError "Alert class is not a one-shot alert source" st
          else
            let related_alerts :=
              List.filter
                (fun a => bool_decide ((node (obj (heap st) a), klass (obj (heap st) a))
                                       = (Some (self_node st), cls)))
                (alerts st) in
            let left_alerts :=
              delete_method cls (map (obj (heap st)) related_alerts) query in
            match remove_deleted (heap st) left_alerts related_alerts (alerts st) deleted with
            | None => DeleteValueError
            | Some (ls, deleted) =>
                oneshot_delete_each class_by_name delete_method query klasses'
                                    (set_alerts ls st) deleted
            end
      end
  end.

(** [AlertService.oneshot_delete]; [klass] is the name of a class or a
    list of names. *)
Definition oneshot_delete {Query : Type} (class_by_name : gmap string AlertClass)
    (delete_method : AlertClass -> list Alert -> Query -> list Alert)
    (st : State) (klass : string + list string) (query : Query) : DeleteResult :=
  let klasses := match klass with inl k => [k] | inr ks => ks end in
  oneshot_delete_each class_by_name delete_method query klasses st false.

End Dismiss.

(** ** The categories of the alert classes *)

(** What [list_categories] reads of a class of [AlertClass.classes]:
    besides the attributes above, the name of its category (a member of
    the enum [AlertCategory]) and whether it supports proactive support. *)
Record ClassEntry := mkClassEntry {
  entry_class : AlertClass;
  category : string;
  proactive_support : bool;
}.

(** The dictionaries that [list_categories] returns. *)
Record CategoryClass := mkCategoryClass {
  class_id : string;
  class_title : string;
  class_level : string;
  class_proactive_support : bool;
}.

Record Category := mkCategory {
  category_id : string;
  category_title : string;
  category_classes : list CategoryClass;
}.

(** The dictionary of one class. *)
Definition category_class (alert_class : ClassEntry) : CategoryClass :=
  {| class_id := name (entry_class alert_class);
     class_title := title (entry_class alert_class);
     class_level := level_name (level (entry_class alert_class));
     class_proactive_support := proactive_support alert_class |}.

(** The entry of one category; [None] stands for the [KeyError] of a
    category that [alert_category_names] does not name. *)
Definition category_of (alert_category_names : list (string * string))
    (classes : list ClassEntry) (alert_category : string) : option Category :=
  name_of_category ← Dict.get alert_category_names alert_category;
  sorted_classes ←
    sorted (fun a b => Some (String.compare (class_title a) (class_title b)))
      (map category_class
           (List.filter (fun alert_class => String.eqb (category alert_class) alert_category)
                        classes));
  Some {| category_id := alert_category;
          category_title := name_of_category;
          category_classes := sorted_classes |}.

(** [AlertService.list_categories]; [AlertCategory] is the list of the
    names of the members of the enum, in its order. *)
Definition list_categories (AlertCategory : list string)
    (alert_category_names : list (string * string))
    (AlertClass_classes : list ClassEntry) (product_type : string)
    : option (list Category) :=
  let classes :=
    List.filter
      (fun alert_class =>
         bool_decide (product_type ∈ products (entry_class alert_class))
         && negb (exclude_from_list (entry_class alert_class)))
      AlertClass_classes in
  mapM (category_of alert_category_names classes)
       (List.filter
          (fun alert_category =>
             existsb (fun alert_class => String.eqb (category alert_class) alert_category)
                     classes)
          AlertCategory).

(** ** The rows of the alert services *)

(** [AlertServiceService._extend] on a row as a dictionary from the names
    of its columns; [titles] gives the title of the factory of every type
    of [ALERT_SERVICES_FACTORIES].  A row without a type, or of a type
    that is not registered, raises the [KeyError] that the method
    catches. *)
Definition _extend (titles : gmap string string) (service : list (string * string))
    : list (string * string) :=
  Dict.set service "type__title"
    (default "<Unknown>" (Dict.get service "type" ≫= fun type => titles !! type)).

(** [AlertServiceService._compress]; [None] stands for the [KeyError] of
    [service.pop("type__title")]. *)
Definition _compress (service : list (string * string))
    : option (list (string * string)) :=
  if Dict.mem "type__title" service then Some (Dict.pop service "type__title")
  else None.

(** ** What the run of a source leaves alone *)

(** The tables of the state that no alert is part of. *)
Definition tables `{PyNum} (st : State) :=
  (self_node st, policies st, alert_source_last_run st, blocked_sources st,
   sources_locks st, blocked_failover_alerts_until st, SEND_ALERTS_ON_READY st).

(** A reference that the run of the source [name] may assign through: to
    an object that the heap [h0] does not hold, or to one that has the
    source. *)
Definition of_source (name : string) (h0 : list Alert) (l : loc) : Prop :=
  length h0 <= l \/ source (obj h0 l) = Some name.

(** The objects of the heap [h0] are in the state and have their sources,
    the ones of another source than [name] are as they were, the store is
    [ls], whose references are to objects of [h0], and the tables are
    [t]. *)
Definition others_kept `{PyNum} (name : string) (h0 : list Alert) (ls : list loc)
    (t : string * list (string * AlertPolicy.t loc) * gmap string Z
         * gmap string (gset string) * list (string * (string * num)) * num * bool)
    (st : State) : Prop :=
  length h0 <= length (heap st) /\
  (forall l, l < length h0 ->
     source (obj (heap st) l) = source (obj h0 l) /\
     (source (obj h0 l) <> Some name -> obj (heap st) l = obj h0 l)) /\
  alerts st = ls /\ Forall (fun l => l < length h0) ls /\
  tables st = t.

(** ** What an alert service is sent *)

(** What is sent to a service of the type [type]: the service is one of
    the enabled ones, every alert is for the product and at or above the
    level of the service, the alerts of the store that it is told of are
    not of a class set to NEVER, and the gone and the new alerts are of
    classes whose policy is the policy [policy_name]. *)
Definition well_sent (env : SendEnv) (store : list Alert) (policy_name type : string)
    (a g n : list Alert) : Prop :=
  exists desc,
    In desc (alert_services env) /\ service_type desc = type /\
    Forall (fun alert =>
              In (send_product_type env) (products (klass alert)) /\
              (value (service_level desc)
               <= value (get_alert_level alert (classes env)))%Z) (a ++ g ++ n) /\
    Forall (fun alert => get_alert_policy alert (classes env) <> "NEVER") a /\
    Forall (fun alert => get_alert_policy alert (classes env) = policy_name) (g ++ n) /\
    (forall alert, In alert a -> In alert store).

(** ** More concrete data *)

Module Sample.

(** A state whose source disk is blocked by a lock that expires at 100,
    with no policy. *)
Definition locked_state : @State Example.Z_num :=
  @mkState Example.Z_num [Example.sda; Example.gone_c] "A" [0; 1] [] ∅
    {[ "disk" := {[ "lock" ]} ]} [("lock", ("disk", (100%Z : @num Example.Z_num)))]
    (0%Z : @num Example.Z_num) (@mkRunState Example.Z_num ∅ [] []) false.

(** A state whose store holds an alert of the source disk and one of the
    source smart, with no policy and no lock. *)
Definition mixed_state : @State Example.Z_num :=
  @mkState Example.Z_num [Example.sda; Example.new_a] "A" [0; 1] [] ∅ ∅ []
    (0%Z : @num Example.Z_num) (@mkRunState Example.Z_num ∅ [] []) false.

End Sample.

(** * Properties *)

(** ** Dictionaries *)

Section DictFacts.
Context {K V : Type} `{EqDecision K}.
Implicit Types (d : list (K * V)) (k : K) (v : V).

Lemma Dict_mem_keys k d : Dict.mem k d = true <-> In k (Dict.keys d).
Proof.
  unfold Dict.mem, Dict.keys.
  induction d as [|[k' v'] d IH]; simpl.
  - split; [discriminate | tauto].
  - destruct (decide (k = k')) as [->|Hne].
    + split; auto.
    + rewrite IH. split; [tauto | intros [Heq|Hin]; [congruence | exact Hin]].
Qed.

Lemma Dict_mem_false k d : Dict.mem k d = false <-> ~ In k (Dict.keys d).
Proof.
  rewrite <- Dict_mem_keys. destruct (Dict.mem k d); split; congruence.
Qed.

Lemma Dict_keys_set d k v k' :
  In k' (Dict.keys (Dict.set d k v)) <-> k' = k \/ In k' (Dict.keys d).
Proof.
  unfold Dict.keys. induction d as [|[k0 v0] d IH]; simpl.
  - split; [intros [<-|[]]; auto | intros [->|[]]; auto].
  - destruct (decide (k = k0)) as [->|Hne]; simpl.
    + split; [intros [<-|Hin]; auto | intros [->|[<-|Hin]]; auto].
    + rewrite IH. split; [intros [<-|[->|Hin]]; auto | intros [->|[<-|Hin]]; auto].
Qed.

Lemma Dict_In_set d k v k' v' :
  In (k', v') (Dict.set d k v) -> (k' = k /\ v' = v) \/ In (k', v') d.
Proof.
  induction d as [|[k0 v0] d IH]; simpl.
  - intros [[= <- <-]|[]]. auto.
  - destruct (decide (k = k0)) as [->|Hne]; simpl.
    + intros [[= <- <-]|Hin]; auto.
    + intros [Heq|Hin]; auto. destruct (IH Hin); auto.
Qed.

Lemma Dict_set_fresh d k v :
  ~ In k (Dict.keys d) -> Dict.set d k v = d ++ [(k, v)].
Proof.
  unfold Dict.keys. induction d as [|[k0 v0] d IH]; simpl; intros Hnin.
  - reflexivity.
  - destruct (decide (k = k0)) as [->|Hne]; [tauto|].
    rewrite IH; [reflexivity | tauto].
Qed.

Lemma Dict_keys_of_list_from (kvs : list (K * V)) d k :
  In k (Dict.keys (fold_left (fun d kv => Dict.set d (fst kv) (snd kv)) kvs d))
  <-> In k (Dict.keys d) \/ In k (map fst kvs).
Proof.
  revert d. induction kvs as [|[k0 v0] kvs IH]; intros d; simpl.
  - tauto.
  - rewrite IH, Dict_keys_set. intuition.
Qed.

Lemma Dict_keys_of_list (kvs : list (K * V)) k :
  In k (Dict.keys (Dict.of_list kvs)) <-> In k (map fst kvs).
Proof.
  unfold Dict.of_list. rewrite Dict_keys_of_list_from. simpl. tauto.
Qed.

Lemma Dict_In_of_list_from (kvs : list (K * V)) d k v :
  In (k, v) (fold_left (fun d kv => Dict.set d (fst kv) (snd kv)) kvs d) ->
  In (k, v) d \/ In (k, v) kvs.
Proof.
  revert d. induction kvs as [|[k0 v0] kvs IH]; intros d; simpl.
  - auto.
  - intros Hin. destruct (IH _ Hin) as [Hd|Hk]; auto.
    destruct (Dict_In_set _ _ _ _ _ Hd) as [[-> ->]|Hd']; auto.
Qed.

Lemma Dict_In_of_list (kvs : list (K * V)) k v :
  In (k, v) (Dict.of_list kvs) -> In (k, v) kvs.
Proof.
  intros Hin. destruct (Dict_In_of_list_from _ _ _ _ Hin) as [[]|Hk]. exact Hk.
Qed.

Lemma Dict_of_list_NoDup_from (kvs : list (K * V)) d :
  List.NoDup (Dict.keys d ++ map fst kvs) ->
  fold_left (fun d kv => Dict.set d (fst kv) (snd kv)) kvs d = d ++ kvs.
Proof.
  revert d. induction kvs as [|[k0 v0] kvs IH]; intros d Hnd; simpl.
  - now rewrite app_nil_r.
  - simpl in Hnd. rewrite Dict_set_fresh.
    + rewrite IH.
      * now rewrite <- app_assoc.
      * unfold Dict.keys in *. rewrite map_app. simpl.
        rewrite <- app_assoc. exact Hnd.
    + apply NoDup_remove_2 in Hnd. intros Hin. apply Hnd.
      apply in_or_app. auto.
Qed.

Lemma Dict_of_list_NoDup (kvs : list (K * V)) :
  List.NoDup (map fst kvs) -> Dict.of_list kvs = kvs.
Proof.
  intros Hnd. unfold Dict.of_list. now rewrite Dict_of_list_NoDup_from.
Qed.

End DictFacts.

(** ** The policy diff *)

Section PolicyFacts.
Context {T : Type} (uuid_of : T -> Uuid).

Lemma keyed_fst (cur : list T) :
  map fst (map (fun a => (uuid_of a, a)) cur) = map uuid_of cur.
Proof. rewrite List.map_map. reflexivity. Qed.

Lemma keyed_snd (cur : list T) :
  map snd (map (fun a => (uuid_of a, a)) cur) = cur.
Proof. rewrite List.map_map. simpl. apply List.map_id. Qed.

Lemma keyed_In (cur : list T) u a :
  In (u, a) (Dict.of_list (map (fun a => (uuid_of a, a)) cur)) ->
  u = uuid_of a /\ In a cur.
Proof.
  intros Hin. apply Dict_In_of_list in Hin.
  apply in_map_iff in Hin as [a' [[= <- <-] Hin]]. auto.
Qed.

Lemma keyed_keys (cur : list T) u :
  In u (Dict.keys (Dict.of_list (map (fun a => (uuid_of a, a)) cur)))
  <-> In u (map uuid_of cur).
Proof. rewrite Dict_keys_of_list, keyed_fst. reflexivity. Qed.

(** C3: a call of [receive_alerts] in the bucket of the previous call
    returns no gone and no new alert and leaves the policy as it is.  In
    another bucket, the gone alerts are the tracked alerts whose
    identifier no current alert has, the new alerts are current alerts
    whose identifier is not tracked, one for every such identifier (all of
    them when no two current alerts share an identifier), and the policy
    then tracks the new bucket and the current alerts, by identifier. *)
Theorem receive_alerts_throttling (p : AlertPolicy.t T) (now : DateTime) (cur : list T) :
  let tracked := AlertPolicy.last_key_value_alerts p in
  let absent := fun a => negb (Dict.mem (uuid_of a) tracked) in
  let '(p', (gone, new)) := AlertPolicy.receive_alerts uuid_of p now cur in
  if KeyValue_eqb (AlertPolicy.key p now) (AlertPolicy.last_key_value p) then
    gone = [] /\ new = [] /\ p' = p
  else
    (forall a, In a gone <->
               In a (Dict.values tracked) /\ ~ In (uuid_of a) (map uuid_of cur)) /\
    (forall a, In a new -> In a cur /\ ~ In (uuid_of a) (Dict.keys tracked)) /\
    (forall a, In a cur -> ~ In (uuid_of a) (Dict.keys tracked) ->
               exists a', In a' new /\ uuid_of a' = uuid_of a) /\
    (List.NoDup (map uuid_of cur) ->
       new = List.filter absent cur /\
       Dict.values (AlertPolicy.last_key_value_alerts p') = cur) /\
    AlertPolicy.key p' = AlertPolicy.key p /\
    AlertPolicy.last_key_value p' = AlertPolicy.key p now /\
    (forall u, In u (Dict.keys (AlertPolicy.last_key_value_alerts p')) <->
               In u (map uuid_of cur)) /\
    (forall a, In a (Dict.values (AlertPolicy.last_key_value_alerts p')) -> In a cur).
Proof.
  unfold AlertPolicy.receive_alerts.
  destruct (KeyValue_eqb (AlertPolicy.key p now) (AlertPolicy.last_key_value p)); simpl.
  { auto. }
  split; [|split; [|split; [|split; [|split; [|split; [|split]]]]]].
  - intros a. rewrite filter_In, negb_true_iff, Dict_mem_false, keyed_keys.
    reflexivity.
  - intros a Hin. apply filter_In in Hin as [Hin Hm].
    apply negb_true_iff, Dict_mem_false in Hm. split; [|exact Hm].
    apply in_map_iff in Hin as [[u a'] [Heq Hin]]. simpl in Heq. subst a'.
    apply keyed_In in Hin. tauto.
  - intros a Hin Hn.
    assert (Hk : In (uuid_of a)
                   (Dict.keys (Dict.of_list (map (fun a => (uuid_of a, a)) cur)))).
    { apply keyed_keys, in_map, Hin. }
    apply in_map_iff in Hk as [[u a'] [Heq Hk]]. simpl in Heq. subst u.
    destruct (keyed_In _ _ _ Hk) as [Hu Hcur].
    exists a'. split; [|congruence].
    apply filter_In. split.
    + apply in_map_iff. exists (uuid_of a, a'). auto.
    + apply negb_true_iff, Dict_mem_false. congruence.
  - intros Hnd.
    rewrite Dict_of_list_NoDup by (rewrite keyed_fst; exact Hnd).
    unfold Dict.values. rewrite keyed_snd. auto.
  - reflexivity.
  - reflexivity.
  - intros u. apply keyed_keys.
  - intros a Hin. apply in_map_iff in Hin as [[u a'] [Heq Hin]]. simpl in Heq. subst a'.
    apply keyed_In in Hin. tauto.
Qed.

End PolicyFacts.

(** The policy NEVER, whose bucket is the constant [None], reports
    nothing and tracks nothing, from its creation on. *)
Lemma never_policy_silent {T : Type} (uuid_of : T -> Uuid) (now : DateTime) (cur : list T) :
  AlertPolicy.receive_alerts uuid_of (AlertPolicy.init (fun _ => KNone)) now cur
  = (AlertPolicy.init (fun _ => KNone), ([], [])).
Proof. reflexivity. Qed.

(** The policy HOURLY reports nothing at a second call in the hour of the
    first. *)
Lemma hourly_policy_same_hour {T : Type} (uuid_of : T -> Uuid) (p : AlertPolicy.t T)
    (t1 t2 : DateTime) (cur1 cur2 : list T) :
  AlertPolicy.key p = (fun d => KHour (date d) (hour d)) ->
  date t1 = date t2 -> hour t1 = hour t2 ->
  let p1 := fst (AlertPolicy.receive_alerts uuid_of p t1 cur1) in
  AlertPolicy.receive_alerts uuid_of p1 t2 cur2 = (p1, ([], [])).
Proof.
  intros Hkey Hd Hh p1.
  assert (Hlast : KeyValue_eqb (AlertPolicy.key p1 t2) (AlertPolicy.last_key_value p1) = true).
  { subst p1. unfold AlertPolicy.receive_alerts.
    destruct (KeyValue_eqb (AlertPolicy.key p t1) (AlertPolicy.last_key_value p)) eqn:Hsame;
      simpl.
    - rewrite Hkey in *. rewrite <- Hd, <- Hh. exact Hsame.
    - rewrite Hkey. simpl. rewrite Hd, Hh, !Z.eqb_refl. reflexivity. }
  unfold AlertPolicy.receive_alerts at 1. rewrite Hlast. reflexivity.
Qed.

(** The hourly policy: within the hour of the previous call nothing is
    reported although the alerts have changed; in the next hour the
    difference is. *)
Lemma receive_alerts_throttling_witness :
  AlertPolicy.receive_alerts uuid Example.hourly_seen (naive 93599999999)
    [Example.gone_c] = (Example.hourly_seen, ([], [])) /\
  (forall a,
     In a (snd (snd (AlertPolicy.receive_alerts uuid Example.hourly_seen
                       (naive 93600000000) [Example.gone_c])))
     <-> a = Example.gone_c).
Proof.
  split.
  - pose proof (receive_alerts_throttling uuid Example.hourly_seen (naive 93599999999)
                  [Example.gone_c]) as Hsame.
    destruct (AlertPolicy.receive_alerts uuid Example.hourly_seen (naive 93599999999)
                [Example.gone_c]) as [p' [gone new]].
    cbv zeta in Hsame.
    replace (KeyValue_eqb _ _) with true in Hsame by (vm_compute; reflexivity).
    destruct Hsame as (-> & -> & ->). reflexivity.
  - pose proof (receive_alerts_throttling uuid Example.hourly_seen (naive 93600000000)
                  [Example.gone_c]) as Hnext.
    destruct (AlertPolicy.receive_alerts uuid Example.hourly_seen (naive 93600000000)
                [Example.gone_c]) as [p' [gone new]].
    cbv zeta in Hnext.
    replace (KeyValue_eqb _ _) with false in Hnext by (vm_compute; reflexivity).
    destruct Hnext as (_ & _ & _ & Hexact & _).
    destruct Hexact as [-> _]; [repeat constructor; simpl; tauto|].
    intros a. simpl. vm_compute. intuition.
Defined.

(** ** Reconciliation *)

Lemma find_first {A : Type} (f : A -> bool) (l : list A) (x : A) :
  List.find f l = Some x ->
  exists l1 l2, l = l1 ++ x :: l2 /\ f x = true /\ forall y, In y l1 -> f y = false.
Proof.
  induction l as [|y l IH]; simpl; [discriminate|].
  destruct (f y) eqn:Hy.
  - intros [= ->]. exists [], l. simpl. tauto.
  - intros Hf. destruct (IH Hf) as (l1 & l2 & -> & Hx & Hl1).
    exists (y :: l1), l2. simpl. split; [reflexivity|]. split; [exact Hx|].
    intros z [<-|Hz]; auto.
Qed.

Lemma same_alert_spec (a alert : Alert) :
  same_alert a alert = true <->
  node a = node alert /\ source a = source alert /\
  klass a = klass alert /\ key a = key alert.
Proof.
  unfold same_alert. rewrite bool_decide_eq_true.
  split; [intros [= -> -> -> ->]; auto | intros (-> & -> & -> & ->); reflexivity].
Qed.

Lemma to_naive_utc_naive (d : DateTime) :
  to_naive_utc d = naive (wall d - default 0 (tzinfo d))%Z.
Proof.
  unfold to_naive_utc. destruct d as [w [off|]]; simpl; [reflexivity|].
  unfold naive. f_equal. lia.
Qed.

(** C1: [__handle_alert] keeps the node, source, class, key and arguments
    of the alert and sets its last occurrence to now.  If the store has an
    alert of the same (node, source, class, key), the alert gets the
    identifier, the dismissed flag and the first-seen timestamp of the
    first such alert of the store.  If it has none, the alert gets the
    fresh identifier, is not dismissed, and its first-seen timestamp is
    the one of the check, or now, as a naive UTC instant. *)
Theorem handle_alert_preserves_identity
    (alerts : list Alert) (inp : HandleInput) (alert : Alert) :
  let r := handle_alert alerts inp alert in
  let same := fun e : Alert =>
    node e = node alert /\ source e = source alert /\
    klass e = klass alert /\ key e = key alert in
  (node r = node alert /\ source r = source alert /\ klass r = klass alert /\
   key r = key alert /\ args r = args alert /\ mail r = mail alert) /\
  last_occurrence r = Some (utcnow_last_occurrence inp) /\
  ((exists e, In e alerts /\ same e) ->
   exists before e after,
     alerts = before ++ e :: after /\ same e /\
     (forall e', In e' before -> ~ same e') /\
     uuid r = uuid e /\ dismissed r = dismissed e /\ datetime r = datetime e) /\
  ((forall e, In e alerts -> ~ same e) ->
   uuid r = Some (new_uuid inp) /\ dismissed r = false /\
   exists d,
     datetime r = Some d /\ tzinfo d = None /\
     match datetime alert with
     | Some seen => wall d = (wall seen - default 0 (tzinfo seen))%Z
     | None => wall d = utcnow_first_seen inp
     end).
Proof.
  intros r same. subst r. unfold handle_alert.
  destruct (List.find (fun a => same_alert a alert) alerts) as [e|] eqn:Hfind; simpl.
  - split; [tauto|]. split; [reflexivity|]. split.
    + intros _. destruct (find_first _ _ _ Hfind) as (l1 & l2 & Heq & He & Hl1).
      exists l1, e, l2. split; [exact Heq|]. split; [apply same_alert_spec, He|].
      split; [|auto].
      intros e' Hin Hs. apply same_alert_spec in Hs.
      rewrite (Hl1 e' Hin) in Hs. discriminate.
    + intros Hnone. exfalso. apply find_some in Hfind as [Hin He].
      apply (Hnone e Hin), same_alert_spec, He.
  - split; [tauto|]. split; [reflexivity|]. split.
    + intros (e & Hin & Hs). exfalso.
      apply same_alert_spec in Hs.
      pose proof (find_none _ _ Hfind e Hin) as Hf. simpl in Hf.
      rewrite Hs in Hf. discriminate.
    + intros _. split; [reflexivity|]. split; [reflexivity|].
      eexists. split; [reflexivity|].
      rewrite to_naive_utc_naive. simpl. split; [reflexivity|].
      destruct (datetime alert) as [seen|]; simpl; [reflexivity|lia].
Qed.

(** The identity of a known alert is kept: the dismissed alert of node A,
    source disk, class DiskFail and key sda keeps its identifier and its
    first-seen timestamp; an unknown alert gets a new identity. *)
Lemma handle_alert_preserves_identity_witness :
  (uuid (handle_alert [Example.sda] Example.input Example.sda_seen) = Some "U" /\
   dismissed (handle_alert [Example.sda] Example.input Example.sda_seen) = true /\
   datetime (handle_alert [Example.sda] Example.input Example.sda_seen)
   = Some (naive 1000)) /\
  (uuid (handle_alert [Example.sda] Example.input Example.sdb_seen) = Some "V" /\
   dismissed (handle_alert [Example.sda] Example.input Example.sdb_seen) = false).
Proof.
  pose proof (handle_alert_preserves_identity [Example.sda] Example.input Example.sda_seen)
    as (_ & _ & Hold & _).
  pose proof (handle_alert_preserves_identity [Example.sda] Example.input Example.sdb_seen)
    as (_ & _ & _ & Hnew).
  split.
  - destruct Hold as (before & e & after & Heq & _ & _ & Hu & Hd & Ht).
    { exists Example.sda. simpl. auto. }
    destruct before as [|x before]; simpl in Heq.
    + injection Heq as <- _. rewrite Hu, Hd, Ht. auto.
    + injection Heq as _ Heq. destruct before; discriminate.
  - destruct Hnew as (Hu & Hd & _).
    { intros e [<-|[]] (_ & _ & _ & Hk). discriminate. }
    auto.
Defined.

(** ** Churn cancellation *)

Section RemoveFacts.
Context {A : Type} `{EqDecision A}.
Implicit Types (x y : A) (l : list A).

Lemma list_remove_In x l : In x l -> exists l', list_remove x l = Some l'.
Proof.
  induction l as [|y l IH]; simpl; [tauto|].
  intros Hin. destruct (decide (x = y)) as [->|Hne]; [eauto|].
  destruct IH as [l' ->]; [destruct Hin; congruence|]. simpl. eauto.
Qed.

Lemma list_remove_app_notin x l1 l2 :
  ~ In x l1 -> list_remove x (l1 ++ x :: l2) = Some (l1 ++ l2).
Proof.
  induction l1 as [|y l1 IH]; simpl; intros Hnin.
  - destruct (decide (x = x)); [reflexivity|congruence].
  - destruct (decide (x = y)) as [->|Hne]; [tauto|].
    rewrite IH by tauto. reflexivity.
Qed.

Lemma list_remove_split x l l' :
  list_remove x l = Some l' ->
  exists l1 l2, l = l1 ++ x :: l2 /\ l' = l1 ++ l2 /\ ~ In x l1.
Proof.
  revert l'. induction l as [|y l IH]; simpl; intros l'; [discriminate|].
  destruct (decide (x = y)) as [->|Hne].
  - intros [= <-]. exists [], l. simpl. tauto.
  - destruct (list_remove x l) as [r|] eqn:Hr; simpl; [|discriminate].
    intros [= <-]. destruct (IH r eq_refl) as (l1 & l2 & -> & -> & Hnin).
    exists (y :: l1), l2. simpl. split; [reflexivity|]. split; [reflexivity|].
    intros [Heq|Hin]; [congruence|tauto].
Qed.

Lemma list_remove_incl x l l' y : list_remove x l = Some l' -> In y l' -> In y l.
Proof.
  intros Hr Hin. destruct (list_remove_split _ _ _ Hr) as (l1 & l2 & -> & -> & _).
  apply in_app_or in Hin. apply in_or_app. simpl. tauto.
Qed.

Lemma list_remove_length x l l' :
  list_remove x l = Some l' -> length l = S (length l').
Proof.
  intros Hr. destruct (list_remove_split _ _ _ Hr) as (l1 & l2 & -> & -> & _).
  rewrite !length_app. simpl. lia.
Qed.

Lemma list_remove_sublist x l l' : list_remove x l = Some l' -> sublist l' l.
Proof.
  intros Hr. destruct (list_remove_split _ _ _ Hr) as (l1 & l2 & -> & -> & _).
  apply sublist_app; [reflexivity|]. apply sublist_cons. reflexivity.
Qed.

End RemoveFacts.


Lemma find_none_iff {A : Type} (f : A -> bool) (l : list A) :
  List.find f l = None <-> forall x, In x l -> f x = false.
Proof.
  split; [apply find_none|].
  induction l as [|y l IH]; simpl; intros Hall; [reflexivity|].
  rewrite (Hall y) by auto. apply IH. auto.
Qed.

(** The loop of [send_alerts] never fails to remove, and computes
    [cancel_pairs]. *)
Lemma cancel_churn_from (todo kept new : list Alert) :
  (forall g, In g kept -> List.find (same_class_key g) new = None) ->
  cancel_churn todo (kept ++ todo) new
  = Some (kept ++ fst (cancel_pairs todo new), snd (cancel_pairs todo new)).
Proof.
  revert kept new. induction todo as [|g todo IH]; intros kept new Hkept; simpl.
  - reflexivity.
  - destruct (List.find (same_class_key g) new) as [n|] eqn:Hfind.
    + assert (Hg : ~ In g kept).
      { intros Hin. rewrite (Hkept g Hin) in Hfind. discriminate. }
      rewrite (list_remove_app_notin g kept todo Hg). simpl.
      apply find_some in Hfind as [Hn _].
      destruct (list_remove_In n new Hn) as [new' Hnew']. rewrite Hnew'. simpl.
      apply IH. intros g' Hin. apply find_none_iff. intros x Hx.
      apply (proj1 (find_none_iff _ _) (Hkept g' Hin)).
      eapply list_remove_incl; eauto.
    + replace (kept ++ g :: todo) with ((kept ++ [g]) ++ todo)
        by (rewrite <- app_assoc; reflexivity).
      rewrite IH.
      * destruct (cancel_pairs todo new) as [gs ns]. simpl.
        rewrite <- app_assoc. reflexivity.
      * intros g' Hin. apply in_app_or in Hin as [Hin|[<-|[]]]; auto.
Qed.

Lemma cancel_churn_pairs (gone new : list Alert) :
  cancel_churn gone gone new = Some (cancel_pairs gone new).
Proof.
  pose proof (cancel_churn_from gone [] new) as Hc. simpl in Hc.
  rewrite Hc by (intros g []).
  destruct (cancel_pairs gone new); reflexivity.
Qed.

Lemma cancel_pairs_sublist (gone new : list Alert) :
  sublist (fst (cancel_pairs gone new)) gone /\
  sublist (snd (cancel_pairs gone new)) new /\
  length (fst (cancel_pairs gone new)) + length new
  = length gone + length (snd (cancel_pairs gone new)).
Proof.
  revert new. induction gone as [|g gone IH]; intros new; simpl.
  - split; [reflexivity|]. split; [reflexivity|lia].
  - destruct (List.find (same_class_key g) new) as [n|] eqn:Hfind.
    + apply find_some in Hfind as [Hn _].
      destruct (list_remove_In n new Hn) as [new' Hnew']. rewrite Hnew'. simpl.
      destruct (IH new') as (Hg & Hs & Hlen).
      split; [apply sublist_cons, Hg|].
      split; [etransitivity; [exact Hs | eapply list_remove_sublist; eauto]|].
      rewrite (list_remove_length _ _ _ Hnew'). lia.
    + destruct (IH new) as (Hg & Hs & Hlen).
      destruct (cancel_pairs gone new) as [gs ns]. simpl in *.
      split; [apply sublist_skip, Hg|]. split; [exact Hs|lia].
Qed.

Lemma sublist_In {A : Type} (l1 l2 : list A) (x : A) :
  sublist l1 l2 -> In x l1 -> In x l2.
Proof.
  intros Hs Hin. apply list_elem_of_In. eapply sublist_subseteq; [exact Hs|].
  apply list_elem_of_In, Hin.
Qed.


Lemma NoDup_map_sublist {A B : Type} (f : A -> B) (l1 l2 : list A) :
  sublist l1 l2 -> List.NoDup (map f l2) -> List.NoDup (map f l1).
Proof.
  intros Hs Hnd. apply NoDup_ListNoDup. apply NoDup_ListNoDup in Hnd.
  eapply sublist_NoDup; [exact Hnd|]. apply (fmap_sublist f), Hs.
Qed.


(** ** Notifying one alert service *)

Lemma undismissed_spec (l : list Alert) :
  Forall (fun alert => dismissed alert = false) (undismissed l).
Proof.
  apply List.Forall_forall. intros a Hin. unfold undismissed in Hin.
  apply filter_In in Hin as [_ Hd]. apply negb_true_iff, Hd.
Qed.

Lemma undismissed_incl (l : list Alert) (a : Alert) :
  In a (undismissed l) -> In a l.
Proof. unfold undismissed. intros Hin. apply filter_In in Hin. tauto. Qed.

(** What [notify_service] returns, in terms of the alerts that the
    cancellation leaves. *)
Lemma notify_service_unfold product_type classes factories policy_name
    alerts gone_alerts new_alerts desc :
  let left := cancel_pairs
    (service_changes_of product_type classes desc policy_name gone_alerts)
    (service_changes_of product_type classes desc policy_name new_alerts) in
  notify_service product_type classes factories policy_name
    alerts gone_alerts new_alerts desc
  = Some
      match fst left, snd left with
      | [], [] => NothingChanged
      | _, _ =>
          match factories !! service_type desc with
          | None => UnknownService
          | Some factory =>
              match factory (service_attributes desc) with
              | None => CreationFailed
              | Some alert_service =>
                  match undismissed (service_alerts_of product_type classes desc alerts),
                        undismissed (fst left), undismissed (snd left) with
                  | [], [], [] => NothingToSend
                  | a, g, n => Sent a g n (alert_service a g n)
                  end
              end
          end
      end.
Proof.
  intros left. unfold notify_service. rewrite cancel_churn_pairs. simpl.
  fold left. destruct left as [g n]. simpl.
  destruct g, n; try reflexivity;
    destruct (factories !! service_type desc) as [factory|]; try reflexivity;
    destruct (factory (service_attributes desc)) as [alert_service|]; try reflexivity;
    destruct (undismissed _), (undismissed _), (undismissed _); reflexivity.
Qed.




(** Closes a goal about one shape of the outcome. *)
Ltac skip_case :=
  repeat match goal with
         | |- _ /\ _ => split
         | |- _ <-> _ => split
         | |- forall _, _ => intro; cbv zeta in *
         | H : _ /\ _ |- _ => destruct H
         | H : exists _, _ |- _ => destruct H
         | H : _ \/ _ |- _ => destruct H
         | H : Some _ = Some _ |- _ => injection H as H; subst
         | H : Sent _ _ _ _ = Sent _ _ _ _ |- _ => injection H as ? ? ? ?; subst
         end;
  try discriminate; try congruence; try reflexivity; eauto;
  try (left; discriminate); try (right; discriminate);
  try (right; left; discriminate); try (right; right; discriminate).

(** C7, as the code has it: the pass over a service never fails.  The
    service is passed over before its backend is looked up exactly when
    the cancellation leaves no gone and no new alert, whatever alerts of
    the store the service would be told of.  Otherwise the backend is
    constructed, unless its type is unknown or its construction raises,
    and a backend that was constructed is not invoked exactly when,
    without the dismissed alerts, all three lists are empty. *)
Theorem service_skip_condition product_type classes factories policy_name
    alerts gone_alerts new_alerts desc :
  let left := cancel_pairs
    (service_changes_of product_type classes desc policy_name gone_alerts)
    (service_changes_of product_type classes desc policy_name new_alerts) in
  let told := service_alerts_of product_type classes desc alerts in
  exists outcome,
    notify_service product_type classes factories policy_name
      alerts gone_alerts new_alerts desc = Some outcome /\
    (outcome = NothingChanged <-> fst left = [] /\ snd left = []) /\
    (outcome = UnknownService <->
     (fst left <> [] \/ snd left <> []) /\ factories !! service_type desc = None) /\
    (outcome = CreationFailed <->
     (fst left <> [] \/ snd left <> []) /\
     exists factory,
       factories !! service_type desc = Some factory /\
       factory (service_attributes desc) = None) /\
    (outcome = NothingToSend <->
     (fst left <> [] \/ snd left <> []) /\
     (exists factory alert_service,
        factories !! service_type desc = Some factory /\
        factory (service_attributes desc) = Some alert_service) /\
     undismissed told = [] /\ undismissed (fst left) = [] /\
     undismissed (snd left) = []) /\
    (forall a g n raised,
       outcome = Sent a g n raised ->
       a = undismissed told /\ g = undismissed (fst left) /\
       n = undismissed (snd left) /\ (a <> [] \/ g <> [] \/ n <> [])).
Proof.
  intros left told. rewrite notify_service_unfold. fold left told.
  eexists. split; [reflexivity|].
  generalize (undismissed told), (undismissed (fst left)), (undismissed (snd left)).
  intros ut ug un.
  destruct (factories !! service_type desc) as [factory|] eqn:Hf;
    [destruct (factory (service_attributes desc)) as [alert_service|] eqn:Hs|];
    destruct (fst left) as [|g0 g], (snd left) as [|n0 n];
    destruct ut as [|t0 t], ug as [|u0 u], un as [|v0 v];
    skip_case.
Qed.

(** A service that would be told of an alert of the store is passed over
    when no alert is gone or new. *)
Lemma service_skipped_with_alerts :
  notify_service "SCALE" ∅ Example.factories "IMMEDIATELY"
    [Example.gone_c] [] [] Example.mail_service = Some NothingChanged /\
  service_alerts_of "SCALE" ∅ Example.mail_service [Example.gone_c] = [Example.gone_c] /\
  service_changes_of "SCALE" ∅ Example.mail_service "IMMEDIATELY" [] = [].
Proof. vm_compute. auto. Qed.

Lemma service_skip_condition_witness :
  notify_service "SCALE" ∅ Example.factories "IMMEDIATELY" [Example.new_a]
    [Example.gone_a; Example.gone_c] [Example.new_a] Example.mail_service
  <> Some NothingChanged.
Proof.
  destruct (service_skip_condition "SCALE" ∅ Example.factories "IMMEDIATELY"
              [Example.new_a] [Example.gone_a; Example.gone_c] [Example.new_a]
              Example.mail_service) as (outcome & Hout & Hskip & _).
  rewrite Hout. intros [= ->].
  destruct (proj1 Hskip eq_refl) as [Hgone _]. vm_compute in Hgone. discriminate.
Defined.

(** ** The dispatch pass *)

Lemma notify_service_sent product_type classes factories policy_name
    alerts gone_alerts new_alerts desc a g n raised :
  notify_service product_type classes factories policy_name
    alerts gone_alerts new_alerts desc = Some (Sent a g n raised) ->
  Forall (fun alert => dismissed alert = false) (a ++ g ++ n).
Proof.
  rewrite notify_service_unfold.
  set (left := cancel_pairs _ _).
  pose proof (undismissed_spec (service_alerts_of product_type classes desc alerts)) as Ha.
  pose proof (undismissed_spec (fst left)) as Hg.
  pose proof (undismissed_spec (snd left)) as Hn.
  revert Ha Hg Hn.
  generalize (undismissed (service_alerts_of product_type classes desc alerts)),
             (undismissed (fst left)), (undismissed (snd left)).
  intros ua ug un Ha Hg Hn [= Hout].
  rewrite !Forall_app.
  destruct (fst left), (snd left);
    try discriminate;
    (destruct (factories !! service_type desc) as [factory|]; [|discriminate]);
    (destruct (factory (service_attributes desc)) as [alert_service|]; [|discriminate]);
    destruct ua, ug, un; try discriminate;
    injection Hout as <- <- <- _; auto.
Qed.

Lemma notify_services_sent (env : SendEnv) policy_name alerts gone_alerts new_alerts
    descs effects entries type a g n :
  notify_services env policy_name alerts gone_alerts new_alerts descs
  = Some (effects, entries) ->
  In (Send type a g n) effects ->
  Forall (fun alert => dismissed alert = false) (a ++ g ++ n).
Proof.
  revert effects entries. induction descs as [|desc descs IH]; simpl; intros effects entries.
  - intros [= <- <-] [].
  - destruct (notify_service _ _ _ _ _ _ _ desc) as [o|] eqn:Ho; simpl; [|discriminate].
    destruct (notify_services _ _ _ _ _ descs) as [[effects' entries']|]; simpl;
      [|discriminate].
    destruct (outcome_effects desc o) as [e l] eqn:He.
    intros [= <- <-] Hin. apply in_app_or in Hin as [Hin|Hin]; [|eauto].
    destruct o; simpl in He; injection He as <- <-; simpl in Hin; try tauto.
    destruct Hin as [[= <- <- <- <-]|[]].
    eapply notify_service_sent, Ho.
Qed.

Lemma immediate_effects_not_send (env : SendEnv) gone_alerts new_alerts type a g n :
  ~ In (Send type a g n) (immediate_effects env gone_alerts new_alerts).
Proof.
  unfold immediate_effects. intros Hin.
  apply in_app_or in Hin as [Hin|Hin]; [|apply in_app_or in Hin as [Hin|Hin]].
  - apply in_map_iff in Hin as (? & [=] & _).
  - apply in_map_iff in Hin as (? & [=] & _).
  - apply list_elem_of_In, list_elem_of_omap in Hin as (x & _ & Hx).
    destruct (mail x); discriminate.
Qed.

Lemma send_policies_sent (env : SendEnv) h store todo policies effects entries
    type a g n :
  send_policies env h store todo = Some (policies, effects, entries) ->
  In (Send type a g n) effects ->
  Forall (fun alert => dismissed alert = false) (a ++ g ++ n).
Proof.
  revert policies effects entries.
  induction todo as [|[policy_name policy] todo IH]; simpl; intros policies effects entries.
  - intros [= <- <- <-] [].
  - destruct (AlertPolicy.receive_alerts _ policy _ store) as [policy' [gone new]].
    destruct (notify_services _ _ _ _ _ _) as [[effects1 entries1]|] eqn:Hn; simpl;
      [|discriminate].
    destruct (send_policies env h store todo) as [[[policies' effects2] entries2]|];
      simpl; [|discriminate].
    intros [= <- <- <-] Hin.
    apply in_app_or in Hin as [Hin|Hin]; [eapply notify_services_sent; eauto|].
    apply in_app_or in Hin as [Hin|Hin]; [|eauto].
    destruct (String.eqb policy_name "IMMEDIATELY"); [|destruct Hin].
    exfalso. eapply immediate_effects_not_send, Hin.
Qed.

Lemma notify_services_total (env : SendEnv) policy_name alerts gone_alerts new_alerts descs :
  exists r, notify_services env policy_name alerts gone_alerts new_alerts descs = Some r.
Proof.
  induction descs as [|desc descs IH]; simpl; [eauto|].
  rewrite notify_service_unfold. simpl.
  destruct IH as [[effects entries] ->]. simpl.
  destruct (outcome_effects desc _). eauto.
Qed.

Lemma send_policies_total (env : SendEnv) h store todo :
  exists r, send_policies env h store todo = Some r.
Proof.
  induction todo as [|[policy_name policy] todo IH]; simpl; [eauto|].
  destruct (AlertPolicy.receive_alerts _ policy _ store) as [policy' [gone new]].
  destruct (notify_services_total env policy_name (map (obj h) store)
              (map (obj h) gone) (map (obj h) new) (alert_services env))
    as [[effects entries] ->].
  simpl. destruct IH as [[[policies effects'] entries'] ->]. simpl. eauto.
Qed.

(** C8: a dispatch pass raises no exception, and whatever it sends to an
    alert service, none of the three lists holds a dismissed alert. *)
Theorem dismissed_alerts_not_sent `{PyNum} (env : SendEnv) (st : State) :
  exists st' effects,
    send_alerts env st = Some (st', effects) /\
    forall type sent_alerts sent_gone sent_new,
      In (Send type sent_alerts sent_gone sent_new) effects ->
      Forall (fun alert => dismissed alert = false) sent_alerts /\
      Forall (fun alert => dismissed alert = false) sent_gone /\
      Forall (fun alert => dismissed alert = false) sent_new.
Proof.
  unfold send_alerts.
  destruct (negb (String.eqb (send_system_state env) "READY")).
  - eexists _, _. split; [reflexivity|]. intros type a g n [].
  - destruct (send_policies_total env (heap st) (alerts st) (policies st))
      as [[[policies' effects] entries] Hp].
    rewrite Hp. simpl. eexists _, _. split; [reflexivity|].
    intros type a g n Hin. rewrite <- !Forall_app.
    eapply send_policies_sent; eauto.
Qed.

(** A pass over a store of a dismissed and an undismissed alert: the mail
    service is sent the undismissed one alone. *)
Lemma dismissed_alerts_not_sent_witness :
  exists st',
    send_alerts Example.send_env Example.state
    = Some (st', [Send "Mail" [Example.gone_c] [] [Example.gone_c];
                  Event "ADDED" (Some "U"); Event "ADDED" (Some "G3")]) /\
    Forall (fun alert => dismissed alert = false) [Example.gone_c].
Proof.
  assert (Hsnd : snd <$> send_alerts Example.send_env Example.state
                 = Some [Send "Mail" [Example.gone_c] [] [Example.gone_c];
                         Event "ADDED" (Some "U"); Event "ADDED" (Some "G3")])
    by (vm_compute; reflexivity).
  destruct (dismissed_alerts_not_sent Example.send_env Example.state)
    as (st' & effects & Hsend & Hsent).
  rewrite Hsend in Hsnd. simpl in Hsnd. injection Hsnd as Heff.
  exists st'. split; [rewrite Hsend, Heff; reflexivity|].
  apply (Hsent "Mail" [Example.gone_c] [] [Example.gone_c]).
  rewrite Heff. simpl. auto.
Defined.

(** ** Sorting *)

Section SortFacts.
Context {A : Type} (cmp : A -> A -> option comparison).
Context (ok : A -> Prop) (le : A -> A -> Prop).

Lemma insert_sorted_In (x : A) (l s : list A) (z : A) :
  insert_sorted cmp x l = Some s -> In z s -> z = x \/ In z l.
Proof.
  revert s. induction l as [|y l IH]; simpl; intros s.
  - intros [= <-] [<-|[]]. auto.
  - destruct (cmp x y) as [[]|]; try discriminate.
    + intros [= <-] [<-|Hin]; auto.
    + intros [= <-] [<-|Hin]; auto.
    + destruct (insert_sorted cmp x l) as [s'|]; simpl; [|discriminate].
      intros [= <-] [<-|Hin]; auto. destruct (IH s' eq_refl Hin); auto.
Qed.

Lemma insert_sorted_perm (x : A) (l s : list A) :
  insert_sorted cmp x l = Some s -> Permutation s (x :: l).
Proof.
  revert s. induction l as [|y l IH]; simpl; intros s.
  - intros [= <-]. reflexivity.
  - destruct (cmp x y) as [[]|]; try discriminate.
    + intros [= <-]. reflexivity.
    + intros [= <-]. reflexivity.
    + destruct (insert_sorted cmp x l) as [s'|]; simpl; [|discriminate].
      intros [= <-]. rewrite (IH s' eq_refl). apply perm_swap.
Qed.

Lemma sorted_perm (l s : list A) : sorted cmp l = Some s -> Permutation s l.
Proof.
  revert s. induction l as [|x l IH]; simpl; intros s.
  - intros [= <-]. reflexivity.
  - destruct (sorted cmp l) as [s'|]; simpl; [|discriminate].
    intros Hins. rewrite (insert_sorted_perm _ _ _ Hins).
    apply perm_skip, IH. reflexivity.
Qed.

Hypothesis cmp_defined : forall x y, ok x -> ok y -> cmp x y <> None.

Lemma insert_sorted_defined (x : A) (l : list A) :
  ok x -> Forall ok l -> exists s, insert_sorted cmp x l = Some s.
Proof.
  intros Hx. induction 1 as [|y l Hy Hl IH]; simpl; [eauto|].
  destruct (cmp x y) as [[]|] eqn:Hc; eauto.
  - destruct IH as [s ->]. simpl. eauto.
  - destruct (cmp_defined x y Hx Hy Hc).
Qed.

Lemma sorted_defined (l : list A) :
  Forall ok l -> exists s, sorted cmp l = Some s.
Proof.
  induction 1 as [|x l Hx Hl IH]; simpl; [eauto|].
  destruct IH as [s Hs]. rewrite Hs. simpl.
  apply insert_sorted_defined; [exact Hx|].
  apply List.Forall_forall. intros z Hz.
  apply (proj1 (List.Forall_forall ok l) Hl).
  apply (Permutation_in _ (sorted_perm _ _ Hs)), Hz.
Qed.

Hypothesis cmp_le : forall x y, ok x -> ok y ->
  match cmp x y with
  | Some Gt => le y x
  | Some _ => le x y
  | None => True
  end.
Hypothesis le_trans : forall x y z, le x y -> le y z -> le x z.

Lemma insert_sorted_sorted (x : A) (l s : list A) :
  ok x -> Forall ok l -> StronglySorted le l ->
  insert_sorted cmp x l = Some s -> StronglySorted le s.
Proof.
  intros Hx Hok Hsorted. revert s.
  induction Hsorted as [|y l Hl IH Hy]; simpl; intros s.
  - intros [= <-]. repeat constructor.
  - apply List.Forall_cons_iff in Hok as [Hoky Hok].
    pose proof (cmp_le x y Hx Hoky) as Hle.
    assert (Hfront : le x y -> StronglySorted le (x :: y :: l)).
    { intros Hxy. constructor; [constructor; assumption|].
      constructor; [exact Hxy|].
      apply List.Forall_forall. intros z Hz. apply (le_trans _ y); [exact Hxy|].
      apply (proj1 (List.Forall_forall _ _) Hy z Hz). }
    destruct (cmp x y) as [[]|]; try discriminate.
    + intros [= <-]. auto.
    + intros [= <-]. auto.
    + destruct (insert_sorted cmp x l) as [s'|] eqn:Hins; simpl; [|discriminate].
      intros [= <-]. constructor; [apply IH; auto|].
      apply List.Forall_forall. intros z Hz.
      destruct (insert_sorted_In _ _ _ _ Hins Hz) as [->|Hin]; [exact Hle|].
      apply (proj1 (List.Forall_forall _ _) Hy z Hin).
Qed.

Lemma sorted_sorted (l s : list A) :
  Forall ok l -> sorted cmp l = Some s -> StronglySorted le s.
Proof.
  intros Hok. revert s. induction Hok as [|x l Hx Hl IH]; simpl; intros s.
  - intros [= <-]. constructor.
  - destruct (sorted cmp l) as [s'|] eqn:Hs; simpl; [|discriminate].
    apply insert_sorted_sorted; [exact Hx| |apply IH; reflexivity].
    apply List.Forall_forall. intros z Hz.
    apply (proj1 (List.Forall_forall ok l) Hl).
    apply (Permutation_in _ (sorted_perm _ _ Hs)), Hz.
Qed.

End SortFacts.

Lemma filter_perm {A : Type} (f : A -> bool) (l1 l2 : list A) :
  Permutation l1 l2 -> Permutation (List.filter f l1) (List.filter f l2).
Proof.
  induction 1 as [|x l1 l2 Hp IH|x y l|l1 l2 l3 H12 IH12 H23 IH23]; simpl.
  - reflexivity.
  - destruct (f x); [apply perm_skip|]; exact IH.
  - destruct (f x), (f y); try reflexivity. apply perm_swap.
  - etransitivity; eassumption.
Qed.

Lemma filter_sorted {A : Type} (le : A -> A -> Prop) (f : A -> bool) (l : list A) :
  StronglySorted le l -> StronglySorted le (List.filter f l).
Proof.
  induction 1 as [|x l Hl IH Hx]; simpl; [constructor|].
  destruct (f x); [|exact IH]. constructor; [exact IH|].
  apply List.Forall_forall. intros z Hz. apply filter_In in Hz as [Hz _].
  apply (proj1 (List.Forall_forall _ _) Hx z Hz).
Qed.

(** ** The listing *)

Lemma string_compare_trans (a b c : string) :
  String.compare a b = Lt -> String.compare b c = Lt -> String.compare a c = Lt.
Proof.
  intros Hab Hbc.
  apply OrderedTypeEx.String_as_OT.cmp_lt.
  apply OrderedTypeEx.String_as_OT.lt_trans with b;
    apply OrderedTypeEx.String_as_OT.cmp_lt; assumption.
Qed.

Lemma string_compare_Gt (a b : string) :
  String.compare a b = Gt -> String.compare b a = Lt.
Proof.
  intros Hab. rewrite String.compare_antisym, Hab. reflexivity.
Qed.

Lemma listed_before_trans classes (a b c : Alert) :
  listed_before classes a b -> listed_before classes b c -> listed_before classes a c.
Proof.
  unfold listed_before.
  intros [Hab|[Hab Hab']] [Hbc|[Hbc Hbc']]; try (left; lia).
  right. split; [lia|].
  destruct Hab' as [Hab'|[Hab' (x & y & Hx & Hy & Hxy)]],
           Hbc' as [Hbc'|[Hbc' (y' & z & Hy' & Hz & Hyz)]].
  - left. eapply string_compare_trans; eassumption.
  - left. rewrite <- Hbc'. exact Hab'.
  - left. rewrite Hab'. exact Hbc'.
  - right. split; [congruence|]. exists x, z.
    rewrite Hy in Hy'. injection Hy' as <-. repeat split; auto. lia.
Qed.

Lemma list_key_cmp_spec classes (a b : Alert) :
  (exists t, datetime a = Some (naive t)) ->
  (exists t, datetime b = Some (naive t)) ->
  match list_key_cmp classes a b with
  | Some Gt => listed_before classes b a
  | Some _ => listed_before classes a b
  | None => False
  end.
Proof.
  intros [x Hx] [y Hy]. unfold list_key_cmp, listed_before.
  destruct (Z.compare_spec (- value (get_alert_level a classes))
                           (- value (get_alert_level b classes))) as [Hl|Hl|Hl].
  - destruct (String.compare (title (klass a)) (title (klass b))) eqn:Ht.
    + apply String.compare_eq_iff in Ht.
      rewrite Hx, Hy. simpl.
      destruct (Z.compare_spec x y) as [Hw|Hw|Hw];
        right; (split; [lia|]); right; (split; [congruence|]).
      * exists x, y. repeat split; auto. lia.
      * exists x, y. repeat split; auto. lia.
      * exists y, x. repeat split; auto. lia.
    + right. split; [lia|]. left. reflexivity.
    + right. split; [lia|]. left. apply string_compare_Gt, Ht.
  - left. lia.
  - left. lia.
Qed.

Lemma should_show_alert_spec product_type classes (a : Alert) :
  should_show_alert product_type classes a = true <->
  In product_type (products (klass a)) /\ get_alert_policy a classes <> "NEVER".
Proof.
  unfold should_show_alert, get_alert_policy, DEFAULT_POLICY.
  destruct (bool_decide (product_type ∈ products (klass a))) eqn:Hp; simpl.
  - apply bool_decide_eq_true, list_elem_of_In in Hp.
    set (o := classes !! name (klass a) ≫= config_policy).
    destruct (bool_decide (o = Some "NEVER")) eqn:Hn.
    + apply bool_decide_eq_true in Hn. rewrite Hn. simpl.
      split; [discriminate | intros [_ Hne]; congruence].
    + apply bool_decide_eq_false in Hn.
      split; [intros _; split; [exact Hp|] | reflexivity].
      destruct o as [p|]; simpl; [intros ->; apply Hn; reflexivity | discriminate].
  - apply bool_decide_eq_false in Hp.
    split; [discriminate | intros [Hin _]; destruct Hp; apply list_elem_of_In, Hin].
Qed.

(** C9, as the code has it: when the first-seen timestamps of the store
    are naive, the listing is made of the alerts of the store whose class
    applies to the product and whose policy is not NEVER, each as often as
    the store has it, by descending level, then title, then first-seen
    timestamp.  Whether a class is excluded from the list of categories
    plays no part. *)
Theorem list_alerts_sorted_and_filtered product_type classes (alerts : list Alert) :
  Forall (fun a => exists t, datetime a = Some (naive t)) alerts ->
  exists listed,
    list_alerts product_type classes alerts = Some listed /\
    StronglySorted (listed_before classes) listed /\
    Permutation listed (List.filter (should_show_alert product_type classes) alerts) /\
    (forall a, In a listed <->
               In a alerts /\ In product_type (products (klass a)) /\
               get_alert_policy a classes <> "NEVER").
Proof.
  intros Hnaive. unfold list_alerts.
  destruct (sorted_defined (list_key_cmp classes)
              (fun a => exists t, datetime a = Some (naive t))) with (l := alerts)
    as [s Hs]; [|exact Hnaive|].
  { intros x y Hx Hy Hc. pose proof (list_key_cmp_spec classes x y Hx Hy) as Hspec.
    rewrite Hc in Hspec. exact Hspec. }
  rewrite Hs. simpl. eexists. split; [reflexivity|].
  pose proof (sorted_perm _ _ _ Hs) as Hperm.
  split; [|split].
  - apply filter_sorted.
    apply (sorted_sorted (list_key_cmp classes)
             (fun a => exists t, datetime a = Some (naive t))
             (listed_before classes)) with (l := alerts); auto.
    + intros x y Hx Hy. pose proof (list_key_cmp_spec classes x y Hx Hy) as Hspec.
      destruct (list_key_cmp classes x y) as [[]|]; auto.
    + apply listed_before_trans.
  - apply filter_perm, Hperm.
  - intros a. rewrite filter_In, should_show_alert_spec.
    split; intros [Hin Hshow]; (split; [|exact Hshow]).
    + apply (Permutation_in _ Hperm), Hin.
    + apply (Permutation_in _ (Permutation_sym Hperm)), Hin.
Qed.

(** The alert of a failed check is listed, though its class is excluded
    from the list of categories. *)
Lemma hidden_class_is_listed :
  list_alerts "SCALE" ∅ [Example.sda; Example.check_failed]
  = Some [Example.check_failed; Example.sda] /\
  exclude_from_list (klass Example.check_failed) = true.
Proof. vm_compute. auto. Qed.

Lemma list_alerts_sorted_and_filtered_witness :
  exists listed,
    list_alerts "SCALE" ∅ [Example.sda; Example.check_failed] = Some listed /\
    In Example.check_failed listed.
Proof.
  destruct (list_alerts_sorted_and_filtered "SCALE" ∅
              [Example.sda; Example.check_failed]) as (listed & Hl & _ & _ & Hin).
  { repeat constructor; eexists; reflexivity. }
  exists listed. split; [exact Hl|].
  apply Hin. split; [simpl; auto|]. split; [simpl; auto|]. vm_compute. discriminate.
Defined.

(** ** Statistics of the sources *)

Section StatFacts.
Context `{PyNum}.

Lemma average_total (v : Stat.t) :
  average v = Some (if (Stat.total_count v =? 0)%Z then num_zero
                    else num_truediv (Stat.total_time v) (Stat.total_count v)).
Proof.
  unfold average, py_truediv. destruct (Stat.total_count v =? 0)%Z; reflexivity.
Qed.

Lemma Dict_get_In {K V : Type} `{EqDecision K} (d : list (K * V)) (k : K) :
  In k (Dict.keys d) -> exists v, Dict.get d k = Some v /\ In (k, v) d.
Proof.
  unfold Dict.keys. induction d as [|[k' v'] d IH]; simpl; [tauto|].
  intros Hin. destruct (decide (k = k')) as [->|Hne]; [eauto|].
  destruct IH as (v & Hv & Hd); [destruct Hin; congruence|]. eauto.
Qed.

Lemma with_averages_spec (items : list (string * Stat.t)) (acc : list (string * StatAvg)) :
  exists r,
    with_averages items acc = Some r /\
    (forall k, In k (Dict.keys r) <-> In k (Dict.keys acc) \/ In k (map fst items)) /\
    (forall k s, In (k, s) r ->
       In (k, s) acc \/
       (In (k, stat s) items /\
        avg s = if (Stat.total_count (stat s) =? 0)%Z then num_zero
                else num_truediv (Stat.total_time (stat s)) (Stat.total_count (stat s)))).
Proof.
  revert acc. induction items as [|[k0 v0] items IH]; intros acc; simpl.
  - exists acc. split; [reflexivity|]. split; [tauto|auto].
  - rewrite average_total.
    destruct (IH (Dict.set acc k0 {| avg := if (Stat.total_count v0 =? 0)%Z then num_zero
                                            else num_truediv (Stat.total_time v0)
                                                             (Stat.total_count v0);
                                     stat := v0 |}))
      as (r & Hr & Hkeys & Hin).
    exists r. split; [exact Hr|]. split.
    + intros k. rewrite Hkeys, Dict_keys_set. intuition.
    + intros k s Hs. destruct (Hin k s Hs) as [Hacc|[Hit Havg]]; [|auto].
      destruct (Dict_In_set _ _ _ _ _ Hacc) as [[-> ->]|Hacc']; auto.
Qed.

(** C10: [sources_stats] never fails.  It has an entry for every source
    of the statistics and for no other, and the average of an entry is 0
    if the count is 0 and the total time divided by the count otherwise. *)
Theorem sources_stats_division_safe (times : list (string * Stat.t)) :
  exists stats,
    sources_stats times = Some stats /\
    (forall k, In k (Dict.keys stats) <-> In k (Dict.keys times)) /\
    (forall k, In k (Dict.keys times) ->
       exists s,
         Dict.get stats k = Some s /\ In (k, stat s) times /\
         avg s = if (Stat.total_count (stat s) =? 0)%Z then num_zero
                 else num_truediv (Stat.total_time (stat s)) (Stat.total_count (stat s))).
Proof.
  unfold sources_stats.
  destruct (sorted_defined
              (fun t1 t2 : string * Stat.t => Some (String.compare (fst t1) (fst t2)))
              (fun _ => True)) with (l := times) as [items Hitems].
  { intros x y _ _. discriminate. }
  { apply List.Forall_forall. auto. }
  rewrite Hitems. simpl.
  pose proof (sorted_perm _ _ _ Hitems) as Hperm.
  destruct (with_averages_spec items []) as (stats & Hstats & Hkeys & Hin).
  exists stats. split; [exact Hstats|].
  assert (Hk : forall k, In k (Dict.keys stats) <-> In k (Dict.keys times)).
  { intros k. rewrite Hkeys. simpl. unfold Dict.keys.
    split.
    - intros [[]|Hi]. apply (Permutation_in _ (Permutation_map fst Hperm)), Hi.
    - intros Hi. right.
      apply (Permutation_in _ (Permutation_map fst (Permutation_sym Hperm))), Hi. }
  split; [exact Hk|].
  intros k Hin_k. apply Hk in Hin_k.
  destruct (Dict_get_In stats k Hin_k) as (s & Hget & Hs).
  exists s. split; [exact Hget|].
  destruct (Hin k s Hs) as [[]|[Hit Havg]].
  split; [|exact Havg]. apply (Permutation_in _ Hperm), Hit.
Qed.

End StatFacts.

(** ** Running a source *)

Section DictGetSet.
Context {K V : Type} `{EqDecision K}.

Lemma Dict_get_set (d : list (K * V)) (k k' : K) (v : V) :
  Dict.get (Dict.set d k v) k' = if decide (k' = k) then Some v else Dict.get d k'.
Proof.
  induction d as [|[k0 v0] d IH]; simpl.
  - destruct (decide (k' = k)); reflexivity.
  - destruct (decide (k = k0)) as [->|Hne]; simpl.
    + destruct (decide (k' = k0)); reflexivity.
    + destruct (decide (k' = k0)) as [->|Hne'].
      * destruct (decide (k0 = k)); [congruence|reflexivity].
      * exact IH.
Qed.

End DictGetSet.

Section RunSourceFacts.
Context `{PyNum} `{AlertBase}.






End RunSourceFacts.


(** ** The heap *)

Lemma obj_app_old (h extra : list Alert) (l : loc) :
  l < length h -> obj (h ++ extra) l = obj h l.
Proof. intros Hl. unfold obj. apply lookup_total_app_l, Hl. Qed.

Lemma obj_app_new (h : list Alert) (a : Alert) : obj (h ++ [a]) (length h) = a.
Proof. unfold obj. apply list_lookup_total_middle. reflexivity. Qed.

Lemma obj_insert_eq (h : list Alert) (l : loc) (v : Alert) :
  l < length h -> obj (<[l := v]> h) l = v.
Proof. intros Hl. unfold obj. apply list_lookup_total_insert_eq, Hl. Qed.

Lemma obj_insert_ne (h : list Alert) (l l' : loc) (v : Alert) :
  l <> l' -> obj (<[l := v]> h) l' = obj h l'.
Proof. intros Hl. unfold obj. apply list_lookup_total_insert_ne, Hl. Qed.

Lemma map_obj_ext (h h' : list Alert) (ls : list loc) :
  (forall l, In l ls -> obj h' l = obj h l) -> map (obj h') ls = map (obj h) ls.
Proof. intros Hext. apply map_ext_in, Hext. Qed.

Lemma filter_map_obj (h : list Alert) (p : Alert -> bool) (ls : list loc) :
  map (obj h) (List.filter (fun l => p (obj h l)) ls) = List.filter p (map (obj h) ls).
Proof.
  induction ls as [|l ls IH]; simpl; [reflexivity|].
  destruct (p (obj h l)); simpl; rewrite IH; reflexivity.
Qed.

Lemma insert_last (h : list Alert) (a v : Alert) :
  <[length h := v]> (h ++ [a]) = h ++ [v].
Proof. rewrite insert_app_r_alt by lia. rewrite Nat.sub_diag. reflexivity. Qed.

Section HeapFacts.
Context `{PyNum}.

Lemma update_alloc (f : Alert -> Alert) (a : Alert) (st : State) :
  update f (length (heap st)) (set_heap (heap st ++ [a]) st)
  = set_heap (heap st ++ [f a]) st.
Proof. unfold update, set_heap. simpl. rewrite obj_app_new, insert_last. reflexivity. Qed.

Lemma store_grow (extra : list Alert) (st : State) :
  refs_valid st -> store (set_heap (heap st ++ extra) st) = store st.
Proof.
  intros Hvalid. unfold store. simpl. apply map_obj_ext. intros l Hl.
  apply obj_app_old. apply (proj1 (List.Forall_forall _ _) Hvalid l Hl).
Qed.

End HeapFacts.

(** ** One-shot alerts *)

Section OneshotFacts.
Context `{PyNum}.

(** C2, as the code has it: a one-shot alert is given the source [""] and
    the node of this system and goes through [__handle_alert] like any
    other.  It keeps the identifier, the dismissed flag and the first-seen
    timestamp of the first alert of the store of this node, of the source
    [""] and of its class and key; without such an alert it is a new
    alert, whatever alerts of its class and key the store has.  It
    replaces the alerts of the store that have its identifier. *)
Theorem oneshot_create_reconciles
    (class_by_name : gmap string AlertClass)
    (create : AlertClass -> option Args -> option Alert) (inp : HandleInput)
    (st : State) (klass_name : string) (create_args : option Args)
    (k : AlertClass) (alert : Alert) :
  refs_valid st ->
  class_by_name !! klass_name = Some k ->
  is_oneshot k = true ->
  create k create_args = Some alert ->
  let same := fun e : Alert =>
    node e = Some (self_node st) /\ source e = Some "" /\
    klass e = klass alert /\ key e = key alert in
  exists st' created,
    oneshot_create class_by_name create inp st klass_name create_args
    = Created st' true /\
    refs_valid st' /\
    store st' = List.filter (fun a => negb (bool_decide (uuid a = uuid created)))
                            (store st) ++ [created] /\
    klass created = klass alert /\ key created = key alert /\
    node created = Some (self_node st) /\ source created = Some "" /\
    last_occurrence created = Some (utcnow_last_occurrence inp) /\
    ((exists e, In e (store st) /\ same e) ->
     exists before e after,
       store st = before ++ e :: after /\ same e /\
       (forall e', In e' before -> ~ same e') /\
       uuid created = uuid e /\ dismissed created = dismissed e /\
       datetime created = datetime e) /\
    ((forall e, In e (store st) -> ~ same e) ->
     uuid created = Some (new_uuid inp) /\ dismissed created = false).
Proof.
  intros Hvalid Hk Hone Hcreate same.
  unfold oneshot_create. rewrite Hk, Hone, Hcreate. cbn [negb].
  unfold alloc. rewrite !update_alloc.
  cbn [self_node set_heap heap alerts].
  rewrite store_grow by exact Hvalid.
  rewrite obj_app_new.
  set (stamped := set_node (Some (self_node st)) (set_source (Some "") alert)).
  set (created := handle_alert (store st) inp stamped).
  eexists _, created. split; [reflexivity|].
  split.
  { unfold refs_valid. cbn [set_alerts set_heap heap alerts].
    rewrite length_app. simpl.
    apply List.Forall_app. split.
    - apply List.Forall_forall. intros a Ha. apply filter_In in Ha as [Ha _].
      pose proof (proj1 (List.Forall_forall _ _) Hvalid a Ha). simpl in *. lia.
    - repeat constructor. lia. }
  split.
  { unfold store. cbn [set_alerts set_heap heap alerts]. rewrite map_app. simpl.
    rewrite obj_app_new. f_equal.
    pose proof (filter_map_obj (heap st ++ [created])
                  (fun a => negb (bool_decide (uuid a = uuid created))) (alerts st)) as Hf.
    cbv beta in Hf. rewrite Hf.
    f_equal. apply map_obj_ext. intros a Ha. apply obj_app_old.
    apply (proj1 (List.Forall_forall _ _) Hvalid a Ha). }
  unfold created, handle_alert.
  destruct (List.find (fun a => same_alert a stamped) (store st)) as [e|] eqn:Hfind; simpl.
  - repeat (split; [reflexivity|]). split.
    + intros _. destruct (find_first _ _ _ Hfind) as (l1 & l2 & Heq & He & Hl1).
      exists l1, e, l2. split; [exact Heq|].
      apply same_alert_spec in He. simpl in He. split; [exact He|].
      split; [|auto]. intros e' Hin Hs.
      pose proof (Hl1 e' Hin) as Hf.
      assert (Ht : same_alert e' stamped = true) by (apply same_alert_spec; exact Hs).
      congruence.
    + intros Hnone. exfalso. apply find_some in Hfind as [Hin He].
      apply (Hnone e Hin). apply same_alert_spec in He. exact He.
  - repeat (split; [reflexivity|]). split.
    + intros (e & Hin & Hs). exfalso.
      pose proof (find_none _ _ Hfind e Hin) as Hf. simpl in Hf.
      assert (Ht : same_alert e stamped = true) by (apply same_alert_spec; exact Hs).
      congruence.
    + auto.
Qed.

End OneshotFacts.

(** An alert of the same class and key that was created on the other node
    is not matched: the new alert gets a new identifier, is not dismissed,
    and both alerts are in the store. *)
Lemma oneshot_create_other_node :
  match oneshot_create Example.class_by_name Example.create Example.input
          (Example.state_with (Example.quota "B")) "Quota" None with
  | Created st' _ =>
      store st'
      = [Example.quota "B";
         {| uuid := Some "V"; source := Some ""; klass := Example.Quota; args := None;
            node := Some "A"; key := Some "tank"; datetime := Some (naive 7000);
            last_occurrence := Some 7001%Z; dismissed := false; mail := None |}]
  | CallError _ => False
  end /\
  klass (Example.quota "B") = Example.Quota /\
  key (Example.quota "B") = Some "tank" /\
  uuid (Example.quota "B") = Some "Q" /\
  dismissed (Example.quota "B") = true.
Proof. split; [vm_compute; reflexivity|]. repeat split. Qed.

Lemma oneshot_create_reconciles_witness :
  exists st' created,
    oneshot_create Example.class_by_name Example.create Example.input
      (Example.state_with (Example.quota "A")) "Quota" None = Created st' true /\
    store st' = [created] /\
    uuid created = Some "Q" /\ dismissed created = true /\
    datetime created = Some (naive 1000).
Proof.
  destruct (oneshot_create_reconciles Example.class_by_name Example.create Example.input
              (Example.state_with (Example.quota "A")) "Quota" None Example.Quota
              {| uuid := None; source := None; klass := Example.Quota; args := None;
                 node := None; key := Some "tank"; datetime := None;
                 last_occurrence := None; dismissed := false; mail := None |})
    as (st' & created & Heq & _ & Hstore & _ & _ & _ & _ & _ & Hold & _).
  - repeat constructor.
  - reflexivity.
  - reflexivity.
  - reflexivity.
  - exists st', created. split; [exact Heq|].
    destruct Hold as (before & e & after & Hsplit & _ & _ & Hu & Hd & Ht).
    { exists (Example.quota "A"). simpl. auto. }
    assert (He : e = Example.quota "A").
    { change (store (Example.state_with (Example.quota "A")))
        with [Example.quota "A"] in Hsplit.
      destruct before as [|x before]; simpl in Hsplit.
      - injection Hsplit as <- _. reflexivity.
      - injection Hsplit as _ Hsplit. destruct before; discriminate. }
    subst e. simpl in Hu, Hd, Ht.
    split; [|auto].
    rewrite Hstore.
    change (store (Example.state_with (Example.quota "A"))) with [Example.quota "A"].
    simpl. rewrite Hu. simpl. reflexivity.
Defined.

(** ** The scheduling pass *)

Section PassFacts.
Context `{PyNum} `{AlertBase}.
Variables (h : list Alert) (base top : nat) (p : list (string * AlertPolicy.t loc)).

Lemma untouched_fields (st st' : State) :
  heap st' = heap st -> alerts st' = alerts st -> policies st' = policies st ->
  untouched h base top p st -> untouched h base top p st'.
Proof. unfold untouched. intros -> -> ->. tauto. Qed.

Lemma untouched_update (f : Alert -> Alert) (l : loc) (st : State) :
  outside base top l -> untouched h base top p st -> untouched h base top p (update f l st).
Proof.
  intros Hl (Htop & Hreg & Hst & Hp). unfold untouched, update. simpl.
  rewrite length_insert. split; [exact Htop|]. split; [|auto].
  intros l' Hl'. unfold outside in Hl.
  rewrite list_lookup_insert_ne by lia. apply Hreg, Hl'.
Qed.

Lemma untouched_updates (f : Alert -> Alert) (ls : list loc) (st : State) :
  Forall (outside base top) ls -> untouched h base top p st ->
  untouched h base top p (fold_left (fun st l => update f l st) ls st).
Proof.
  intros Hls. revert st. induction Hls as [|l ls Hl Hls IH]; simpl; intros st Hst.
  - exact Hst.
  - apply IH, untouched_update; assumption.
Qed.

Lemma untouched_alloc_all (fresh : list Alert) (st : State) :
  untouched h base top p st ->
  untouched h base top p (fst (alloc_all fresh st)) /\
  Forall (outside base top) (snd (alloc_all fresh st)).
Proof.
  revert st. induction fresh as [|a fresh IH]; simpl; intros st Hst.
  - split; [exact Hst|constructor].
  - assert (Hst' : untouched h base top p (set_heap (heap st ++ [a]) st)).
    { destruct Hst as (Htop & Hreg & Hal & Hp). unfold untouched. simpl.
      rewrite length_app. simpl. split; [lia|]. split; [|auto].
      intros l Hl. rewrite lookup_app_l by lia. apply Hreg, Hl. }
    destruct (IH _ Hst') as [Hu Hout].
    destruct (alloc_all fresh (set_heap (heap st ++ [a]) st)) as [st' ls]. simpl in *.
    split; [exact Hu|]. constructor; [|exact Hout].
    right. destruct Hst as (Htop & _). exact Htop.
Qed.

Lemma untouched_handle_alerts (inp : nat -> HandleInput) (i : nat) (ls : list loc)
    (st : State) :
  Forall (outside base top) ls -> untouched h base top p st ->
  untouched h base top p (handle_alerts inp i ls st).
Proof.
  intros Hls. revert i st. induction Hls as [|l ls Hl Hls IH]; simpl; intros i st Hst.
  - exact Hst.
  - apply IH, untouched_update; assumption.
Qed.

Lemma untouched_filter (f : loc -> bool) (st : State) :
  untouched h base top p st -> Forall (outside base top) (List.filter f (alerts st)).
Proof.
  intros (_ & _ & Hal & _). apply List.Forall_forall. intros l Hl.
  apply filter_In in Hl as [Hl _]. apply (proj1 (List.Forall_forall _ _) Hal l Hl).
Qed.

Lemma untouched_local_alerts (env : RunEnv) (master_node name : string) (st : State) :
  untouched h base top p st ->
  untouched h base top p (fst (fst (local_alerts env master_node name st))) /\
  Forall (outside base top) (snd (fst (local_alerts env master_node name st))).
Proof.
  intros Hst. unfold local_alerts.
  destruct (bool_decide _).
  - simpl. pose proof (untouched_filter (fun l => is_from master_node name (obj (heap st) l))
                         st Hst) as Hla.
    split; [|exact Hla]. apply untouched_updates; [exact Hla|].
    eapply untouched_fields; [ | | |exact Hst]; reflexivity.
  - destruct (run_source _ _ _) as [rs [fresh|]].
    + pose proof (untouched_alloc_all fresh (set_run_state rs st)) as Ha.
      destruct (alloc_all fresh (set_run_state rs st)) as [st' ls]. simpl in *.
      destruct Ha as [Hst' Hls].
      { eapply untouched_fields; [ | | |exact Hst]; reflexivity. }
      split; [|exact Hls]. apply untouched_updates; assumption.
    + simpl.
      pose proof (untouched_filter (fun l => is_from master_node name (obj (heap st) l))
                    st Hst) as Hla.
      split; [|exact Hla]. apply untouched_updates; [exact Hla|].
      eapply untouched_fields; [ | | |exact Hst]; reflexivity.
Qed.

Lemma untouched_remote_alerts (env : RunEnv) (backup_node : string) (run_on_backup : bool)
    (alert_source : AlertSource) (locked : bool) (st : State) :
  untouched h base top p st ->
  untouched h base top p
    (fst (remote_alerts env backup_node run_on_backup alert_source locked st)) /\
  Forall (outside base top) (snd (remote_alerts env backup_node run_on_backup alert_source locked st)).
Proof.
  intros Hst. unfold remote_alerts.
  pose proof (untouched_filter
                (fun l => is_from backup_node (source_name alert_source) (obj (heap st) l))
                st Hst) as Hstored.
  destruct (_ && _); [|simpl; split; [exact Hst|constructor]].
  destruct locked; [simpl; split; [apply untouched_updates; assumption|exact Hstored]|].
  destruct (remote_result env _) as [fresh| | |e].
  - pose proof (untouched_alloc_all fresh st Hst) as [Hst' Hls].
    destruct (alloc_all fresh st) as [st' ls]. simpl in *.
    split; [|exact Hls]. apply untouched_updates; assumption.
  - simpl. split; [apply untouched_updates; assumption|exact Hstored].
  - simpl. split; [|exact Hstored]. apply untouched_updates; [exact Hstored|].
    eapply untouched_fields; [ | | |exact Hst]; reflexivity.
  - match goal with
    | |- context [alloc_all ?f st] =>
        pose proof (untouched_alloc_all f st Hst) as [Hst' Hls];
        destruct (alloc_all f st) as [st' ls]
    end.
    simpl in *. split; [|exact Hls]. apply untouched_updates; assumption.
Qed.

Lemma untouched_run_alert_source (env : RunEnv) (master_node backup_node : string)
    (run_on_backup run_failover_related : bool) (st : State) (alert_source : AlertSource) :
  untouched h base top p st ->
  untouched h base top p
    (run_alert_source env master_node backup_node run_on_backup run_failover_related
       st alert_source).
Proof.
  intros Hst. unfold run_alert_source.
  destruct (negb (bool_decide _)); [exact Hst|].
  destruct (_ && _); [exact Hst|].
  destruct (negb (should_run _ _ _)); [exact Hst|].
  match goal with
  | |- context [local_alerts env master_node ?n ?s] =>
      pose proof (untouched_local_alerts env master_node n s) as Hl;
      destruct (local_alerts env master_node n s) as [[st1 la] locked]
  end.
  simpl in Hl. destruct Hl as [Hst1 Hla].
  { eapply untouched_fields; [ | | |exact Hst]; reflexivity. }
  pose proof (untouched_remote_alerts env backup_node run_on_backup alert_source locked st1
                Hst1) as Hr.
  destruct (remote_alerts env backup_node run_on_backup alert_source locked st1)
    as [st2 lb].
  simpl in Hr. destruct Hr as [Hst2 Hlb].
  assert (Hab : Forall (outside base top) (la ++ lb)) by (apply List.Forall_app; auto).
  pose proof (untouched_handle_alerts
                (handle_input env (source_name alert_source)) 0 (la ++ lb) st2 Hab Hst2)
    as Hst3.
  set (st3 := handle_alerts _ 0 (la ++ lb) st2) in *.
  destruct Hst3 as (Htop & Hreg & Hal & Hp).
  unfold untouched. simpl. split; [exact Htop|]. split; [exact Hreg|]. split; [|exact Hp].
  apply List.Forall_app. split; [|exact Hab].
  apply List.Forall_forall. intros l Hl. apply filter_In in Hl as [Hl _].
  apply (proj1 (List.Forall_forall _ _) Hal l Hl).
Qed.

Lemma untouched_unblock_expired (monotonic : string -> num)
    (items : list (string * (string * num))) (st st' : State) :
  unblock_expired monotonic items st = Some st' ->
  untouched h base top p st -> untouched h base top p st'.
Proof.
  revert st. induction items as [|[k [n expires_at]] items IH]; simpl; intros st.
  - intros [= <-]. auto.
  - destruct (num_leb expires_at (monotonic k)); simpl; [|apply IH].
    unfold unblock_source.
    destruct (Dict.get (sources_locks st) k) as [[sn e]|]; simpl; [|apply IH].
    destruct (bool_decide _); simpl; [|discriminate].
    intros Hrest Hst. eapply IH; [exact Hrest|].
    eapply untouched_fields; [ | | |exact Hst]; reflexivity.
Qed.

Lemma untouched_run_alerts (sources : list AlertSource) (env : RunEnv) (st st' : State) :
  run_alerts sources env st = Some st' ->
  untouched h base top p st -> untouched h base top p st'.
Proof.
  unfold run_alerts.
  destruct (unblock_expired _ _ st) as [st1|] eqn:Hsweep; simpl; [|discriminate].
  intros [= <-] Hst.
  pose proof (untouched_unblock_expired _ _ _ _ Hsweep Hst) as Hst1.
  clear Hsweep Hst. revert st1 Hst1.
  induction sources as [|src sources IH]; simpl; intros st1 Hst1; [exact Hst1|].
  apply IH, untouched_run_alert_source, Hst1.
Qed.

Lemma keep_unexpired_In (utcnow : nat -> Z) (i : nat) (hp : list Alert)
    (ls kept : list loc) (l : loc) :
  keep_unexpired utcnow i hp ls = Some kept -> In l kept -> In l ls.
Proof.
  revert i kept. induction ls as [|l0 ls IH]; simpl; intros i kept.
  - intros [= <-] [].
  - destruct (should_expire_alert _ _) as [expire|]; [|discriminate].
    destruct (keep_unexpired utcnow (S i) hp ls) as [kept'|] eqn:Hk; simpl; [|discriminate].
    intros [= <-]. destruct expire; simpl; intros Hin.
    + right. eapply IH; eauto.
    + destruct Hin as [<-|Hin]; [auto|]. right. eapply IH; eauto.
Qed.

Lemma untouched_expire_alerts (utcnow : nat -> Z) (st st' : State) :
  expire_alerts utcnow st = Some st' ->
  untouched h base top p st -> untouched h base top p st'.
Proof.
  unfold expire_alerts.
  destruct (keep_unexpired utcnow 0 (heap st) (alerts st)) as [kept|] eqn:Hk; simpl;
    [|discriminate].
  intros [= <-] (Htop & Hreg & Hal & Hp). unfold untouched. simpl.
  split; [exact Htop|]. split; [exact Hreg|]. split; [|exact Hp].
  apply List.Forall_forall. intros l Hl.
  apply (proj1 (List.Forall_forall _ _) Hal l). eapply keep_unexpired_In; eauto.
Qed.

End PassFacts.

Lemma obj_lookup (h1 h2 : list Alert) (l1 l2 : loc) :
  h1 !! l1 = h2 !! l2 -> obj h1 l1 = obj h2 l2.
Proof.
  intros Heq. unfold obj.
  rewrite (list_lookup_total_alt h1), (list_lookup_total_alt h2).
  f_equal. exact Heq.
Qed.

(** A deep copy leaves the heap as it is and adds the copies: new objects
    with the values of the objects of the list. *)
Lemma deepcopy_spec (base : nat) (ls : list loc) :
  forall (memo : list (loc * loc)) (h : list Alert),
    base <= length h ->
    Forall (fun l => l < base) ls ->
    (forall l l', Dict.get memo l = Some l' ->
                  l < base /\ base <= l' < length h /\ obj h l' = obj h l) ->
    exists extra,
      fst (deepcopy memo ls h) = h ++ extra /\
      Forall (fun l' => base <= l' < length (fst (deepcopy memo ls h)))
             (snd (deepcopy memo ls h)) /\
      map (obj (fst (deepcopy memo ls h))) (snd (deepcopy memo ls h)) = map (obj h) ls.
Proof.
  induction ls as [|l ls IH]; intros memo h Hbase Hls Hmemo; simpl.
  - exists []. rewrite app_nil_r. auto.
  - apply List.Forall_cons_iff in Hls as [Hl Hls].
    destruct (Dict.get memo l) as [l'|] eqn:Hget.
    + destruct (IH memo h Hbase Hls Hmemo) as (extra & Hh & Hr & Hmap).
      destruct (deepcopy memo ls h) as [h' r]. simpl in *. subst h'.
      destruct (Hmemo l l' Hget) as (_ & Hl' & Hval).
      exists extra. split; [reflexivity|]. split.
      * constructor; [rewrite length_app; lia|exact Hr].
      * rewrite Hmap. f_equal. rewrite obj_app_old by lia. exact Hval.
    + destruct (IH (Dict.set memo l (length h)) (h ++ [obj h l])) as (extra & Hh & Hr & Hmap).
      * rewrite length_app. lia.
      * exact Hls.
      * intros k k'. rewrite Dict_get_set. rewrite length_app. simpl.
        destruct (decide (k = l)) as [->|Hne].
        -- intros [= <-]. split; [exact Hl|]. split; [lia|].
           rewrite obj_app_new, obj_app_old by lia. reflexivity.
        -- intros Hk. destruct (Hmemo k k' Hk) as (Hk1 & Hk2 & Hk3).
           split; [exact Hk1|]. split; [lia|].
           rewrite !obj_app_old by lia. exact Hk3.
      * destruct (deepcopy (Dict.set memo l (length h)) ls (h ++ [obj h l])) as [h' r].
        simpl in *. subst h'.
        rewrite <- app_assoc in Hr, Hmap |- *.
        exists ([obj h l] ++ extra). split; [reflexivity|]. split.
        -- constructor; [|exact Hr]. rewrite !length_app. simpl. lia.
        -- f_equal.
           ++ unfold obj. apply list_lookup_total_middle. reflexivity.
           ++ rewrite Hmap. apply map_obj_ext. intros k Hk. apply obj_app_old.
              pose proof (proj1 (List.Forall_forall _ _) Hls k Hk). simpl in *. lia.
Qed.

(** ** The pass runs to its end *)

Section DictPop.
Context {K V : Type} `{EqDecision K}.

Lemma Dict_get_In_pair (d : list (K * V)) (k : K) (v : V) :
  Dict.get d k = Some v -> In (k, v) d.
Proof.
  induction d as [|[k' v'] d IH]; simpl; [discriminate|].
  destruct (decide (k = k')) as [->|Hne]; [intros [= ->]; auto | auto].
Qed.

Lemma Dict_pop_In (d : list (K * V)) (k k' : K) (v' : V) :
  In (k', v') (Dict.pop d k) -> In (k', v') d.
Proof.
  induction d as [|[k0 v0] d IH]; simpl; [tauto|].
  destruct (decide (k = k0)) as [->|Hne]; simpl; [auto|].
  intros [Heq|Hin]; auto.
Qed.

Lemma Dict_pop_NoDup (d : list (K * V)) (k : K) :
  List.NoDup (Dict.keys d) ->
  List.NoDup (Dict.keys (Dict.pop d k)) /\ ~ In k (Dict.keys (Dict.pop d k)).
Proof.
  unfold Dict.keys. induction d as [|[k0 v0] d IH]; simpl; intros Hnd.
  - split; [constructor|tauto].
  - apply List.NoDup_cons_iff in Hnd as [Hk0 Hnd].
    destruct (decide (k = k0)) as [->|Hne]; simpl; [auto|].
    destruct (IH Hnd) as [Hnd' Hk]. split.
    + constructor; [|exact Hnd']. intros Hin. apply Hk0.
      apply in_map_iff in Hin as ([k1 v1] & Heq & Hin). simpl in Heq. subst k1.
      apply in_map_iff. exists (k0, v1). split; [reflexivity|].
      eapply Dict_pop_In, Hin.
    + intros [Heq|Hin]; [congruence|tauto].
Qed.

End DictPop.

Section TotalFacts.
Context `{PyNum} `{AlertBase}.

Lemma unblock_source_consistent (k : string) (st : State) :
  locks_consistent st ->
  exists st',
    unblock_source k st = Some st' /\ locks_consistent st' /\
    heap st' = heap st /\ alerts st' = alerts st.
Proof.
  intros [Hnd Hin]. unfold unblock_source.
  destruct (Dict.get (sources_locks st) k) as [[n e]|] eqn:Hget.
  - apply Dict_get_In_pair in Hget.
    rewrite (bool_decide_eq_true_2 _ (Hin k n e Hget)).
    eexists. split; [reflexivity|]. split; [|split; reflexivity].
    destruct (Dict_pop_NoDup (sources_locks st) k Hnd) as [Hnd' Hk].
    split; [exact Hnd'|]. simpl.
    intros k' n' e' Hin'.
    assert (k' <> k).
    { intros ->. apply Hk. apply in_map_iff. exists (k, (n', e')). auto. }
    pose proof (Hin k' n' e' (Dict_pop_In _ _ _ _ Hin')) as Hk'.
    destruct (decide (n = n')) as [->|Hne].
    + rewrite lookup_insert_eq. simpl. set_solver.
    + rewrite lookup_insert_ne by exact Hne. exact Hk'.
  - exists st. split; [reflexivity|]. split; [split; assumption|]. split; reflexivity.
Qed.

Lemma unblock_expired_total (monotonic : string -> num)
    (items : list (string * (string * num))) (st : State) :
  locks_consistent st ->
  exists st',
    unblock_expired monotonic items st = Some st' /\
    heap st' = heap st /\ alerts st' = alerts st.
Proof.
  revert st. induction items as [|[k [n e]] items IH]; simpl; intros st Hst.
  - eauto.
  - destruct (num_leb e (monotonic k)); simpl; [|apply IH, Hst].
    destruct (unblock_source_consistent k st Hst) as (st1 & -> & Hst1 & Hh & Ha). simpl.
    destruct (IH st1 Hst1) as (st' & -> & Hh' & Ha').
    exists st'. split; [reflexivity|]. split; congruence.
Qed.

Lemma seen_app (h extra : list Alert) (l : loc) : seen h l -> seen (h ++ extra) l.
Proof.
  intros [Hl Hs]. split; [rewrite length_app; lia|].
  rewrite obj_app_old by exact Hl. exact Hs.
Qed.

Lemma grows_refl (st : State) : grows st st.
Proof. split; auto. Qed.

Lemma grows_trans (st1 st2 st3 : State) : grows st1 st2 -> grows st2 st3 -> grows st1 st3.
Proof. intros [Hl1 Hs1] [Hl2 Hs2]. split; [lia|auto]. Qed.

Lemma grows_fields (st st' : State) : heap st' = heap st -> grows st st'.
Proof. intros Hh. unfold grows. rewrite Hh. auto. Qed.

Lemma grows_update (f : Alert -> Alert) (l : loc) (st : State) :
  (forall a, last_occurrence a <> None -> last_occurrence (f a) <> None) ->
  grows st (update f l st).
Proof.
  intros Hf. unfold grows, update. simpl. rewrite length_insert. split; [lia|].
  intros l' [Hl' Hs]. split; [rewrite length_insert; exact Hl'|].
  destruct (decide (l = l')) as [->|Hne].
  - rewrite obj_insert_eq by exact Hl'. apply Hf, Hs.
  - rewrite obj_insert_ne by exact Hne. exact Hs.
Qed.

Lemma grows_updates (f : Alert -> Alert) (ls : list loc) (st : State) :
  (forall a, last_occurrence a <> None -> last_occurrence (f a) <> None) ->
  grows st (fold_left (fun st l => update f l st) ls st) /\
  length (heap (fold_left (fun st l => update f l st) ls st)) = length (heap st) /\
  alerts (fold_left (fun st l => update f l st) ls st) = alerts st.
Proof.
  intros Hf. revert st. induction ls as [|l ls IH]; simpl; intros st.
  - split; [apply grows_refl|auto].
  - destruct (IH (update f l st)) as (Hg & Hlen & Hal).
    split; [eapply grows_trans; [apply grows_update, Hf|exact Hg]|].
    rewrite Hlen, Hal. unfold update. simpl. rewrite length_insert. auto.
Qed.

Lemma grows_alloc_all (fresh : list Alert) (st : State) :
  grows st (fst (alloc_all fresh st)) /\
  Forall (fun l => l < length (heap (fst (alloc_all fresh st))))
         (snd (alloc_all fresh st)) /\
  alerts (fst (alloc_all fresh st)) = alerts st.
Proof.
  revert st. induction fresh as [|a fresh IH]; simpl; intros st.
  - split; [apply grows_refl|]. split; [constructor|reflexivity].
  - destruct (IH (set_heap (heap st ++ [a]) st)) as (Hg & Hv & Hal).
    destruct (alloc_all fresh (set_heap (heap st ++ [a]) st)) as [st' ls]. simpl in *.
    assert (Hg0 : grows st (set_heap (heap st ++ [a]) st)).
    { split; simpl; [rewrite length_app; lia|]. intros l. apply seen_app. }
    split; [eapply grows_trans; eassumption|]. split; [|exact Hal].
    constructor; [|exact Hv].
    destruct Hg as [Hlen _]. simpl in Hlen. rewrite length_app in Hlen. simpl in Hlen. lia.
Qed.

Lemma handle_alert_seen (store : list Alert) (inp : HandleInput) (a : Alert) :
  last_occurrence (handle_alert store inp a) <> None.
Proof.
  unfold handle_alert. destruct (List.find _ store); simpl; discriminate.
Qed.

Lemma handle_alerts_seen (inp : nat -> HandleInput) (i : nat) (ls : list loc) (st : State) :
  Forall (fun l => l < length (heap st)) ls ->
  grows st (handle_alerts inp i ls st) /\
  Forall (seen (heap (handle_alerts inp i ls st))) ls /\
  alerts (handle_alerts inp i ls st) = alerts st.
Proof.
  intros Hls. revert i st Hls. induction ls as [|l ls IH]; simpl; intros i st Hls.
  - split; [apply grows_refl|]. split; [constructor|reflexivity].
  - apply List.Forall_cons_iff in Hls as [Hl Hls].
    set (st1 := update (handle_alert (store st) (inp i)) l st).
    assert (Hg1 : grows st st1).
    { apply grows_update. intros a _. apply handle_alert_seen. }
    assert (Hl1 : seen (heap st1) l).
    { unfold st1, update. simpl. split; [rewrite length_insert; exact Hl|].
      rewrite obj_insert_eq by exact Hl. apply handle_alert_seen. }
    destruct (IH (S i) st1) as (Hg & Hseen & Hal).
    { unfold st1, update. simpl. rewrite length_insert. exact Hls. }
    split; [eapply grows_trans; eassumption|]. split; [|exact Hal].
    constructor; [|exact Hseen]. destruct Hg as [_ Hg]. apply Hg, Hl1.
Qed.

Lemma set_node_seen (n : option string) (a : Alert) :
  last_occurrence a <> None -> last_occurrence (set_node n a) <> None.
Proof. auto. Qed.

Lemma local_alerts_grows (env : RunEnv) (master_node name : string) (st : State) :
  store_seen st ->
  grows st (fst (fst (local_alerts env master_node name st))) /\
  Forall (fun l => l < length (heap (fst (fst (local_alerts env master_node name st)))))
         (snd (fst (local_alerts env master_node name st))) /\
  alerts (fst (fst (local_alerts env master_node name st))) = alerts st.
Proof.
  intros Hst. unfold local_alerts.
  assert (Hstored : forall f, Forall (fun l => l < length (heap st))
                                (List.filter f (alerts st))).
  { intros f. apply List.Forall_forall. intros l Hl. apply filter_In in Hl as [Hl _].
    apply (proj1 (List.Forall_forall _ _) Hst l Hl). }
  destruct (bool_decide _).
  - simpl. match goal with
    | |- context [fold_left ?f ?ls ?s] =>
        destruct (grows_updates (set_node (Some master_node)) ls s
                    (set_node_seen _)) as (Hg & Hlen & Hal)
    end.
    split; [exact Hg|]. split; [|exact Hal]. rewrite Hlen. apply Hstored.
  - destruct (run_source _ _ _) as [rs [fresh|]].
    + destruct (grows_alloc_all fresh (set_run_state rs st)) as (Hg & Hv & Hal).
      destruct (alloc_all fresh (set_run_state rs st)) as [st' ls]. simpl in *.
      destruct (grows_updates (set_node (Some master_node)) ls st' (set_node_seen _))
        as (Hg' & Hlen & Hal').
      split; [eapply grows_trans; [exact Hg|exact Hg']|].
      split; [rewrite Hlen; exact Hv|congruence].
    + simpl. match goal with
      | |- context [fold_left ?f ?ls ?s] =>
          destruct (grows_updates (set_node (Some master_node)) ls s
                      (set_node_seen _)) as (Hg & Hlen & Hal)
      end.
      split; [exact Hg|]. split; [|exact Hal]. rewrite Hlen. apply Hstored.
Qed.

Lemma remote_alerts_grows (env : RunEnv) (backup_node : string) (run_on_backup : bool)
    (alert_source : AlertSource) (locked : bool) (st : State) :
  store_seen st ->
  grows st (fst (remote_alerts env backup_node run_on_backup alert_source locked st)) /\
  Forall (fun l => l < length (heap (fst (remote_alerts env backup_node run_on_backup
                                            alert_source locked st))))
         (snd (remote_alerts env backup_node run_on_backup alert_source locked st)) /\
  alerts (fst (remote_alerts env backup_node run_on_backup alert_source locked st))
  = alerts st.
Proof.
  intros Hst. unfold remote_alerts.
  assert (Hstored : forall f, Forall (fun l => l < length (heap st))
                                (List.filter f (alerts st))).
  { intros f. apply List.Forall_forall. intros l Hl. apply filter_In in Hl as [Hl _].
    apply (proj1 (List.Forall_forall _ _) Hst l Hl). }
  assert (Hkeep : forall (s : State) ls,
    heap s = heap st -> alerts s = alerts st ->
    Forall (fun l => l < length (heap st)) ls ->
    grows st (fold_left (fun st l => update (set_node (Some backup_node)) l st) ls s) /\
    Forall (fun l => l < length (heap (fold_left
              (fun st l => update (set_node (Some backup_node)) l st) ls s))) ls /\
    alerts (fold_left (fun st l => update (set_node (Some backup_node)) l st) ls s)
    = alerts st).
  { intros s ls Hh Ha Hls.
    destruct (grows_updates (set_node (Some backup_node)) ls s (set_node_seen _))
      as (Hg & Hlen & Hal).
    split; [eapply grows_trans; [apply grows_fields, Hh|exact Hg]|].
    rewrite Hlen, Hal, Hh. auto. }
  assert (Hfresh : forall fresh,
    let r := alloc_all fresh st in
    grows st (fold_left (fun st l => update (set_node (Some backup_node)) l st)
                        (snd r) (fst r)) /\
    Forall (fun l => l < length (heap (fold_left
              (fun st l => update (set_node (Some backup_node)) l st) (snd r) (fst r))))
           (snd r) /\
    alerts (fold_left (fun st l => update (set_node (Some backup_node)) l st)
                      (snd r) (fst r)) = alerts st).
  { intros fresh r. destruct (grows_alloc_all fresh st) as (Hg & Hv & Hal). fold r in Hg, Hv, Hal.
    destruct (grows_updates (set_node (Some backup_node)) (snd r) (fst r) (set_node_seen _))
      as (Hg' & Hlen & Hal').
    split; [eapply grows_trans; eassumption|]. rewrite Hlen, Hal', Hal. auto. }
  destruct (_ && _); [|simpl; split; [apply grows_refl|]; split; [constructor|reflexivity]].
  destruct locked; [simpl; apply Hkeep; auto|].
  destruct (remote_result env _) as [fresh| | |e].
  - specialize (Hfresh fresh). destruct (alloc_all fresh st) as [st' ls]. exact Hfresh.
  - simpl. apply Hkeep; auto.
  - simpl. apply Hkeep; auto.
  - match goal with
    | |- context [alloc_all ?f st] =>
        specialize (Hfresh f); destruct (alloc_all f st) as [st' ls]
    end.
    exact Hfresh.
Qed.

Lemma run_alert_source_seen (env : RunEnv) (master_node backup_node : string)
    (run_on_backup run_failover_related : bool) (st : State) (alert_source : AlertSource) :
  store_seen st ->
  store_seen (run_alert_source env master_node backup_node run_on_backup
                run_failover_related st alert_source).
Proof.
  intros Hst. unfold run_alert_source.
  destruct (negb (bool_decide _)); [exact Hst|].
  destruct (_ && _); [exact Hst|].
  destruct (negb (should_run _ _ _)); [exact Hst|].
  match goal with
  | |- context [local_alerts env master_node ?n ?s] =>
      pose proof (local_alerts_grows env master_node n s Hst) as Hl;
      destruct (local_alerts env master_node n s) as [[st1 la] locked]
  end.
  simpl in Hl. destruct Hl as (Hg1 & Hla & Hal1).
  assert (Hst1 : store_seen st1).
  { unfold store_seen. rewrite Hal1. simpl.
    apply List.Forall_forall. intros l Hl. apply Hg1.
    apply (proj1 (List.Forall_forall _ _) Hst l Hl). }
  pose proof (remote_alerts_grows env backup_node run_on_backup alert_source locked st1 Hst1)
    as Hr.
  destruct (remote_alerts env backup_node run_on_backup alert_source locked st1)
    as [st2 lb].
  simpl in Hr. destruct Hr as (Hg2 & Hlb & Hal2).
  assert (Hab : Forall (fun l => l < length (heap st2)) (la ++ lb)).
  { apply List.Forall_app. split; [|exact Hlb].
    apply List.Forall_forall. intros l Hl.
    pose proof (proj1 (List.Forall_forall _ _) Hla l Hl). destruct Hg2 as [Hlen _].
    simpl in *. lia. }
  destruct (handle_alerts_seen (handle_input env (source_name alert_source)) 0
              (la ++ lb) st2 Hab) as (Hg3 & Hseen & Hal3).
  set (st3 := handle_alerts _ 0 (la ++ lb) st2) in *.
  unfold store_seen. simpl.
  apply List.Forall_app. split; [|exact Hseen].
  apply List.Forall_forall. intros l Hl. apply filter_In in Hl as [Hl _].
  rewrite Hal3, Hal2 in Hl.
  apply Hg3, Hg2. apply (proj1 (List.Forall_forall _ _) Hst1 l Hl).
Qed.

Lemma keep_unexpired_total (utcnow : nat -> Z) (i : nat) (hp : list Alert) (ls : list loc) :
  Forall (seen hp) ls -> exists kept, keep_unexpired utcnow i hp ls = Some kept.
Proof.
  intros Hls. revert i. induction Hls as [|l ls [_ Hl] Hls IH]; simpl; intros i.
  - eauto.
  - unfold should_expire_alert.
    destruct (IH (S i)) as [kept ->].
    destruct (is_oneshot _); [|simpl; eauto].
    destruct (expires_after _); [|simpl; eauto].
    destruct (last_occurrence (obj hp l)); [simpl; eauto|congruence].
Qed.

(** A pass over a store whose alerts have a last occurrence, with the
    tables of the locks in agreement, raises no exception. *)
Lemma process_alerts_total (sources : list AlertSource) (env : PassEnv) (st : State) :
  store_seen st -> locks_consistent st ->
  exists st' called, process_alerts sources env st = Some (st', called).
Proof.
  intros Hseen Hlocks. unfold process_alerts.
  destruct (negb (should_run_or_send_alerts (status_before env))); [eauto|].
  destruct (deepcopy_spec (length (heap st)) (alerts st) [] (heap st))
    as (extra & Hh & _); [lia| |discriminate|].
  { apply List.Forall_forall. intros l Hl.
    apply (proj1 (List.Forall_forall _ _) Hseen l Hl). }
  destruct (deepcopy [] (alerts st) (heap st)) as [h1 valid_alerts]. simpl in Hh. subst h1.
  unfold run_alerts.
  destruct (unblock_expired_total (monotonic_lock (run_env env))
              (sources_locks (set_heap (heap st ++ extra) st))
              (set_heap (heap st ++ extra) st) Hlocks) as (st1 & -> & Hh1 & Ha1).
  simpl.
  assert (Hst1 : store_seen st1).
  { unfold store_seen. rewrite Hh1, Ha1. simpl.
    apply List.Forall_forall. intros l Hl. apply seen_app.
    apply (proj1 (List.Forall_forall _ _) Hseen l Hl). }
  match goal with
  | |- context [fold_left ?f sources st1] =>
      assert (Hst2 : store_seen (fold_left f sources st1));
      [|set (st2 := fold_left f sources st1) in *]
  end.
  { clear Hh1 Ha1. revert st1 Hst1.
    induction sources as [|src sources IH]; simpl; intros st1 Hst1; [exact Hst1|].
    apply IH, run_alert_source_seen, Hst1. }
  unfold expire_alerts.
  destruct (keep_unexpired_total (utcnow_expire env) 0 (heap st2) (alerts st2) Hst2)
    as [kept ->].
  simpl. destruct (negb _); eauto.
Qed.

End TotalFacts.

Section RollbackFacts.
Context `{PyNum} `{AlertBase}.

(** C6: a pass that finds the system ready when it begins and not ready
    when it looks again, after the sources were run and the alerts
    expired, leaves the store with the alerts it had, every one with the
    attributes it had when the pass began, does not call
    [alert.send_alerts], and leaves the policies as they were.  Such a
    pass does reach the second look: it raises no exception when the
    alerts of the store have a last occurrence and the tables of the
    locks agree. *)
Theorem process_alerts_rollback (sources : list AlertSource) (env : PassEnv) (st : State) :
  refs_valid st ->
  should_run_or_send_alerts (status_before env) = true ->
  should_run_or_send_alerts (status_after env) = false ->
  (forall st' called,
     process_alerts sources env st = Some (st', called) ->
     store st' = store st /\ called = false /\ policies st' = policies st) /\
  (store_seen st -> locks_consistent st ->
   exists st', process_alerts sources env st = Some (st', false)).
Proof.
  intros Hvalid Hbefore Hafter.
  assert (Hrollback : forall st' called,
            process_alerts sources env st = Some (st', called) ->
            store st' = store st /\ called = false /\ policies st' = policies st).
  { intros st' called. unfold process_alerts.
    rewrite Hbefore, Hafter. simpl.
    destruct (deepcopy_spec (length (heap st)) (alerts st) [] (heap st))
      as (extra & Hh & Hr & Hmap); [lia|exact Hvalid|discriminate|].
    destruct (deepcopy [] (alerts st) (heap st)) as [h1 valid_alerts]. simpl in *.
    assert (Hst1 : untouched h1 (length (heap st)) (length h1) (policies st)
                     (set_heap h1 st)).
    { unfold untouched. simpl. split; [lia|]. split; [auto|]. split; [|reflexivity].
      apply List.Forall_forall. intros l Hl. left.
      apply (proj1 (List.Forall_forall _ _) Hvalid l Hl). }
    destruct (run_alerts sources (run_env env) (set_heap h1 st)) as [st2|] eqn:Hrun; simpl;
      [|discriminate].
    destruct (expire_alerts (utcnow_expire env) st2) as [st3|] eqn:Hexpire; simpl;
      [|discriminate].
    intros [= <- <-].
    pose proof (untouched_expire_alerts _ _ _ _ _ _ _ Hexpire
                  (untouched_run_alerts _ _ _ _ _ _ _ _ Hrun Hst1))
      as (Htop & Hreg & _ & Hp).
    split; [|split; [reflexivity|exact Hp]].
    unfold store. cbn [set_alerts heap alerts]. rewrite <- Hmap.
    apply map_obj_ext. intros l Hl. apply obj_lookup, Hreg.
    apply (proj1 (List.Forall_forall _ _) Hr l Hl). }
  split; [exact Hrollback|].
  intros Hseen Hlocks.
  destruct (process_alerts_total sources env st Hseen Hlocks) as (st' & called & Hpass).
  destruct (Hrollback st' called Hpass) as (_ & -> & _).
  exists st'. exact Hpass.
Qed.

End RollbackFacts.

(** A pass over a blocked source, during which this node becomes the
    standby node.  The pass gives the alerts of the store a new last
    occurrence, in place; the store is then made of the copies, with the
    last occurrences of the beginning. *)
Lemma process_alerts_rollback_witness :
  exists st',
    @process_alerts Example.Z_num Example.base
      [Example.disk_source] Example.pass_env Example.blocked_state
    = Some (st', false) /\
    store st' = [Example.sda; Example.gone_c] /\
    last_occurrence (obj (heap st') 0) = Some 9001%Z.
Proof.
  assert (Hobj : (fun r => last_occurrence (obj (heap (fst r)) 0))
                 <$> @process_alerts Example.Z_num Example.base
                       [Example.disk_source] Example.pass_env Example.blocked_state
                 = Some (Some 9001%Z)) by (vm_compute; reflexivity).
  destruct (@process_alerts_rollback Example.Z_num Example.base
              [Example.disk_source] Example.pass_env Example.blocked_state)
    as (Hrollback & Htotal).
  - repeat constructor.
  - reflexivity.
  - reflexivity.
  - destruct Htotal as (st' & Hpass).
    + repeat constructor; simpl; try lia; discriminate.
    + split.
      * simpl. repeat constructor. simpl. tauto.
      * simpl. intros k n e [[= <- <- <-]|[]]. vm_compute. reflexivity.
    + rewrite Hpass in Hobj. simpl in Hobj. injection Hobj as Hobj.
      destruct (Hrollback st' false Hpass) as (Hstore & _ & _).
      exists st'. split; [exact Hpass|]. split; [|exact Hobj].
      rewrite Hstore. reflexivity.
Defined.

(** ** The alerts of one run of a source *)

Lemma unique_alerts_spec (l : list Alert) :
  forall keys : gset Key,
    sublist (unique_alerts keys l) l /\
    List.NoDup (map key (unique_alerts keys l)) /\
    (forall a, In a (unique_alerts keys l) -> key a ∉ keys) /\
    (forall a, In a l -> key a ∉ keys ->
       exists l1 a' l2,
         l = l1 ++ a' :: l2 /\ key a' = key a /\
         (forall b, In b l1 -> key b <> key a) /\
         In a' (unique_alerts keys l)).
Proof.
  induction l as [|x l IH]; intros keys; simpl.
  - split; [constructor|]. split; [constructor|]. split; intros a [].
  - destruct (IH keys) as (Hs1 & Hn1 & Hk1 & Hf1).
    destruct (IH ({[ key x ]} ∪ keys)) as (Hs2 & Hn2 & Hk2 & Hf2).
    destruct (bool_decide (key x ∈ keys)) eqn:Hx.
    + apply bool_decide_eq_true in Hx.
      split; [apply sublist_cons, Hs1|]. split; [exact Hn1|]. split; [exact Hk1|].
      intros a [<-|Hin] Hk; [contradiction|].
      destruct (Hf1 a Hin Hk) as (l1 & a' & l2 & -> & Hka & Hb & Hin').
      exists (x :: l1), a', l2.
      split; [reflexivity|]. split; [exact Hka|]. split; [|exact Hin'].
      intros b [<-|Hb']; [|auto]. intros Heq. apply Hk. rewrite <- Heq. exact Hx.
    + apply bool_decide_eq_false in Hx.
      split; [apply sublist_skip, Hs2|].
      split.
      { simpl. constructor; [|exact Hn2].
        intros Hin. apply in_map_iff in Hin as (a & Hka & Hin).
        apply (Hk2 a Hin). rewrite Hka. set_solver. }
      split.
      { intros a [<-|Hin]; [exact Hx|].
        intros Hk. apply (Hk2 a Hin). set_solver. }
      intros a Hin Hk.
      destruct (decide (key a = key x)) as [Heq|Hne].
      * exists [], x, l.
        split; [reflexivity|]. split; [congruence|]. split; [intros b []|].
        left. reflexivity.
      * destruct Hin as [<-|Hin]; [congruence|].
        assert (Hk' : key a ∉ ({[ key x ]} ∪ keys)) by set_solver.
        destruct (Hf2 a Hin Hk') as (l1 & a' & l2 & -> & Hka & Hb & Hin').
        exists (x :: l1), a', l2.
        split; [reflexivity|]. split; [exact Hka|]. split; [|right; exact Hin'].
        intros b [<-|Hb']; [congruence|auto].
Qed.

Section RunFacts.
Context `{PyNum} `{AlertBase}.

(** X1.  The alerts that [__run_source] returns have pairwise distinct
    keys and carry the name of the source, whatever the check did.  When
    the check returned a list, the result is a sub-list of it, taken in
    its order, and of the alerts of one key it holds the first one. *)
Theorem run_source_unique_keys (st : RunState) (name : string) (inp : RunInput)
    (r : list Alert) :
  snd (run_source st name inp) = Some r ->
  List.NoDup (map key r) /\
  Forall (fun a => source a = Some name) r /\
  (forall l, check inp = Returns (ReturnsList l) ->
     exists r0,
       r = map (set_source (Some name)) r0 /\ sublist r0 l /\
       forall a, In a l ->
         exists l1 a' l2,
           l = l1 ++ a' :: l2 /\ key a' = key a /\
           (forall b, In b l1 -> key b <> key a) /\ In a' r0).
Proof.
  unfold run_source.
  assert (Hgen : forall l,
            List.NoDup (map key (map (set_source (Some name)) (unique_alerts ∅ l))) /\
            Forall (fun a => source a = Some name)
                   (map (set_source (Some name)) (unique_alerts ∅ l))).
  { intros l. destruct (unique_alerts_spec l ∅) as (_ & Hn & _).
    split.
    - rewrite map_map. simpl. exact Hn.
    - apply List.Forall_forall. intros a Hin.
      apply in_map_iff in Hin as (b & <- & _). reflexivity. }
  destruct (check inp) as [v| |e] eqn:Hc; simpl.
  - intros [= <-]. destruct (Hgen match v with
                                  | ReturnsNone => []
                                  | ReturnsAlert alert => [alert]
                                  | ReturnsList alerts => alerts
                                  end) as [Hn Hs].
    split; [exact Hn|]. split; [exact Hs|].
    intros l [= ->].
    destruct (unique_alerts_spec l ∅) as (Hsub & _ & _ & Hfirst).
    exists (unique_alerts ∅ l). split; [reflexivity|]. split; [exact Hsub|].
    intros a Hin. apply Hfirst; [exact Hin|set_solver].
  - discriminate.
  - destruct (bool_decide (name ∈ alert_sources_errors st)); simpl;
      intros [= <-]; (split; [repeat constructor; simpl; tauto|]);
      (split; [repeat constructor|]); intros l Hl; discriminate.
Qed.

Lemma stat_after_run (times : list (string * Stat.t)) (name : string) (t : num) :
  let old := default Stat.initial (Dict.get times name) in
  let new := default Stat.initial (Dict.get (record_run_time name t times) name) in
  Stat.total_count new = (Stat.total_count old + 1)%Z /\
  Stat.last new = drop (length (Stat.last old) - 9) (Stat.last old) ++ [t] /\
  Stat.max new = num_max (Stat.max old) t /\
  Stat.total_time new = num_add (Stat.total_time old) t.
Proof.
  unfold record_run_time. rewrite Dict_get_set.
  destruct (decide (name = name)); [|congruence]. simpl. auto.
Qed.

Lemma run_source_times (st : RunState) (name : string) (inp : RunInput) :
  sources_run_times (fst (run_source st name inp))
  = record_run_time name (num_sub (monotonic_end inp) (monotonic_start inp))
                    (sources_run_times st).
Proof.
  unfold run_source. destruct (check inp) as [v| |e]; simpl; try reflexivity.
  destruct (bool_decide (name ∈ alert_sources_errors st)); reflexivity.
Qed.

Lemma window_step {A : Type} (l : list A) (t : A) (k : nat) :
  k = length l - 10 ->
  drop (length (drop k l) - 9) (drop k l) ++ [t]
  = drop (length (l ++ [t]) - 10) (l ++ [t]).
Proof.
  intros ->. rewrite drop_drop, length_drop, length_app. simpl.
  destruct (le_lt_dec (length l) 9) as [Hle|Hgt].
  - replace (length l - 10 + (length l - (length l - 10) - 9)) with 0 by lia.
    replace (length l + 1 - 10) with 0 by lia. reflexivity.
  - replace (length l - 10 + (length l - (length l - 10) - 9)) with (length l - 9) by lia.
    replace (length l + 1 - 10) with (length l - 9) by lia.
    rewrite drop_app_le by lia. reflexivity.
Qed.

Lemma window_app {A : Type} (l : list A) (t : A) (rest : list A) :
  drop (length ((drop (length l - 9) l ++ [t]) ++ rest) - 10)
       ((drop (length l - 9) l ++ [t]) ++ rest)
  = drop (length (l ++ t :: rest) - 10) (l ++ t :: rest).
Proof.
  destruct (le_lt_dec (length l) 9) as [Hle|Hgt].
  - replace (length l - 9) with 0 by lia. simpl.
    rewrite <- app_assoc. reflexivity.
  - assert (E : l ++ t :: rest
                = take (length l - 9) l ++ ((drop (length l - 9) l ++ [t]) ++ rest)).
    { rewrite <- !app_assoc. simpl. rewrite app_assoc, take_drop. reflexivity. }
    rewrite E.
    assert (Hx : 10 <= length ((drop (length l - 9) l ++ [t]) ++ rest)).
    { rewrite !length_app, length_drop. simpl. lia. }
    set (X := (drop (length l - 9) l ++ [t]) ++ rest) in *.
    assert (Hp : length (take (length l - 9) l) = length l - 9).
    { rewrite length_take. lia. }
    rewrite length_app, drop_app_ge by lia.
    f_equal. lia.
Qed.

(** X2.  Every run of a source is counted, whatever its check did, and of
    the durations of the runs the ten latest ones are kept, in their
    order: after the runs [inps], the count of the source has grown by
    their number, and [last] holds the ten latest of the durations that it
    held followed by the durations of the runs. *)
Theorem run_times_window (st : RunState) (name : string) (inps : list RunInput) :
  inps <> [] ->
  let st' := fst (run_source_each st name inps) in
  let old := default Stat.initial (Dict.get (sources_run_times st) name) in
  let new := default Stat.initial (Dict.get (sources_run_times st') name) in
  let all :=
    Stat.last old
    ++ map (fun inp => num_sub (monotonic_end inp) (monotonic_start inp)) inps in
  Stat.total_count new = (Stat.total_count old + Z.of_nat (length inps))%Z /\
  Stat.last new = drop (length all - 10) all /\
  length (Stat.last new) <= 10.
Proof.
  intros Hne. cbv zeta.
  assert (Hgen : forall inps st (seen : list num),
            Stat.last (default Stat.initial (Dict.get (sources_run_times st) name))
            = drop (length seen - 10) seen ->
            let st' := fst (run_source_each st name inps) in
            let all :=
              seen ++ map (fun inp => num_sub (monotonic_end inp) (monotonic_start inp))
                          inps in
            Stat.total_count
              (default Stat.initial (Dict.get (sources_run_times st') name))
            = (Stat.total_count
                 (default Stat.initial (Dict.get (sources_run_times st) name))
               + Z.of_nat (length inps))%Z /\
            Stat.last (default Stat.initial (Dict.get (sources_run_times st') name))
            = drop (length all - 10) all).
  { clear. intros inps. induction inps as [|inp inps IH]; intros st seen Hseen; simpl.
    - rewrite app_nil_r. split; [lia|exact Hseen].
    - destruct (run_source st name inp) as [st1 result] eqn:Hrun.
      destruct (run_source_each st1 name inps) as [st2 results] eqn:Heach. simpl.
      pose proof (run_source_times st name inp) as Ht. rewrite Hrun in Ht. simpl in Ht.
      destruct (stat_after_run (sources_run_times st) name
                  (num_sub (monotonic_end inp) (monotonic_start inp)))
        as (Hc & Hl & _).
      rewrite <- Ht in Hc, Hl.
      specialize (IH st1 (seen ++ [num_sub (monotonic_end inp) (monotonic_start inp)])).
      rewrite Heach in IH. simpl in IH.
      destruct IH as [IHc IHl].
      + rewrite Hl, Hseen. apply window_step. reflexivity.
      + split.
        * rewrite IHc, Hc. lia.
        * rewrite IHl, <- app_assoc. reflexivity. }
  destruct inps as [|inp inps]; [congruence|]. clear Hne.
  simpl.
  destruct (run_source st name inp) as [st1 result] eqn:Hrun.
  destruct (run_source_each st1 name inps) as [st2 results] eqn:Heach. simpl.
  pose proof (run_source_times st name inp) as Ht. rewrite Hrun in Ht. simpl in Ht.
  destruct (stat_after_run (sources_run_times st) name
              (num_sub (monotonic_end inp) (monotonic_start inp)))
    as (Hc & Hl & _).
  rewrite <- Ht in Hc, Hl.
  set (old := default Stat.initial (Dict.get (sources_run_times st) name)) in *.
  set (t := num_sub (monotonic_end inp) (monotonic_start inp)) in *.
  destruct (Hgen inps st1 (drop (length (Stat.last old) - 9) (Stat.last old) ++ [t]))
    as [Gc Gl].
  { rewrite Hl.
    replace (length (drop (length (Stat.last old) - 9) (Stat.last old) ++ [t]) - 10)
      with 0; [reflexivity|].
    rewrite length_app, length_drop. simpl. lia. }
  rewrite Heach in Gc, Gl. simpl in Gc, Gl.
  pose proof (window_app (Stat.last old) t
                (map (fun inp => num_sub (monotonic_end inp) (monotonic_start inp)) inps))
    as Hall.
  split; [rewrite Gc, Hc; lia|].
  split; [rewrite Gl; exact Hall|].
  rewrite Gl, length_drop.
  rewrite !length_app, length_drop. simpl. rewrite length_map. lia.
Qed.

End RunFacts.

Lemma run_source_unique_keys_witness :
  snd (@run_source Example.Z_num Example.base Example.run_state0 "disk"
         (@mkRunInput Example.Z_num
            (Returns (ReturnsList [Example.sda_seen; Example.sdb_seen; Example.sda_seen]))
            (3%Z : @num Example.Z_num) (5%Z : @num Example.Z_num)))
  = Some [Example.sda_seen; Example.sdb_seen] /\
  List.NoDup (map key [Example.sda_seen; Example.sdb_seen]).
Proof.
  split; [reflexivity|].
  apply (@run_source_unique_keys Example.Z_num Example.base Example.run_state0 "disk"
           (@mkRunInput Example.Z_num
              (Returns (ReturnsList [Example.sda_seen; Example.sdb_seen; Example.sda_seen]))
              (3%Z : @num Example.Z_num) (5%Z : @num Example.Z_num))).
  reflexivity.
Defined.

Lemma run_times_window_witness :
  Stat.total_count
    (default (@Stat.initial Example.Z_num)
       (Dict.get
          (sources_run_times
             (fst (@run_source_each Example.Z_num Example.base Example.run_state0 "disk"
                     [Example.failing; Example.failing; Example.failing])))
          "disk"))
  = 3%Z.
Proof.
  apply (@run_times_window Example.Z_num Example.base Example.run_state0 "disk"
           [Example.failing; Example.failing; Example.failing]).
  discriminate.
Defined.

(** ** Expiry *)

Lemma keep_unexpired_spec (utcnow : nat -> Z) (h : list Alert) (ls : list loc) :
  forall (i : nat) (kept : list loc),
    keep_unexpired utcnow i h ls = Some kept ->
    sublist kept ls /\
    (forall l, In l kept ->
       exists j, ls !! j = Some l /\
                 should_expire_alert (utcnow (i + j)) (obj h l) = Some false) /\
    (forall j l, ls !! j = Some l ->
       should_expire_alert (utcnow (i + j)) (obj h l) = Some false -> In l kept).
Proof.
  induction ls as [|x ls IH]; intros i kept; simpl.
  - intros [= <-]. split; [constructor|]. split; [intros l []|].
    intros j l Hj. discriminate.
  - destruct (should_expire_alert (utcnow i) (obj h x)) as [expire|] eqn:Hx;
      [|discriminate].
    destruct (keep_unexpired utcnow (S i) h ls) as [kept'|] eqn:Hk; simpl;
      [|discriminate].
    destruct (IH (S i) kept' Hk) as (Hsub & Hin & Hkeep).
    intros [= <-].
    assert (Hshift : forall j, S i + j = i + S j) by (intros; lia).
    destruct expire.
    + split; [apply sublist_cons, Hsub|]. split.
      * intros l Hl. destruct (Hin l Hl) as (j & Hj & He).
        exists (S j). rewrite <- Hshift. auto.
      * intros [|j] l Hj He; simpl in Hj.
        -- injection Hj as ->. rewrite Nat.add_0_r in He. congruence.
        -- apply (Hkeep j l Hj). rewrite Hshift. exact He.
    + split; [apply sublist_skip, Hsub|]. split.
      * intros l [<-|Hl].
        -- exists 0. rewrite Nat.add_0_r. auto.
        -- destruct (Hin l Hl) as (j & Hj & He).
           exists (S j). rewrite <- Hshift. auto.
      * intros [|j] l Hj He; simpl in Hj.
        -- injection Hj as ->. left. reflexivity.
        -- right. apply (Hkeep j l Hj). rewrite Hshift. exact He.
Qed.

Section ExpireFacts.
Context `{PyNum}.

(** X3.  [__expire_alerts] succeeds on a store whose alerts all have a
    last occurrence, changes no alert object and no policy, and keeps the
    alerts in their order.  The [i]-th alert is kept exactly when the test
    made for it at the reading [utcnow i] of the clock says that it has
    not expired; an alert whose class is not a one-shot class, or sets no
    [expires_after], is always kept. *)
Theorem expire_alerts_keeps (utcnow : nat -> Z) (st : State) :
  store_seen st ->
  exists st',
    expire_alerts utcnow st = Some st' /\
    heap st' = heap st /\ policies st' = policies st /\
    sublist (alerts st') (alerts st) /\
    (forall l, In l (alerts st') ->
       exists i, alerts st !! i = Some l /\
                 should_expire_alert (utcnow i) (obj (heap st) l) = Some false) /\
    (forall i l, alerts st !! i = Some l ->
       should_expire_alert (utcnow i) (obj (heap st) l) = Some false ->
       In l (alerts st')) /\
    (forall l, In l (alerts st) ->
       is_oneshot (klass (obj (heap st) l)) = false \/
       expires_after (klass (obj (heap st) l)) = None ->
       In l (alerts st')).
Proof.
  intros Hseen. unfold expire_alerts.
  destruct (keep_unexpired_total utcnow 0 (heap st) (alerts st) Hseen) as [kept Hk].
  rewrite Hk. simpl.
  destruct (keep_unexpired_spec utcnow (heap st) (alerts st) 0 kept Hk)
    as (Hsub & Hin & Hkeep).
  exists (set_alerts kept st).
  split; [reflexivity|]. split; [reflexivity|]. split; [reflexivity|].
  split; [exact Hsub|]. split; [exact Hin|]. split; [exact Hkeep|].
  intros l Hl Hclass.
  apply list_elem_of_In, list_elem_of_lookup in Hl as [i Hi].
  apply (Hkeep i l Hi). simpl.
  unfold should_expire_alert.
  destruct Hclass as [-> | ->]; [reflexivity|].
  destruct (is_oneshot _); reflexivity.
Qed.

End ExpireFacts.

Lemma expire_alerts_keeps_witness :
  exists st',
    @expire_alerts Example.Z_num (fun _ => 9500%Z) Example.state = Some st' /\
    In 0 (alerts st').
Proof.
  destruct (@expire_alerts_keeps Example.Z_num (fun _ => 9500%Z) Example.state)
    as (st' & Hst & _ & _ & _ & _ & _ & Hkeep).
  - repeat constructor; simpl; discriminate.
  - exists st'. split; [exact Hst|].
    apply Hkeep; [left; reflexivity|left; reflexivity].
Defined.

(** ** The locks on the sources *)

Section DictMore.
Context {K V : Type} `{EqDecision K}.

Lemma Dict_set_NoDup (d : list (K * V)) (k : K) (v : V) :
  List.NoDup (Dict.keys d) -> List.NoDup (Dict.keys (Dict.set d k v)).
Proof.
  unfold Dict.keys. induction d as [|[k0 v0] d IH]; simpl; intros Hnd.
  - repeat constructor. simpl. tauto.
  - apply List.NoDup_cons_iff in Hnd as [Hk0 Hnd].
    destruct (decide (k = k0)) as [->|Hne]; simpl.
    + constructor; assumption.
    + constructor; [|apply IH, Hnd].
      intros Hin. apply (Dict_keys_set d k v k0) in Hin as [Heq|Hin]; [congruence|].
      apply Hk0, Hin.
Qed.

Lemma Dict_of_list_keys_NoDup (kvs : list (K * V)) :
  List.NoDup (Dict.keys (Dict.of_list kvs)).
Proof.
  unfold Dict.of_list.
  assert (Hgen : forall d, List.NoDup (Dict.keys d) ->
            List.NoDup (Dict.keys (fold_left (fun d kv => Dict.set d (fst kv) (snd kv))
                                             kvs d))).
  { induction kvs as [|kv kvs IH]; simpl; intros d Hd; [exact Hd|].
    apply IH, Dict_set_NoDup, Hd. }
  apply Hgen. constructor.
Qed.

Lemma Dict_pop_set_fresh (d : list (K * V)) (k : K) (v : V) :
  ~ In k (Dict.keys d) -> Dict.pop (Dict.set d k v) k = d.
Proof.
  unfold Dict.keys. induction d as [|[k0 v0] d IH]; simpl; intros Hk.
  - destruct (decide (k = k)); [reflexivity|congruence].
  - destruct (decide (k = k0)) as [->|Hne]; [tauto|]. simpl.
    destruct (decide (k = k0)); [congruence|].
    rewrite IH by tauto. reflexivity.
Qed.

Lemma Dict_pop_In_iff (d : list (K * V)) (k k' : K) (v : V) :
  List.NoDup (Dict.keys d) ->
  In (k', v) (Dict.pop d k) <-> In (k', v) d /\ k' <> k.
Proof.
  unfold Dict.keys. induction d as [|[k0 v0] d IH]; simpl; intros Hnd; [tauto|].
  apply List.NoDup_cons_iff in Hnd as [Hk0 Hnd].
  destruct (decide (k = k0)) as [->|Hne].
  - split.
    + intros Hin. split; [auto|]. intros ->. apply Hk0.
      apply in_map_iff. exists (k0, v). auto.
    + intros [[[= -> ->]|Hin] Hk]; [congruence|exact Hin].
  - simpl. rewrite (IH Hnd). split.
    + intros [[= -> ->]|[Hin Hk]]; auto.
    + intros [[[= -> ->]|Hin] Hk]; auto.
Qed.

Lemma Dict_get_None (d : list (K * V)) (k : K) :
  Dict.get d k = None <-> ~ In k (Dict.keys d).
Proof.
  rewrite <- Dict_mem_false. unfold Dict.mem.
  destruct (Dict.get d k); split; congruence.
Qed.

Lemma Dict_In_get (d : list (K * V)) (k : K) (v : V) :
  List.NoDup (Dict.keys d) -> In (k, v) d -> Dict.get d k = Some v.
Proof.
  unfold Dict.keys. induction d as [|[k0 v0] d IH]; simpl; intros Hnd; [tauto|].
  apply List.NoDup_cons_iff in Hnd as [Hk0 Hnd].
  intros [[= -> ->]|Hin].
  - destruct (decide (k = k)); [reflexivity|congruence].
  - destruct (decide (k = k0)) as [->|Hne]; [|auto].
    exfalso. apply Hk0. apply in_map_iff. exists (k0, v). auto.
Qed.

End DictMore.

Section LockFacts.
Context `{PyNum}.

Lemma unblock_source_spec (k : string) (st : State) :
  locks_consistent st ->
  exists st',
    unblock_source k st = Some st' /\ locks_consistent st' /\
    (forall k' v, In (k', v) (sources_locks st') <-> In (k', v) (sources_locks st) /\ k' <> k) /\
    (forall n k', k' ∈ default ∅ (blocked_sources st' !! n) ->
                  k' ∈ default ∅ (blocked_sources st !! n)) /\
    (forall n k', k' <> k -> k' ∈ default ∅ (blocked_sources st !! n) ->
                  k' ∈ default ∅ (blocked_sources st' !! n)) /\
    (forall n e, In (k, (n, e)) (sources_locks st) ->
                 k ∉ default ∅ (blocked_sources st' !! n)) /\
    (Dict.get (sources_locks st) k = None -> st' = st).
Proof.
  intros Hst. pose proof Hst as [Hnd Hin].
  destruct (unblock_source_consistent k st Hst) as (st' & Hun & Hst' & _).
  exists st'. split; [exact Hun|]. split; [exact Hst'|].
  unfold unblock_source in Hun.
  destruct (Dict.get (sources_locks st) k) as [[n e]|] eqn:Hget.
  - pose proof (Dict_get_In_pair _ _ _ Hget) as Hk.
    rewrite (bool_decide_eq_true_2 _ (Hin k n e Hk)) in Hun.
    injection Hun as <-. simpl.
    split; [intros k' v; apply Dict_pop_In_iff, Hnd|].
    split.
    { intros n' k'. destruct (decide (n = n')) as [->|Hne].
      - rewrite lookup_insert_eq. simpl. set_solver.
      - rewrite lookup_insert_ne by exact Hne. auto. }
    split.
    { intros n' k' Hk'. destruct (decide (n = n')) as [->|Hne].
      - rewrite lookup_insert_eq. simpl. set_solver.
      - rewrite lookup_insert_ne by exact Hne. auto. }
    split; [|discriminate].
    intros n' e' Hin'.
    pose proof (Dict_In_get _ _ _ Hnd Hin') as Hget'.
    rewrite Hget in Hget'. injection Hget' as <- <-.
    rewrite lookup_insert_eq. simpl. set_solver.
  - injection Hun as <-.
    apply Dict_get_None in Hget.
    split.
    { intros k' v. split; [|tauto]. intros Hk'. split; [exact Hk'|].
      intros ->. apply Hget. apply in_map_iff. exists (k, v). auto. }
    split; [auto|]. split; [auto|]. split; [|reflexivity].
    intros n e Hk. exfalso. apply Hget. apply in_map_iff. exists (k, (n, e)). auto.
Qed.

(** X4.  [block_source] refuses a source that is not registered.  For a
    registered one it returns the lock, under which the lock table then
    holds the source and the expiry (the reading of the clock plus the
    timeout), and the source is blocked by it; the locks of the other
    sources, the alerts and the policies are as before, and the two lock
    tables still agree. *)
Theorem block_source_blocks (sources : list AlertSource) (lock : string)
    (monotonic : num) (st : State) (name : string) (timeout : num) :
  locks_consistent st ->
  match block_source sources lock monotonic st name timeout with
  | BlockError _ => ~ In name (map source_name sources)
  | Blocked st' lock' =>
      In name (map source_name sources) /\ lock' = lock /\
      locks_consistent st' /\
      Dict.get (sources_locks st') lock = Some (name, num_add monotonic timeout) /\
      default ∅ (blocked_sources st' !! name)
      = {[ lock ]} ∪ default ∅ (blocked_sources st !! name) /\
      (forall other, other <> name ->
                     blocked_sources st' !! other = blocked_sources st !! other) /\
      (forall k v, k <> lock ->
                   In (k, v) (sources_locks st') <-> In (k, v) (sources_locks st)) /\
      heap st' = heap st /\ alerts st' = alerts st /\ policies st' = policies st
  end.
Proof.
  intros [Hnd Hin]. unfold block_source.
  destruct (bool_decide (name ∈ map source_name sources)) eqn:Hreg; simpl.
  - apply bool_decide_eq_true, list_elem_of_In in Hreg.
    split; [exact Hreg|]. split; [reflexivity|].
    split.
    { split; simpl.
      - apply Dict_set_NoDup, Hnd.
      - intros k n e Hk. apply Dict_In_set in Hk as [[-> [= -> ->]]|Hk].
        + rewrite lookup_insert_eq. simpl. set_solver.
        + specialize (Hin k n e Hk).
          destruct (decide (name = n)) as [->|Hne].
          * rewrite lookup_insert_eq. simpl. set_solver.
          * rewrite lookup_insert_ne by exact Hne. exact Hin. }
    split.
    { rewrite Dict_get_set. destruct (decide (lock = lock)); [reflexivity|congruence]. }
    split; [rewrite lookup_insert_eq; reflexivity|].
    split; [intros other Hne; apply lookup_insert_ne; congruence|].
    split; [|auto].
    intros k v Hk. split.
    + intros Hs. apply Dict_In_set in Hs as [[-> _]|Hs]; [congruence|exact Hs].
    + revert Hk. clear. intros Hk.
      induction (sources_locks st) as [|[k0 v0] d IH]; simpl; [tauto|].
      destruct (decide (lock = k0)) as [->|Hne]; simpl.
      * intros [[= -> ->]|Hd]; [congruence|auto].
      * intros [Heq|Hd]; auto.
  - apply bool_decide_eq_false in Hreg. intros Hn. apply Hreg, list_elem_of_In, Hn.
Qed.

(** X5.  Unblocking undoes blocking: when [block_source] is given a lock
    that is not in use, unblocking it right away gives back the lock table
    as it was, and every source has the locks that it had; nothing else of
    the state has changed. *)
Theorem block_then_unblock (sources : list AlertSource) (lock : string)
    (monotonic : num) (st : State) (name : string) (timeout : num) :
  In name (map source_name sources) ->
  ~ In lock (Dict.keys (sources_locks st)) ->
  lock ∉ default ∅ (blocked_sources st !! name) ->
  exists st1 st2,
    block_source sources lock monotonic st name timeout = Blocked st1 lock /\
    unblock_source lock st1 = Some st2 /\
    sources_locks st2 = sources_locks st /\
    (forall n, default ∅ (blocked_sources st2 !! n)
               = default ∅ (blocked_sources st !! n)) /\
    heap st2 = heap st /\ alerts st2 = alerts st /\ policies st2 = policies st /\
    alert_source_last_run st2 = alert_source_last_run st /\
    run_state st2 = run_state st.
Proof.
  intros Hreg Hfresh Hset. unfold block_source.
  rewrite bool_decide_eq_true_2 by (apply list_elem_of_In, Hreg). simpl.
  eexists. eexists. split; [reflexivity|].
  unfold unblock_source. simpl.
  rewrite Dict_get_set. destruct (decide (lock = lock)); [|congruence].
  rewrite lookup_insert_eq. simpl.
  rewrite bool_decide_eq_true_2 by set_solver.
  split; [reflexivity|]. simpl.
  split; [apply Dict_pop_set_fresh, Hfresh|].
  split; [|auto 10].
  intros n. destruct (decide (name = n)) as [->|Hne].
  - rewrite lookup_insert_eq. simpl. set_solver.
  - rewrite !lookup_insert_ne by exact Hne. reflexivity.
Qed.

(** X6.  [unblock_source] releases one lock and nothing else: on a state
    whose lock tables agree it does not raise, the lock is then in neither
    table, every other lock is where it was - so that a source which has
    another lock stays blocked - and a lock that the table does not hold
    leaves the state as it is. *)
Theorem unblock_source_releases_one (k : string) (st : State) :
  locks_consistent st ->
  exists st',
    unblock_source k st = Some st' /\ locks_consistent st' /\
    ~ In k (Dict.keys (sources_locks st')) /\
    (forall n e, In (k, (n, e)) (sources_locks st) ->
                 k ∉ default ∅ (blocked_sources st' !! n)) /\
    (forall k' v, k' <> k ->
       (In (k', v) (sources_locks st') <-> In (k', v) (sources_locks st))) /\
    (forall n k', k' <> k ->
       (k' ∈ default ∅ (blocked_sources st' !! n)
        <-> k' ∈ default ∅ (blocked_sources st !! n))) /\
    (~ In k (Dict.keys (sources_locks st)) -> st' = st).
Proof.
  intros Hst.
  destruct (unblock_source_spec k st Hst)
    as (st' & Hun & Hst' & Hlocks & Hsub & Hkeep & Hgone & Hnone).
  exists st'. split; [exact Hun|]. split; [exact Hst'|].
  split.
  { intros Hk. apply in_map_iff in Hk as ([k0 v] & Heq & Hk). simpl in Heq. subst k0.
    apply Hlocks in Hk. tauto. }
  split; [exact Hgone|].
  split.
  { intros k' v Hne. rewrite Hlocks. tauto. }
  split.
  { intros n k' Hne. split; [apply Hsub|apply Hkeep, Hne]. }
  intros Hk. apply Hnone, Dict_get_None, Hk.
Qed.

Lemma unblock_expired_spec (monotonic : string -> num)
    (items : list (string * (string * num))) :
  forall st : State,
    locks_consistent st ->
    exists st',
      unblock_expired monotonic items st = Some st' /\ locks_consistent st' /\
      (forall k v, In (k, v) (sources_locks st') <->
                   In (k, v) (sources_locks st) /\
                   ~ exists n e, In (k, (n, e)) items /\
                                 num_leb e (monotonic k) = true) /\
      (forall n k, k ∈ default ∅ (blocked_sources st' !! n) ->
                   k ∈ default ∅ (blocked_sources st !! n)) /\
      (forall n k, k ∈ default ∅ (blocked_sources st !! n) ->
                   (~ exists n' e, In (k, (n', e)) items /\
                                   num_leb e (monotonic k) = true) ->
                   k ∈ default ∅ (blocked_sources st' !! n)) /\
      (forall k n e, In (k, (n, e)) items -> num_leb e (monotonic k) = true ->
                     In (k, (n, e)) (sources_locks st) ->
                     k ∉ default ∅ (blocked_sources st' !! n)) /\
      heap st' = heap st /\ alerts st' = alerts st /\ policies st' = policies st.
Proof.
  induction items as [|[k [n e]] items IH]; simpl; intros st Hst.
  - exists st. split; [reflexivity|]. split; [exact Hst|].
    split; [intros k v; split; [intros Hk; split; [exact Hk|]|tauto]|].
    { intros (n & e & [] & _). }
    split; [auto|]. split; [auto|]. split; [intros k n e []|auto].
  - destruct (num_leb e (monotonic k)) eqn:He; simpl.
    + destruct (unblock_source_spec k st Hst)
        as (st1 & Hun & Hst1 & Hlocks & Hsub & Hkeep & Hgone & _).
      rewrite Hun. simpl.
      assert (Hf : heap st1 = heap st /\ alerts st1 = alerts st
                   /\ policies st1 = policies st).
      { revert Hun. unfold unblock_source.
        destruct (Dict.get (sources_locks st) k) as [[n0 e0]|];
          [destruct (bool_decide _)|]; intros [= <-]; auto. }
      destruct Hf as (Hh1 & Ha1 & Hp1).
      destruct (IH st1 Hst1) as (st' & Hrun & Hst' & Hl' & Hsub' & Hkeep' & Hgone' & Hh & Ha & Hp).
      exists st'. split; [exact Hrun|]. split; [exact Hst'|].
      split.
      { intros k' v. rewrite Hl', Hlocks. split.
        - intros [[Hk' Hne] Hno]. split; [exact Hk'|].
          intros (n' & e' & [[= -> -> ->]|Hin'] & He'); [congruence|].
          apply Hno. eauto.
        - intros [Hk' Hno]. split; [split; [exact Hk'|]|].
          + intros ->. apply Hno. exists n, e. auto.
          + intros (n' & e' & Hin' & He'). apply Hno. eauto. }
      split; [intros n' k' Hk'; apply Hsub, Hsub', Hk'|].
      split.
      { intros n' k' Hk' Hno. apply Hkeep'.
        - apply Hkeep; [|exact Hk']. intros ->. apply Hno. exists n, e. auto.
        - intros (n0 & e0 & Hin0 & He0). apply Hno. eauto. }
      split; [|split; [congruence|split; congruence]].
      intros k' n' e' [[= -> -> ->]|Hin'] He' Hk'.
      * intros Hbad. apply (Hgone n' e' Hk'). apply Hsub', Hbad.
      * destruct (decide (k' = k)) as [->|Hne].
        -- intros Hbad. apply (Hgone n' e' Hk'). apply Hsub', Hbad.
        -- apply (Hgone' k' n' e' Hin' He'). apply Hlocks. auto.
    + destruct (IH st Hst) as (st' & Hrun & Hst' & Hl' & Hsub' & Hkeep' & Hgone' & Hh & Ha & Hp).
      exists st'. split; [exact Hrun|]. split; [exact Hst'|].
      split.
      { intros k' v. rewrite Hl'. split.
        - intros [Hk' Hno]. split; [exact Hk'|].
          intros (n' & e' & [[= -> -> ->]|Hin'] & He'); [congruence|].
          apply Hno. eauto.
        - intros [Hk' Hno]. split; [exact Hk'|].
          intros (n' & e' & Hin' & He'). apply Hno. eauto. }
      split; [exact Hsub'|].
      split.
      { intros n' k' Hk' Hno. apply Hkeep'; [exact Hk'|].
        intros (n0 & e0 & Hin0 & He0). apply Hno. eauto. }
      split; [|auto].
      intros k' n' e' [[= -> -> ->]|Hin'] He' Hk'; [congruence|].
      apply (Hgone' k' n' e' Hin' He' Hk').
Qed.

(** X7.  The sweep at the beginning of [__run_alerts] releases the locks
    that have expired and keeps the others: on a state whose lock tables
    agree it does not raise; afterwards the lock table holds exactly the
    locks whose expiry is later than the reading of the clock made for
    them, such a lock still blocks its source, and an expired lock is in
    the set of no source that it blocked. *)
Theorem unblock_expired_sweeps (monotonic : string -> num) (st : State) :
  locks_consistent st ->
  exists st',
    unblock_expired monotonic (sources_locks st) st = Some st' /\
    locks_consistent st' /\
    (forall k n e, In (k, (n, e)) (sources_locks st') <->
                   In (k, (n, e)) (sources_locks st) /\
                   num_leb e (monotonic k) = false) /\
    (forall k n e, In (k, (n, e)) (sources_locks st) ->
                   num_leb e (monotonic k) = false ->
                   k ∈ default ∅ (blocked_sources st' !! n)) /\
    (forall k n e, In (k, (n, e)) (sources_locks st) ->
                   num_leb e (monotonic k) = true ->
                   k ∉ default ∅ (blocked_sources st' !! n)) /\
    heap st' = heap st /\ alerts st' = alerts st /\ policies st' = policies st.
Proof.
  intros Hst. pose proof Hst as [Hnd Hin].
  destruct (unblock_expired_spec monotonic (sources_locks st) st Hst)
    as (st' & Hrun & Hst' & Hlocks & Hsub & Hkeep & Hgone & Hrest).
  assert (Hexp : forall k n e, In (k, (n, e)) (sources_locks st) ->
            ((exists n' e', In (k, (n', e')) (sources_locks st) /\
                            num_leb e' (monotonic k) = true)
             <-> num_leb e (monotonic k) = true)).
  { intros k n e Hk. split; [|eauto].
    intros (n' & e' & Hk' & He').
    pose proof (Dict_In_get _ _ _ Hnd Hk) as G1.
    pose proof (Dict_In_get _ _ _ Hnd Hk') as G2.
    rewrite G1 in G2. injection G2 as <- <-. exact He'. }
  exists st'. split; [exact Hrun|]. split; [exact Hst'|].
  split.
  { intros k n e. rewrite Hlocks. split.
    - intros [Hk Hno]. split; [exact Hk|].
      destruct (num_leb e (monotonic k)) eqn:He; [|reflexivity].
      exfalso. apply Hno. eauto.
    - intros [Hk He]. split; [exact Hk|].
      intros Hex. apply (Hexp k n e Hk) in Hex. congruence. }
  split.
  { intros k n e Hk He. apply Hkeep; [apply (Hin k n e Hk)|].
    intros Hex. apply (Hexp k n e Hk) in Hex. congruence. }
  split; [|exact Hrest].
  intros k n e Hk He. apply (Hgone k n e Hk He Hk).
Qed.

End LockFacts.

Lemma block_source_blocks_witness :
  locks_consistent Sample.locked_state /\
  match @block_source Example.Z_num [Example.disk_source] "second" (50%Z : @num Example.Z_num)
          Sample.locked_state "disk" (3600%Z : @num Example.Z_num) with
  | BlockError _ => False
  | Blocked st' _ =>
      Dict.get (sources_locks st') "second" = Some ("disk", 3650%Z) /\
      default ∅ (blocked_sources st' !! "disk")
      = {[ "second" ]} ∪ default ∅ (blocked_sources Sample.locked_state !! "disk")
  end.
Proof.
  assert (Hst : locks_consistent Sample.locked_state).
  { split.
    - simpl. repeat constructor. simpl. tauto.
    - simpl. intros k n e [[= <- <- <-]|[]]. vm_compute. reflexivity. }
  split; [exact Hst|].
  pose proof (@block_source_blocks Example.Z_num [Example.disk_source] "second"
                (50%Z : @num Example.Z_num) Sample.locked_state "disk"
                (3600%Z : @num Example.Z_num) Hst) as Hb.
  destruct (@block_source Example.Z_num [Example.disk_source] "second"
              (50%Z : @num Example.Z_num) Sample.locked_state "disk"
              (3600%Z : @num Example.Z_num)) as [msg|st' lock'].
  - apply Hb. simpl. auto.
  - destruct Hb as (_ & _ & _ & Hget & Hset & _). split; [exact Hget|exact Hset].
Defined.

Lemma block_then_unblock_witness :
  exists st1 st2,
    @block_source Example.Z_num [Example.disk_source] "second" (50%Z : @num Example.Z_num)
      Sample.locked_state "disk" (3600%Z : @num Example.Z_num) = Blocked st1 "second" /\
    unblock_source "second" st1 = Some st2 /\
    sources_locks st2 = sources_locks Sample.locked_state.
Proof.
  destruct (@block_then_unblock Example.Z_num [Example.disk_source] "second"
              (50%Z : @num Example.Z_num) Sample.locked_state "disk"
              (3600%Z : @num Example.Z_num))
    as (st1 & st2 & Hb & Hu & Hl & _).
  - simpl. auto.
  - simpl. intros [Heq|[]]. discriminate.
  - vm_compute. intros Hin. discriminate.
  - exists st1, st2. auto.
Defined.

Lemma unblock_source_releases_one_witness :
  exists st',
    unblock_source "lock" Sample.locked_state = Some st' /\
    ~ In "lock" (Dict.keys (sources_locks st')).
Proof.
  destruct (@unblock_source_releases_one Example.Z_num "lock" Sample.locked_state)
    as (st' & Hu & _ & Hk & _).
  - split.
    + simpl. repeat constructor. simpl. tauto.
    + simpl. intros k n e [[= <- <- <-]|[]]. vm_compute. reflexivity.
  - exists st'. auto.
Defined.

Lemma unblock_expired_sweeps_witness :
  exists st',
    unblock_expired (fun _ => (100%Z : @num Example.Z_num))
      (sources_locks Sample.locked_state) Sample.locked_state = Some st' /\
    "lock" ∉ default ∅ (blocked_sources st' !! "disk").
Proof.
  destruct (@unblock_expired_sweeps Example.Z_num (fun _ => (100%Z : @num Example.Z_num))
              Sample.locked_state)
    as (st' & Hu & _ & _ & _ & Hgone & _).
  - split.
    + simpl. repeat constructor. simpl. tauto.
    + simpl. intros k n e [[= <- <- <-]|[]]. vm_compute. reflexivity.
  - exists st'. split; [exact Hu|].
    apply (Hgone "lock" "disk" (100%Z : @num Example.Z_num)); [left; reflexivity|reflexivity].
Defined.

(** ** The run of one source *)

Lemma handle_alert_source (s : list Alert) (inp : HandleInput) (a : Alert) :
  source (handle_alert s inp a) = source a.
Proof. unfold handle_alert. destruct (List.find _ s); reflexivity. Qed.

Section RunFrame.
Context `{PyNum} `{AlertBase}.

Lemma update_fields (f : Alert -> Alert) (l : loc) (st : State) :
  length (heap (update f l st)) = length (heap st) /\
  alerts (update f l st) = alerts st /\
  run_state (update f l st) = run_state st /\
  tables (update f l st) = tables st.
Proof. unfold update. simpl. rewrite length_insert. auto. Qed.

Lemma updates_fields (f : Alert -> Alert) (ls : list loc) (st : State) :
  length (heap (fold_left (fun st l => update f l st) ls st)) = length (heap st) /\
  alerts (fold_left (fun st l => update f l st) ls st) = alerts st /\
  run_state (fold_left (fun st l => update f l st) ls st) = run_state st /\
  tables (fold_left (fun st l => update f l st) ls st) = tables st.
Proof.
  revert st. induction ls as [|l ls IH]; simpl; intros st; [auto|].
  destruct (IH (update f l st)) as (-> & -> & -> & ->). apply update_fields.
Qed.

Lemma handle_alerts_fields (inp : nat -> HandleInput) (i : nat) (ls : list loc)
    (st : State) :
  length (heap (handle_alerts inp i ls st)) = length (heap st) /\
  alerts (handle_alerts inp i ls st) = alerts st /\
  run_state (handle_alerts inp i ls st) = run_state st /\
  tables (handle_alerts inp i ls st) = tables st.
Proof.
  revert i st. induction ls as [|l ls IH]; simpl; intros i st; [auto|].
  destruct (IH (S i) (update (handle_alert (store st) (inp i)) l st))
    as (-> & -> & -> & ->).
  apply update_fields.
Qed.

Lemma alloc_all_fields (fresh : list Alert) (st : State) :
  length (heap st) <= length (heap (fst (alloc_all fresh st))) /\
  alerts (fst (alloc_all fresh st)) = alerts st /\
  run_state (fst (alloc_all fresh st)) = run_state st /\
  tables (fst (alloc_all fresh st)) = tables st /\
  Forall (fun l => length (heap st) <= l < length (heap (fst (alloc_all fresh st))))
         (snd (alloc_all fresh st)).
Proof.
  revert st. induction fresh as [|a fresh IH]; simpl; intros st.
  - repeat split; auto.
  - specialize (IH (set_heap (heap st ++ [a]) st)).
    destruct (alloc_all fresh (set_heap (heap st ++ [a]) st)) as [st' ls]. simpl in *.
    rewrite length_app in IH. simpl in IH.
    destruct IH as (Hlen & -> & -> & -> & Hls).
    split; [lia|]. split; [reflexivity|]. split; [reflexivity|]. split; [reflexivity|].
    constructor; [lia|].
    eapply List.Forall_impl; [|exact Hls]. simpl. intros l Hl. lia.
Qed.

Variables (name : string) (h0 : list Alert) (ls0 : list loc).
Variable t0 : string * list (string * AlertPolicy.t loc) * gmap string Z
              * gmap string (gset string) * list (string * (string * num)) * num * bool.

Lemma kept_fields (st st' : State) :
  heap st' = heap st -> alerts st' = alerts st -> tables st' = tables st ->
  others_kept name h0 ls0 t0 st -> others_kept name h0 ls0 t0 st'.
Proof. unfold others_kept. intros -> -> ->. tauto. Qed.

Lemma kept_update (f : Alert -> Alert) (l : loc) (st : State) :
  (forall a, source (f a) = source a) ->
  of_source name h0 l ->
  others_kept name h0 ls0 t0 st -> others_kept name h0 ls0 t0 (update f l st).
Proof.
  intros Hf Hl (Hlen & Hobj & Hal & Hls & Ht).
  destruct (update_fields f l st) as (Hlen' & Hal' & _ & Ht').
  unfold others_kept. rewrite Hlen', Hal', Ht'.
  split; [exact Hlen|]. split; [|auto].
  intros l' Hl'. unfold update. simpl.
  destruct (decide (l = l')) as [->|Hne].
  - rewrite obj_insert_eq by lia. rewrite Hf.
    destruct (Hobj l' Hl') as [Hs Ho]. split; [exact Hs|].
    intros Hother. destruct Hl as [Hl|Hl]; [lia|contradiction].
  - rewrite obj_insert_ne by exact Hne. apply Hobj, Hl'.
Qed.

Lemma kept_updates (f : Alert -> Alert) (ls : list loc) (st : State) :
  (forall a, source (f a) = source a) ->
  Forall (of_source name h0) ls ->
  others_kept name h0 ls0 t0 st ->
  others_kept name h0 ls0 t0 (fold_left (fun st l => update f l st) ls st).
Proof.
  intros Hf Hls. revert st. induction Hls as [|l ls Hl Hls IH]; simpl; intros st Hst.
  - exact Hst.
  - apply IH, kept_update; assumption.
Qed.

Lemma kept_handle_alerts (inp : nat -> HandleInput) (i : nat) (ls : list loc)
    (st : State) :
  Forall (of_source name h0) ls ->
  others_kept name h0 ls0 t0 st ->
  others_kept name h0 ls0 t0 (handle_alerts inp i ls st).
Proof.
  intros Hls. revert i st. induction Hls as [|l ls Hl Hls IH]; simpl; intros i st Hst.
  - exact Hst.
  - apply IH, kept_update; [intros a; apply handle_alert_source|exact Hl|exact Hst].
Qed.

Lemma kept_alloc_all (fresh : list Alert) (st : State) :
  others_kept name h0 ls0 t0 st ->
  others_kept name h0 ls0 t0 (fst (alloc_all fresh st)) /\
  Forall (of_source name h0) (snd (alloc_all fresh st)).
Proof.
  revert st. induction fresh as [|a fresh IH]; simpl; intros st Hst.
  - split; [exact Hst|constructor].
  - assert (Hst' : others_kept name h0 ls0 t0 (set_heap (heap st ++ [a]) st)).
    { destruct Hst as (Hlen & Hobj & Hal & Hls & Ht). unfold others_kept. simpl.
      rewrite length_app. simpl. split; [lia|]. split; [|auto].
      intros l Hl. rewrite obj_app_old by lia. apply Hobj, Hl. }
    destruct (IH _ Hst') as [Hk Hof].
    destruct (alloc_all fresh (set_heap (heap st ++ [a]) st)) as [st' ls]. simpl in *.
    split; [exact Hk|]. constructor; [|exact Hof].
    left. destruct Hst as (Hlen & _). exact Hlen.
Qed.

Lemma kept_stored (node_name : string) (st : State) :
  others_kept name h0 ls0 t0 st ->
  Forall (of_source name h0)
         (List.filter (fun l => is_from node_name name (obj (heap st) l)) (alerts st)).
Proof.
  intros (Hlen & Hobj & Hal & Hls & Ht). apply List.Forall_forall. intros l Hl.
  apply filter_In in Hl as [Hl Hfrom]. rewrite Hal in Hl.
  pose proof (proj1 (List.Forall_forall _ _) Hls l Hl) as Hb. simpl in Hb.
  right. destruct (Hobj l Hb) as [<- _].
  unfold is_from in Hfrom. apply andb_true_iff in Hfrom as [_ Hs].
  apply bool_decide_eq_true in Hs. exact Hs.
Qed.

Lemma set_node_source (n : option string) (a : Alert) : source (set_node n a) = source a.
Proof. reflexivity. Qed.

Lemma kept_local_alerts (env : RunEnv) (master_node : string) (st : State) :
  others_kept name h0 ls0 t0 st ->
  others_kept name h0 ls0 t0 (fst (fst (local_alerts env master_node name st))) /\
  Forall (of_source name h0) (snd (fst (local_alerts env master_node name st))).
Proof.
  intros Hst. unfold local_alerts.
  pose proof (kept_stored master_node st Hst) as Hla.
  destruct (bool_decide _).
  - simpl. split; [|exact Hla].
    apply kept_updates; [apply set_node_source|exact Hla|].
    eapply kept_fields; [ | | |exact Hst]; reflexivity.
  - destruct (run_source _ _ _) as [rs [fresh|]].
    + pose proof (kept_alloc_all fresh (set_run_state rs st)) as Ha.
      destruct (alloc_all fresh (set_run_state rs st)) as [st' ls]. simpl in *.
      destruct Ha as [Hst' Hls].
      { eapply kept_fields; [ | | |exact Hst]; reflexivity. }
      split; [|exact Hls]. apply kept_updates; [apply set_node_source| |]; assumption.
    + simpl. split; [|exact Hla].
      apply kept_updates; [apply set_node_source|exact Hla|].
      eapply kept_fields; [ | | |exact Hst]; reflexivity.
Qed.

Lemma kept_remote_alerts (env : RunEnv) (backup_node : string) (run_on_backup : bool)
    (alert_source : AlertSource) (locked : bool) (st : State) :
  source_name alert_source = name ->
  others_kept name h0 ls0 t0 st ->
  others_kept name h0 ls0 t0
    (fst (remote_alerts env backup_node run_on_backup alert_source locked st)) /\
  Forall (of_source name h0)
         (snd (remote_alerts env backup_node run_on_backup alert_source locked st)).
Proof.
  intros Hname Hst. unfold remote_alerts. rewrite Hname.
  pose proof (kept_stored backup_node st Hst) as Hstored.
  destruct (_ && _); [|simpl; split; [exact Hst|constructor]].
  destruct locked.
  { simpl. split; [|exact Hstored].
    apply kept_updates; [apply set_node_source| |]; assumption. }
  destruct (remote_result env _) as [fresh| | |e].
  - pose proof (kept_alloc_all fresh st Hst) as [Hst' Hls].
    destruct (alloc_all fresh st) as [st' ls]. simpl in *.
    split; [|exact Hls]. apply kept_updates; [apply set_node_source| |]; assumption.
  - simpl. split; [|exact Hstored].
    apply kept_updates; [apply set_node_source| |]; assumption.
  - simpl. split; [|exact Hstored].
    apply kept_updates; [apply set_node_source|exact Hstored|].
    eapply kept_fields; [ | | |exact Hst]; reflexivity.
  - match goal with
    | |- context [alloc_all ?f st] =>
        pose proof (kept_alloc_all f st Hst) as [Hst' Hls];
        destruct (alloc_all f st) as [st' ls]
    end.
    simpl in *. split; [|exact Hls].
    apply kept_updates; [apply set_node_source| |]; assumption.
Qed.

Lemma kept_store (st : State) :
  others_kept name h0 ls0 t0 st ->
  map (obj (heap st))
      (List.filter (fun l => negb (bool_decide (source (obj (heap st) l) = Some name)))
                   (alerts st))
  = List.filter (fun a => negb (bool_decide (source a = Some name))) (map (obj h0) ls0).
Proof.
  intros (Hlen & Hobj & -> & Hls & Ht).
  induction Hls as [|l ls Hl Hls IH]; simpl; [reflexivity|].
  destruct (Hobj l Hl) as [Hs Ho]. rewrite Hs.
  destruct (bool_decide (source (obj h0 l) = Some name)) eqn:Hb; simpl.
  - exact IH.
  - apply bool_decide_eq_false in Hb. rewrite (Ho Hb), IH. reflexivity.
Qed.

End RunFrame.

Section RunSourceFrame.
Context `{PyNum} `{AlertBase}.

(** X8.  The run of one source leaves the alerts of the other sources
    alone.  If the source is not due (its products, the block on the
    failover-related sources or its schedule say so), nothing changes.  If
    it is due, the alerts of the store that have another source stay,
    unchanged and in their order, at the head of the store, in front of
    the alerts that the run collected; the time of the run is recorded,
    and the policies and the locks are as before. *)
Theorem run_alert_source_frame (env : RunEnv) (master_node backup_node : string)
    (run_on_backup run_failover_related : bool) (st : State)
    (alert_source : AlertSource) :
  refs_valid st ->
  let name := source_name alert_source in
  let st' := run_alert_source env master_node backup_node run_on_backup
               run_failover_related st alert_source in
  if bool_decide (product_type env ∈ source_products alert_source)
     && negb (failover_related alert_source && negb run_failover_related)
     && should_run alert_source (utcnow_schedule env name)
                   (default 0%Z (alert_source_last_run st !! name))
  then
    (exists rest,
       store st'
       = List.filter (fun a => negb (bool_decide (source a = Some name))) (store st)
         ++ rest) /\
    alert_source_last_run st'
    = <[name := utcnow_last_run env name]> (alert_source_last_run st) /\
    policies st' = policies st /\
    blocked_sources st' = blocked_sources st /\
    sources_locks st' = sources_locks st
  else st' = st.
Proof.
  intros Hv. cbv zeta. unfold run_alert_source.
  destruct (bool_decide (product_type env ∈ source_products alert_source)); simpl;
    [|reflexivity].
  destruct (failover_related alert_source && negb run_failover_related); simpl;
    [reflexivity|].
  destruct (should_run alert_source _ _); simpl; [|reflexivity].
  set (name := source_name alert_source).
  set (st0 := set_alert_source_last_run _ st).
  assert (Hst0 : others_kept name (heap st) (alerts st) (tables st0) st0).
  { apply (kept_fields name (heap st) (alerts st) (tables st0) st0 st0);
      try reflexivity.
    unfold others_kept. split; [simpl; lia|]. split; [auto|].
    split; [reflexivity|]. split; [exact Hv|reflexivity]. }
  pose proof (kept_local_alerts name (heap st) (alerts st) (tables st0) env master_node
                st0 Hst0) as Hl.
  destruct (local_alerts env master_node name st0) as [[st1 la] locked].
  simpl in Hl. destruct Hl as [Hst1 Hla].
  pose proof (kept_remote_alerts name (heap st) (alerts st) (tables st0) env backup_node
                run_on_backup alert_source locked st1 eq_refl Hst1) as Hr.
  destruct (remote_alerts env backup_node run_on_backup alert_source locked st1)
    as [st2 lb].
  simpl in Hr. destruct Hr as [Hst2 Hlb].
  assert (Hab : Forall (of_source name (heap st)) (la ++ lb))
    by (apply List.Forall_app; auto).
  pose proof (kept_handle_alerts name (heap st) (alerts st) (tables st0)
                (handle_input env name) 0 (la ++ lb) st2 Hab Hst2) as Hst3.
  set (st3 := handle_alerts _ 0 (la ++ lb) st2) in *.
  pose proof (kept_store name (heap st) (alerts st) (tables st0) st3 Hst3) as Hstore.
  destruct Hst3 as (_ & _ & _ & _ & Ht).
  split.
  - exists (map (obj (heap st3)) (la ++ lb)).
    unfold store at 1. simpl. rewrite map_app. f_equal. exact Hstore.
  - unfold tables in Ht. simpl in Ht.
    injection Ht as _ Hp Hr Hb Hk _ _. simpl. auto.
Qed.

(** X9.  A blocked source is not checked.  When a source that is due has
    a lock, its run creates no alert object and changes no statistics and
    no record of failed sources; it logs that the source is blocked, and
    every alert of the store afterwards is one that the store held. *)
Theorem blocked_source_not_checked (env : RunEnv) (master_node backup_node : string)
    (run_on_backup run_failover_related : bool) (st : State)
    (alert_source : AlertSource) :
  let name := source_name alert_source in
  let st' := run_alert_source env master_node backup_node run_on_backup
               run_failover_related st alert_source in
  default ∅ (blocked_sources st !! name) <> ∅ ->
  bool_decide (product_type env ∈ source_products alert_source)
  && negb (failover_related alert_source && negb run_failover_related)
  && should_run alert_source (utcnow_schedule env name)
                (default 0%Z (alert_source_last_run st !! name)) = true ->
  length (heap st') = length (heap st) /\
  sources_run_times (run_state st') = sources_run_times (run_state st) /\
  alert_sources_errors (run_state st') = alert_sources_errors (run_state st) /\
  log (run_state st')
  = log (run_state st) ++ [LogDebug "Not running alert source because it is blocked" name] /\
  (forall l, In l (alerts st') -> In l (alerts st)).
Proof.
  cbv zeta. intros Hblocked Hdue.
  apply andb_true_iff in Hdue as [Hdue Hrun].
  apply andb_true_iff in Hdue as [Hprod Hfail].
  unfold run_alert_source. rewrite Hprod. simpl.
  apply negb_true_iff in Hfail. rewrite Hfail, Hrun. simpl.
  set (name := source_name alert_source) in *.
  unfold local_alerts. simpl.
  rewrite (bool_decide_eq_true_2 _ Hblocked).
  set (st0 := add_log _ _).
  set (la := List.filter _ (alerts st)).
  destruct (updates_fields (set_node (Some master_node)) la st0)
    as (Hh1 & Ha1 & Hr1 & _).
  set (st1 := fold_left _ la st0) in *.
  unfold remote_alerts.
  assert (Hrem : exists lb st2,
            (let '(st, alerts_b) :=
               if run_on_backup && run_on_backup_node alert_source
               then
                 (st1, List.filter
                         (fun l => is_from backup_node (source_name alert_source)
                                           (obj (heap st1) l)) (alerts st1))
               else (st1, [])
             in (fold_left (fun st l => update (set_node (Some backup_node)) l st)
                           alerts_b st, alerts_b)) = (st2, lb) /\
            length (heap st2) = length (heap st1) /\ alerts st2 = alerts st1 /\
            run_state st2 = run_state st1 /\
            (forall l, In l lb -> In l (alerts st1))).
  { destruct (run_on_backup && run_on_backup_node alert_source).
    - eexists. eexists. split; [reflexivity|].
      destruct (updates_fields (set_node (Some backup_node))
                  (List.filter (fun l => is_from backup_node (source_name alert_source)
                                                 (obj (heap st1) l)) (alerts st1)) st1)
        as (Hh & Ha & Hr & _).
      split; [exact Hh|]. split; [exact Ha|]. split; [exact Hr|].
      intros l Hl. apply filter_In in Hl. tauto.
    - eexists. eexists. split; [reflexivity|]. simpl.
      split; [reflexivity|]. split; [reflexivity|]. split; [reflexivity|].
      intros l []. }
  destruct Hrem as (lb & st2 & -> & Hh2 & Ha2 & Hr2 & Hlb).
  destruct (handle_alerts_fields (handle_input env name) 0 (la ++ lb) st2)
    as (Hh3 & Ha3 & Hr3 & _).
  simpl. rewrite Hh3, Hh2, Hh1, Hr3, Hr2, Hr1. simpl.
  split; [reflexivity|]. split; [reflexivity|]. split; [reflexivity|].
  split; [reflexivity|].
  intros l Hl. apply in_app_iff in Hl as [Hl|Hl].
  - apply filter_In in Hl as [Hl _]. rewrite Ha3, Ha2, Ha1 in Hl. exact Hl.
  - apply in_app_iff in Hl as [Hl|Hl].
    + apply filter_In in Hl. tauto.
    + apply Hlb in Hl. rewrite Ha1 in Hl. exact Hl.
Qed.

End RunSourceFrame.

Lemma run_alert_source_frame_witness :
  exists rest,
    store (@run_alert_source Example.Z_num Example.base (run_env Example.pass_env)
             "A" "B" false false Sample.mixed_state Example.disk_source)
    = Example.new_a :: rest.
Proof.
  pose proof (@run_alert_source_frame Example.Z_num Example.base
                (run_env Example.pass_env) "A" "B" false false Sample.mixed_state
                Example.disk_source) as Hframe.
  cbv zeta in Hframe.
  match type of Hframe with
  | _ -> if ?c then _ else _ =>
      assert (Hdue : c = true) by (vm_compute; reflexivity); rewrite Hdue in Hframe
  end.
  destruct Hframe as ((rest & Hrest) & _).
  - repeat constructor.
  - exists rest. rewrite Hrest. reflexivity.
Defined.

Lemma blocked_source_not_checked_witness :
  length (heap (@run_alert_source Example.Z_num Example.base (run_env Example.pass_env)
                  "A" "B" false false Sample.locked_state Example.disk_source))
  = 2.
Proof.
  apply (@blocked_source_not_checked Example.Z_num Example.base
           (run_env Example.pass_env) "A" "B" false false Sample.locked_state
           Example.disk_source).
  - intros Heq.
    assert (Hin : "lock" ∈ (∅ : gset string)) by (rewrite <- Heq; vm_compute; reflexivity).
    set_solver.
  - vm_compute. reflexivity.
Defined.

(** ** Dismissing, restoring and deleting alerts *)

Lemma find_at {A : Type} (f : A -> bool) (l1 : list A) (x : A) (l2 : list A) :
  (forall y, In y l1 -> f y = false) -> f x = true ->
  List.find f (l1 ++ x :: l2) = Some x.
Proof.
  intros Hl1 Hx. induction l1 as [|y l1 IH]; simpl.
  - rewrite Hx. reflexivity.
  - rewrite (Hl1 y) by (left; reflexivity). apply IH. intros z Hz. apply Hl1. right. exact Hz.
Qed.

Lemma set_dismissed_back (a : Alert) :
  dismissed a = false -> set_dismissed false (set_dismissed true a) = a.
Proof. destruct a. simpl. intros ->. reflexivity. Qed.

Lemma remove_obj_at (h : list Alert) (a : Alert) (l1 : list loc) (l : loc)
    (l2 : list loc) :
  (forall y, In y l1 -> obj h y <> a) -> obj h l = a ->
  remove_obj h a (l1 ++ l :: l2) = Some (l1 ++ l2).
Proof.
  intros Hl1 Hl. induction l1 as [|y l1 IH]; simpl.
  - destruct (decide (a = obj h l)); [reflexivity|congruence].
  - destruct (decide (a = obj h y)) as [Heq|Hne].
    + exfalso. apply (Hl1 y); [left; reflexivity|congruence].
    + rewrite IH; [reflexivity|]. intros z Hz. apply Hl1. right. exact Hz.
Qed.

Lemma existsb_through_map {A B : Type} (f : B -> bool) (g : A -> B) (l : list A) :
  existsb f (map g l) = existsb (fun x => f (g x)) l.
Proof. induction l as [|x l IH]; simpl; [reflexivity|]. rewrite IH. reflexivity. Qed.

Lemma filter_sublist {A : Type} (f : A -> bool) (l : list A) :
  sublist (List.filter f l) l.
Proof.
  induction l as [|x l IH]; simpl; [constructor|].
  destruct (f x); [apply sublist_skip|apply sublist_cons]; exact IH.
Qed.

Section DismissFacts.
Context `{PyNum}.

Lemma alert_by_uuid_split (u : string) (st : State) (l : loc) :
  alert_by_uuid u st = Some l ->
  exists l1 l2,
    alerts st = l1 ++ l :: l2 /\ uuid (obj (heap st) l) = Some u /\
    forall y, In y l1 -> uuid (obj (heap st) y) <> Some u.
Proof.
  unfold alert_by_uuid. intros Hfind.
  apply find_first in Hfind as (l1 & l2 & Hal & Hl & Hl1).
  exists l1, l2. split; [exact Hal|].
  split; [apply bool_decide_eq_true in Hl; exact Hl|].
  intros y Hy. specialize (Hl1 y Hy). apply bool_decide_eq_false in Hl1. exact Hl1.
Qed.

(** X10.  Restoring undoes dismissing.  For an alert that is dismissed by
    its flag (its class is neither dismissable nor a one-shot class whose
    alerts are deleted by hand) and that was not dismissed, [dismiss]
    sets the flag of the first alert of the store that has the identifier
    and changes nothing else, and [restore] then gives back the state as
    it was.  An identifier that no alert has changes nothing either. *)
Theorem dismiss_then_restore (dismissable : AlertClass -> bool)
    (dismiss_method : AlertClass -> list Alert -> Alert -> list Alert)
    (product_type : string) (classes : gmap string ClassConfig)
    (u : string) (st : State) :
  refs_valid st ->
  (forall l, alert_by_uuid u st = Some l ->
     dismissable (klass (obj (heap st) l)) = false /\
     is_oneshot (klass (obj (heap st) l))
     && negb (deleted_automatically (klass (obj (heap st) l))) = false /\
     dismissed (obj (heap st) l) = false) ->
  let st1 := fst (dismiss dismissable dismiss_method product_type classes u st) in
  (forall l, alert_by_uuid u st = Some l ->
     obj (heap st1) l = set_dismissed true (obj (heap st) l) /\
     (forall l', l' <> l -> obj (heap st1) l' = obj (heap st) l') /\
     alerts st1 = alerts st /\ policies st1 = policies st) /\
  (alert_by_uuid u st = None -> st1 = st) /\
  fst (restore product_type classes u st1) = st.
Proof.
  intros Hv Hplain. cbv zeta. unfold dismiss.
  destruct (alert_by_uuid u st) as [l|] eqn:Hfind.
  - destruct (Hplain l eq_refl) as (Hd & Ho & Hnot).
    rewrite Hd, Ho. simpl.
    destruct (alert_by_uuid_split u st l Hfind) as (l1 & l2 & Hal & Hu & Hl1).
    assert (Hl : l < length (heap st)).
    { apply (proj1 (List.Forall_forall _ _) Hv l). rewrite Hal.
      apply in_app_iff. right. left. reflexivity. }
    split.
    { intros l0 [= <-]. split; [apply obj_insert_eq, Hl|].
      split; [|auto]. intros l' Hne. apply obj_insert_ne. congruence. }
    split; [discriminate|].
    unfold restore.
    assert (Hfind' : alert_by_uuid u (update (set_dismissed true) l st) = Some l).
    { unfold alert_by_uuid, update. simpl. rewrite Hal.
      apply find_at.
      - intros y Hy. apply bool_decide_eq_false.
        destruct (decide (l = y)) as [->|Hne].
        + exfalso. apply (Hl1 y Hy). exact Hu.
        + rewrite obj_insert_ne by exact Hne. apply Hl1, Hy.
      - apply bool_decide_eq_true. rewrite obj_insert_eq by exact Hl. exact Hu. }
    rewrite Hfind'. simpl. unfold update. simpl.
    rewrite obj_insert_eq by exact Hl.
    rewrite list_insert_insert_eq, set_dismissed_back by exact Hnot.
    rewrite list_insert_id; [destruct st; reflexivity|].
    unfold obj. apply list_lookup_lookup_total_lt, Hl.
  - simpl. split; [discriminate|]. split; [reflexivity|].
    unfold restore. rewrite Hfind. reflexivity.
Qed.

(** X11.  Dismissing an alert of a one-shot class whose alerts are
    deleted by hand deletes it: the first alert of the store that has the
    identifier is taken out of the store, the other alerts stay in their
    order, no alert object changes, one REMOVED event is sent, and no
    policy tracks the identifier any more.  If the identifiers of the
    store are pairwise distinct, no alert of the store has the identifier
    afterwards. *)
Theorem dismiss_oneshot_deletes (dismissable : AlertClass -> bool)
    (dismiss_method : AlertClass -> list Alert -> Alert -> list Alert)
    (product_type : string) (classes : gmap string ClassConfig)
    (u : string) (st : State) (l : loc) :
  alert_by_uuid u st = Some l ->
  dismissable (klass (obj (heap st) l)) = false ->
  is_oneshot (klass (obj (heap st) l)) = true ->
  deleted_automatically (klass (obj (heap st) l)) = false ->
  Forall (fun p => List.NoDup (Dict.keys (AlertPolicy.last_key_value_alerts (snd p))))
         (policies st) ->
  let st' := fst (dismiss dismissable dismiss_method product_type classes u st) in
  let effects := snd (dismiss dismissable dismiss_method product_type classes u st) in
  (exists before after,
     store st = before ++ obj (heap st) l :: after /\
     (forall b, In b before -> uuid b <> Some u) /\
     store st' = before ++ after) /\
  heap st' = heap st /\
  effects = [Event "REMOVED" (Some u)] /\
  Forall (fun p => ~ In (Some u) (Dict.keys (AlertPolicy.last_key_value_alerts (snd p))))
         (policies st') /\
  map fst (policies st') = map fst (policies st) /\
  (List.NoDup (map uuid (store st)) -> forall b, In b (store st') -> uuid b <> Some u).
Proof.
  intros Hfind Hd Ho Ha Hpol. cbv zeta. unfold dismiss.
  rewrite Hfind, Hd, Ho, Ha. simpl.
  destruct (alert_by_uuid_split u st l Hfind) as (l1 & l2 & Hal & Hu & Hl1).
  assert (Hrem : remove_obj (heap st) (obj (heap st) l) (alerts st) = Some (l1 ++ l2)).
  { rewrite Hal. apply remove_obj_at; [|reflexivity].
    intros y Hy Heq. apply (Hl1 y Hy). rewrite Heq. exact Hu. }
  unfold _delete_on_dismiss. rewrite Hrem. simpl.
  assert (Hstore : store st
                   = map (obj (heap st)) l1 ++ obj (heap st) l :: map (obj (heap st)) l2).
  { unfold store. rewrite Hal, map_app. reflexivity. }
  assert (Hstore' : map (obj (heap st)) (l1 ++ l2)
                    = map (obj (heap st)) l1 ++ map (obj (heap st)) l2)
    by apply map_app.
  split.
  { exists (map (obj (heap st)) l1), (map (obj (heap st)) l2).
    split; [exact Hstore|]. split; [|unfold store; simpl; exact Hstore'].
    intros b Hb. apply in_map_iff in Hb as (y & <- & Hy). apply Hl1, Hy. }
  split; [reflexivity|].
  split; [unfold _send_alert_deleted_event; rewrite Hu; reflexivity|].
  split.
  { apply List.Forall_forall. intros p Hp.
    apply in_map_iff in Hp as (p0 & <- & Hp0). simpl. rewrite Hu.
    apply Dict_pop_NoDup. apply (proj1 (List.Forall_forall _ _) Hpol p0 Hp0). }
  split; [rewrite map_map; reflexivity|].
  intros Hnd b Hb. unfold store in Hb. simpl in Hb. rewrite Hstore' in Hb.
  rewrite Hstore, map_app in Hnd. simpl in Hnd.
  apply NoDup_remove_2 in Hnd. intros Hbu. apply Hnd.
  rewrite Hu, <- Hbu, <- map_app. apply in_map, Hb.
Qed.

(** The alerts that the loops of [dismiss] and [oneshot_delete] take out
    of the store: the related ones that the method of the class did not
    return. *)
Lemma remove_deleted_spec (h : list Alert) (left_alerts : list Alert)
    (rel : Alert -> bool) (t : list loc) :
  forall (pre : list loc) (deleted : bool),
    let gone := fun l => rel (obj h l) && negb (bool_decide (obj h l ∈ left_alerts)) in
    remove_deleted h left_alerts (List.filter (fun l => rel (obj h l)) t)
      (List.filter (fun l => negb (gone l)) pre ++ t) deleted
    = Some (List.filter (fun l => negb (gone l)) (pre ++ t),
            deleted || existsb gone t).
Proof.
  cbv zeta. induction t as [|x t IH]; intros pre deleted; simpl.
  - rewrite !app_nil_r, orb_false_r. reflexivity.
  - assert (Hpre :
              List.filter
                (fun l => negb (rel (obj h l) && negb (bool_decide (obj h l ∈ left_alerts))))
                (pre ++ [x]) ++ t
              = List.filter
                  (fun l => negb (rel (obj h l)
                                  && negb (bool_decide (obj h l ∈ left_alerts))))
                  pre
                ++ (if negb (rel (obj h x) && negb (bool_decide (obj h x ∈ left_alerts)))
                    then [x] else []) ++ t).
    { rewrite List.filter_app. simpl.
      destruct (negb _); rewrite <- app_assoc; reflexivity. }
    destruct (rel (obj h x)) eqn:Hrel; simpl in *.
    + destruct (bool_decide (obj h x ∈ left_alerts)) eqn:Hleft; simpl in *.
      * rewrite <- Hpre, IH. rewrite <- app_assoc. reflexivity.
      * rewrite remove_obj_at; [|  |reflexivity].
        -- rewrite <- Hpre, IH. rewrite <- app_assoc, orb_true_r. reflexivity.
        -- intros y Hy Heq. apply filter_In in Hy as [_ Hy].
           rewrite Heq, Hrel, Hleft in Hy. discriminate.
    + rewrite <- Hpre, IH. rewrite <- app_assoc. reflexivity.
Qed.

Lemma dismiss_related_spec (h : list Alert) (left_alerts : list Alert)
    (rel : Alert -> bool) (t : list loc) :
  forall (pre : list loc) (st : State),
    let gone := fun l => rel (obj h l) && negb (bool_decide (obj h l ∈ left_alerts)) in
    heap st = h ->
    alerts st = List.filter (fun l => negb (gone l)) pre ++ t ->
    let r := dismiss_related left_alerts (List.filter (fun l => rel (obj h l)) t) st in
    alerts (fst r) = List.filter (fun l => negb (gone l)) (pre ++ t) /\
    heap (fst r) = h /\
    snd r = map (fun l => Event "REMOVED" (uuid (obj h l))) (List.filter gone t) /\
    map fst (policies (fst r)) = map fst (policies st).
Proof.
  cbv zeta. induction t as [|x t IH]; intros pre st Hh Hal; simpl.
  - rewrite Hal, !app_nil_r. auto.
  - assert (Hpre :
              List.filter
                (fun l => negb (rel (obj h l) && negb (bool_decide (obj h l ∈ left_alerts))))
                (pre ++ [x]) ++ t
              = List.filter
                  (fun l => negb (rel (obj h l)
                                  && negb (bool_decide (obj h l ∈ left_alerts))))
                  pre
                ++ (if negb (rel (obj h x) && negb (bool_decide (obj h x ∈ left_alerts)))
                    then [x] else []) ++ t).
    { rewrite List.filter_app. simpl.
      destruct (negb _); rewrite <- app_assoc; reflexivity. }
    assert (Happ : (pre ++ [x]) ++ t = pre ++ x :: t)
      by (rewrite <- app_assoc; reflexivity).
    destruct (rel (obj h x)) eqn:Hrel; simpl in *.
    + rewrite Hh.
      destruct (bool_decide (obj h x ∈ left_alerts)) eqn:Hleft; simpl in *.
      * rewrite <- Happ. apply IH; [exact Hh|]. rewrite Hpre. exact Hal.
      * unfold _delete_on_dismiss. rewrite Hh, Hal.
        rewrite remove_obj_at; [|  |reflexivity].
        -- match goal with
           | |- context [dismiss_related _ _ ?s] =>
               destruct (IH (pre ++ [x]) s) as (Ha & Hh' & He & Hp);
                 [simpl; exact Hh|simpl; rewrite Hpre; reflexivity|];
                 destruct (dismiss_related left_alerts
                             (List.filter (fun l => rel (obj h l)) t) s) as [st' e'] eqn:Hd
           end.
           simpl in *. rewrite <- Happ.
           split; [exact Ha|]. split; [exact Hh'|].
           split; [unfold _send_alert_deleted_event; simpl; rewrite He; reflexivity|].
           rewrite Hp, map_map. reflexivity.
        -- intros y Hy Heq. apply filter_In in Hy as [_ Hy].
           rewrite Heq, Hrel, Hleft in Hy. discriminate.
    + rewrite <- Happ. apply IH; [exact Hh|]. rewrite Hpre. exact Hal.
Qed.

(** X14.  Dismissing an alert of a dismissable class removes from the
    store exactly the alerts of its node and class that the [dismiss]
    method of the class did not return, and sends one REMOVED event for
    each of them, in the order of the store; the other alerts stay in
    their order, and no alert object changes. *)
Theorem dismiss_dismissable_removes (dismissable : AlertClass -> bool)
    (dismiss_method : AlertClass -> list Alert -> Alert -> list Alert)
    (product_type : string) (classes : gmap string ClassConfig)
    (u : string) (st : State) (l : loc) :
  alert_by_uuid u st = Some l ->
  dismissable (klass (obj (heap st) l)) = true ->
  let alert := obj (heap st) l in
  let related := fun a => bool_decide ((node a, klass a) = (node alert, klass alert)) in
  let left_alerts := dismiss_method (klass alert) (List.filter related (store st)) alert in
  let gone := fun a => related a && negb (bool_decide (a ∈ left_alerts)) in
  let r := dismiss dismissable dismiss_method product_type classes u st in
  store (fst r) = List.filter (fun a => negb (gone a)) (store st) /\
  heap (fst r) = heap st /\
  snd r = map (fun a => Event "REMOVED" (uuid a)) (List.filter gone (store st)) /\
  map fst (policies (fst r)) = map fst (policies st).
Proof.
  intros Hfind Hd. cbv zeta. unfold dismiss. rewrite Hfind, Hd.
  pose proof (filter_map_obj (heap st)
                (fun a => bool_decide ((node a, klass a)
                                       = (node (obj (heap st) l), klass (obj (heap st) l))))
                (alerts st)) as Hrel.
  cbv beta in Hrel. fold (store st) in Hrel. rewrite Hrel.
  set (left_alerts := dismiss_method _ _ _).
  destruct (dismiss_related_spec (heap st) left_alerts
              (fun a => bool_decide ((node a, klass a)
                                     = (node (obj (heap st) l), klass (obj (heap st) l))))
              (alerts st) [] st eq_refl eq_refl) as (Ha & Hh & He & Hp).
  simpl in Ha.
  split.
  - unfold store. rewrite Hh, Ha.
    pose proof (filter_map_obj (heap st)
                  (fun a => negb (bool_decide ((node a, klass a)
                                               = (node (obj (heap st) l),
                                                  klass (obj (heap st) l)))
                                  && negb (bool_decide (a ∈ left_alerts))))
                  (alerts st)) as Hkeep.
    cbv beta in Hkeep. exact Hkeep.
  - split; [exact Hh|]. split; [|exact Hp].
    rewrite He.
    pose proof (filter_map_obj (heap st)
                  (fun a => bool_decide ((node a, klass a)
                                         = (node (obj (heap st) l),
                                            klass (obj (heap st) l)))
                            && negb (bool_decide (a ∈ left_alerts)))
                  (alerts st)) as Hgone.
    cbv beta in Hgone. fold (store st) in Hgone. rewrite <- Hgone, map_map. reflexivity.
Qed.

(** X12.  [oneshot_delete] for one class removes from the store exactly
    the alerts of this node and the class that the [delete] method of the
    class did not return; the other alerts stay in their order, no alert
    object and no policy changes, no [ValueError] is raised, and the
    alerts are flushed and sent exactly when an alert was removed. *)
Theorem oneshot_delete_removes {Query : Type} (class_by_name : gmap string AlertClass)
    (delete_method : AlertClass -> list Alert -> Query -> list Alert)
    (st : State) (klassname : string) (query : Query) (cls : AlertClass) :
  class_by_name !! klassname = Some cls ->
  is_oneshot cls = true ->
  let related := fun a => bool_decide ((node a, klass a) = (Some (self_node st), cls)) in
  let left_alerts := delete_method cls (List.filter related (store st)) query in
  let gone := fun a => related a && negb (bool_decide (a ∈ left_alerts)) in
  exists st',
    oneshot_delete class_by_name delete_method st (inl klassname) query
    = Deleted st' (existsb gone (store st)) /\
    store st' = List.filter (fun a => negb (gone a)) (store st) /\
    heap st' = heap st /\ policies st' = policies st.
Proof.
  intros Hcls Hone. cbv zeta. unfold oneshot_delete. simpl.
  rewrite Hcls, Hone. simpl.
  pose proof (filter_map_obj (heap st)
                (fun a => bool_decide ((node a, klass a) = (Some (self_node st), cls)))
                (alerts st)) as Hrel.
  cbv beta in Hrel. fold (store st) in Hrel. rewrite Hrel.
  pose proof (remove_deleted_spec (heap st)
                (delete_method cls
                   (List.filter
                      (fun a => bool_decide ((node a, klass a) = (Some (self_node st), cls)))
                      (store st)) query)
                (fun a => bool_decide ((node a, klass a) = (Some (self_node st), cls)))
                (alerts st) [] false) as Hloop.
  cbv zeta in Hloop. simpl in Hloop. rewrite Hloop.
  eexists. split.
  - f_equal. unfold store. rewrite existsb_through_map. reflexivity.
  - split; [|split; reflexivity].
    unfold store at 1. simpl.
    pose proof (filter_map_obj (heap st)
                  (fun a => negb (bool_decide ((node a, klass a) = (Some (self_node st), cls))
                                  && negb (bool_decide
                                             (a ∈ delete_method cls
                                                    (List.filter
                                                       (fun a => bool_decide
                                                                   ((node a, klass a)
                                                                    = (Some (self_node st), cls)))
                                                       (store st)) query))))
                  (alerts st)) as Hkeep.
    cbv beta in Hkeep. exact Hkeep.
Qed.

Lemma remove_deleted_total (h : list Alert) (left_alerts : list Alert)
    (rel : Alert -> bool) (ls : list loc) (deleted : bool) :
  exists kept deleted',
    remove_deleted h left_alerts (List.filter (fun l => rel (obj h l)) ls) ls deleted
    = Some (kept, deleted') /\
    sublist kept ls /\
    forall l, In l ls -> rel (obj h l) = false -> In l kept.
Proof.
  pose proof (remove_deleted_spec h left_alerts rel ls [] deleted) as Hloop.
  cbv zeta in Hloop. simpl in Hloop.
  eexists. eexists. split; [exact Hloop|]. split.
  - apply filter_sublist.
  - intros l Hl Hrel. apply filter_In. split; [exact Hl|]. rewrite Hrel. reflexivity.
Qed.

(** X13.  Whatever classes [oneshot_delete] is asked to delete, it never
    raises the [ValueError] of removing an alert that the store does not
    hold, it changes no alert object and no policy, and the store that it
    leaves - also when it ends with a [CallError] - is a sub-list of the
    store, which still holds every alert of another node and every alert
    whose class is none of the classes that were named. *)
Theorem oneshot_delete_spares_others {Query : Type}
    (class_by_name : gmap string AlertClass)
    (delete_method : AlertClass -> list Alert -> Query -> list Alert)
    (st : State) (klass_arg : string + list string) (query : Query) :
  let klasses := match klass_arg with inl k => [k] | inr ks => ks end in
  let spared := fun st' : State =>
    heap st' = heap st /\ policies st' = policies st /\
    sublist (alerts st') (alerts st) /\
    forall l, In l (alerts st) ->
      (node (obj (heap st) l) <> Some (self_node st) \/
       forall k, In k klasses -> class_by_name !! k <> Some (klass (obj (heap st) l))) ->
      In l (alerts st') in
  match oneshot_delete class_by_name delete_method st klass_arg query with
  | DeleteValueError => False
  | DeleteCallError _ st' => spared st'
  | Deleted st' _ => spared st'
  end.
Proof.
  cbv zeta. unfold oneshot_delete.
  generalize (match klass_arg with inl k => [k] | inr ks => ks end). intros klasses.
  generalize false. intros deleted.
  assert (Hgen : forall (klasses0 : list string) (cur : State) (deleted : bool),
            heap cur = heap st -> policies cur = policies st ->
            self_node cur = self_node st ->
            sublist (alerts cur) (alerts st) ->
            (forall l, In l (alerts st) ->
               (node (obj (heap st) l) <> Some (self_node st) \/
                forall k, In k klasses ->
                          class_by_name !! k <> Some (klass (obj (heap st) l))) ->
               In l (alerts cur)) ->
            (forall k, In k klasses0 -> In k klasses) ->
            match oneshot_delete_each class_by_name delete_method query klasses0 cur deleted with
            | DeleteValueError => False
            | DeleteCallError _ st' | Deleted st' _ =>
                heap st' = heap st /\ policies st' = policies st /\
                sublist (alerts st') (alerts st) /\
                forall l, In l (alerts st) ->
                  (node (obj (heap st) l) <> Some (self_node st) \/
                   forall k, In k klasses ->
                             class_by_name !! k <> Some (klass (obj (heap st) l))) ->
                  In l (alerts st')
            end).
  { induction klasses0 as [|k klasses0 IH]; intros cur del Hh Hp Hn Hsub Hkeep Hincl; simpl.
    - auto.
    - destruct (class_by_name !! k) as [cls|] eqn:Hk; [|auto].
      destruct (negb (is_oneshot cls)); [auto|].
      destruct (remove_deleted_total (heap cur)
                  (delete_method cls
                     (map (obj (heap cur))
                        (List.filter
                           (fun a => bool_decide
                                       ((node (obj (heap cur) a), klass (obj (heap cur) a))
                                        = (Some (self_node cur), cls)))
                           (alerts cur))) query)
                  (fun a => bool_decide ((node a, klass a) = (Some (self_node cur), cls)))
                  (alerts cur) del)
        as (kept & del' & Hloop & Hsub' & Hkeep').
      rewrite Hloop.
      apply IH; simpl; auto.
      + etransitivity; [exact Hsub'|exact Hsub].
      + intros l Hl Hother. apply Hkeep'; [apply Hkeep; assumption|].
        apply bool_decide_eq_false. rewrite Hh, Hn. intros [= Hnode Hklass].
        destruct Hother as [Hother|Hother]; [congruence|].
        apply (Hother k); [apply Hincl; left; reflexivity|].
        rewrite Hk, Hklass. reflexivity.
      + intros k' Hk'. apply Hincl. right. exact Hk'. }
  apply Hgen; auto.
Qed.

End DismissFacts.

Lemma dismiss_then_restore_witness :
  fst (restore "SCALE" ∅ "N1"
         (fst (dismiss (fun _ => false) (fun _ alerts _ => alerts) "SCALE" ∅ "N1"
                 Sample.mixed_state)))
  = Sample.mixed_state.
Proof.
  apply (@dismiss_then_restore Example.Z_num (fun _ => false) (fun _ alerts _ => alerts)
           "SCALE" ∅ "N1" Sample.mixed_state).
  - repeat constructor.
  - intros l Hl. vm_compute in Hl. injection Hl as <-.
    repeat split; reflexivity.
Defined.

Lemma dismiss_oneshot_deletes_witness :
  store (fst (dismiss (fun _ => false) (fun _ alerts _ => alerts) "SCALE" ∅ "Q"
                (Example.state_with (Example.quota "A"))))
  = [] /\
  snd (dismiss (fun _ => false) (fun _ alerts _ => alerts) "SCALE" ∅ "Q"
         (Example.state_with (Example.quota "A")))
  = [Event "REMOVED" (Some "Q")].
Proof.
  destruct (@dismiss_oneshot_deletes Example.Z_num (fun _ => false)
              (fun _ alerts _ => alerts) "SCALE" ∅ "Q"
              (Example.state_with (Example.quota "A")) 0)
    as (_ & _ & He & _ & _ & Hnone); try reflexivity.
  - constructor.
  - split; [|exact He].
    destruct (store (fst (dismiss (fun _ => false) (fun _ alerts _ => alerts) "SCALE" ∅ "Q"
                            (Example.state_with (Example.quota "A")))))
      as [|b rest] eqn:Hs; [reflexivity|].
    exfalso. apply (Hnone (ltac:(repeat constructor; simpl; tauto)) b); [left; reflexivity|].
    revert Hs. vm_compute. discriminate.
Defined.

Lemma oneshot_delete_removes_witness :
  exists st',
    oneshot_delete Example.class_by_name
      (fun _ alerts (query : string) =>
         List.filter (fun a => negb (bool_decide (key a = Some query))) alerts)
      (Example.state_with (Example.quota "A")) (inl "Quota") "tank"
    = Deleted st' true /\
    store st' = [].
Proof.
  destruct (@oneshot_delete_removes Example.Z_num string Example.class_by_name
              (fun _ alerts (query : string) =>
                 List.filter (fun a => negb (bool_decide (key a = Some query))) alerts)
              (Example.state_with (Example.quota "A")) "Quota" "tank" Example.Quota)
    as (st' & Hd & Hs & _).
  - vm_compute. reflexivity.
  - reflexivity.
  - exists st'. split; [exact Hd|exact Hs].
Defined.

Lemma dismiss_dismissable_removes_witness :
  store (fst (dismiss (fun _ => true)
                (fun _ alerts alert =>
                   List.filter (fun a => negb (bool_decide (key a = key alert))) alerts)
                "SCALE" ∅ "U" Sample.mixed_state))
  = [].
Proof.
  pose proof (@dismiss_dismissable_removes Example.Z_num (fun _ => true)
                (fun _ alerts alert =>
                   List.filter (fun a => negb (bool_decide (key a = key alert))) alerts)
                "SCALE" ∅ "U" Sample.mixed_state 0) as Hd.
  cbv zeta in Hd.
  destruct Hd as (Hs & _).
  - reflexivity.
  - reflexivity.
  - rewrite Hs. reflexivity.
Defined.

(** ** What a dispatch pass sends *)

Lemma filter_none {A : Type} (f : A -> bool) (l : list A) :
  (forall x, In x l -> f x = false) -> List.filter f l = [].
Proof.
  induction l as [|x l IH]; simpl; intros Hl; [reflexivity|].
  rewrite (Hl x) by (left; reflexivity). apply IH. intros y Hy. apply Hl. right. exact Hy.
Qed.

Section Tracking.
Context {T : Type} (uuid_of : T -> Uuid).

(** A policy that will report nothing for the alerts [cur]: it tracks
    them, or its bucket never changes. *)
Lemma receive_alerts_tracked (p : AlertPolicy.t T) (now : DateTime) (cur : list T) :
  AlertPolicy.last_key_value_alerts p
  = Dict.of_list (map (fun a => (uuid_of a, a)) cur) \/
  (forall t, KeyValue_eqb (AlertPolicy.key p t) (AlertPolicy.last_key_value p) = true) ->
  snd (AlertPolicy.receive_alerts uuid_of p now cur) = ([], []).
Proof.
  intros Hp. unfold AlertPolicy.receive_alerts.
  destruct (KeyValue_eqb (AlertPolicy.key p now) (AlertPolicy.last_key_value p)) eqn:Hk;
    simpl; [reflexivity|].
  destruct Hp as [Hp|Hp]; [|rewrite Hp in Hk; discriminate].
  rewrite Hp.
  assert (Hin : forall a,
            In a (Dict.values (Dict.of_list (map (fun a => (uuid_of a, a)) cur))) ->
            negb (Dict.mem (uuid_of a) (Dict.of_list (map (fun a => (uuid_of a, a)) cur)))
            = false).
  { intros a Ha. apply negb_false_iff, Dict_mem_keys.
    unfold Dict.values in Ha. apply in_map_iff in Ha as ([u a'] & Heq & Ha).
    simpl in Heq. subst a'.
    destruct (keyed_In uuid_of cur u a Ha) as [-> _].
    unfold Dict.keys. apply in_map_iff. exists (uuid_of a, a). auto. }
  rewrite !filter_none by exact Hin. reflexivity.
Qed.

End Tracking.

Lemma notify_services_unchanged (env : SendEnv) (policy_name : string)
    (alerts : list Alert) (descs : list AlertServiceDesc) :
  notify_services env policy_name alerts [] [] descs = Some ([], []).
Proof.
  induction descs as [|desc descs IH]; [reflexivity|].
  cbn [notify_services]. rewrite notify_service_unfold, IH. reflexivity.
Qed.

Lemma send_policies_unchanged (env : SendEnv) (h : list Alert) (store : list loc)
    (todo : list (string * AlertPolicy.t loc)) :
  Forall (fun p =>
            AlertPolicy.last_key_value_alerts (snd p)
            = Dict.of_list (map (fun a => (uuid (obj h a), a)) store) \/
            (forall t, KeyValue_eqb (AlertPolicy.key (snd p) t)
                                    (AlertPolicy.last_key_value (snd p)) = true)) todo ->
  exists policies, send_policies env h store todo = Some (policies, [], []).
Proof.
  induction 1 as [|[policy_name policy] todo Hp Htodo IH]; simpl; [eauto|].
  pose proof (receive_alerts_tracked (fun l => uuid (obj h l)) policy
                (naive (utcnow_send env)) store Hp) as Hr.
  destruct (AlertPolicy.receive_alerts _ policy _ store) as [policy' [gone new]].
  simpl in Hr. injection Hr as -> ->. simpl.
  rewrite notify_services_unchanged. simpl.
  destruct IH as [policies ->]. simpl.
  destruct (String.eqb policy_name "IMMEDIATELY"); simpl; eauto.
Qed.

Lemma notify_service_applies product_type classes factories policy_name
    alerts gone_alerts new_alerts desc a g n raised :
  notify_service product_type classes factories policy_name
    alerts gone_alerts new_alerts desc = Some (Sent a g n raised) ->
  Forall (fun alert => applies_to_service product_type classes desc alert = true)
         (a ++ g ++ n) /\
  Forall (fun alert => get_alert_policy alert classes <> "NEVER") a /\
  Forall (fun alert => get_alert_policy alert classes = policy_name) (g ++ n) /\
  (forall alert, In alert a -> In alert alerts) /\
  (forall alert, In alert g -> In alert gone_alerts) /\
  (forall alert, In alert n -> In alert new_alerts).
Proof.
  rewrite notify_service_unfold.
  set (left := cancel_pairs _ _).
  destruct (cancel_pairs_sublist
              (service_changes_of product_type classes desc policy_name gone_alerts)
              (service_changes_of product_type classes desc policy_name new_alerts))
    as (Hsg & Hsn & _).
  fold left in Hsg, Hsn.
  assert (Ha : forall alert,
            In alert (undismissed (service_alerts_of product_type classes desc alerts)) ->
            applies_to_service product_type classes desc alert = true /\
            get_alert_policy alert classes <> "NEVER" /\ In alert alerts).
  { intros alert Hin. apply undismissed_incl in Hin.
    unfold service_alerts_of in Hin. apply filter_In in Hin as [Hin Hc].
    apply andb_true_iff in Hc as [Hc Hp]. split; [exact Hc|]. split; [|exact Hin].
    apply negb_true_iff, String.eqb_neq in Hp. exact Hp. }
  assert (Hc : forall changed alert,
            In alert (service_changes_of product_type classes desc policy_name changed) ->
            applies_to_service product_type classes desc alert = true /\
            get_alert_policy alert classes = policy_name /\ In alert changed).
  { intros changed alert Hin. unfold service_changes_of in Hin.
    apply filter_In in Hin as [Hin Hc]. apply andb_true_iff in Hc as [Hc Hp].
    split; [exact Hc|]. split; [|exact Hin]. apply String.eqb_eq in Hp. exact Hp. }
  assert (Hg : forall alert, In alert (undismissed (fst left)) ->
            applies_to_service product_type classes desc alert = true /\
            get_alert_policy alert classes = policy_name /\ In alert gone_alerts).
  { intros alert Hin. apply undismissed_incl in Hin.
    apply (Hc gone_alerts). eapply sublist_In; eauto. }
  assert (Hn : forall alert, In alert (undismissed (snd left)) ->
            applies_to_service product_type classes desc alert = true /\
            get_alert_policy alert classes = policy_name /\ In alert new_alerts).
  { intros alert Hin. apply undismissed_incl in Hin.
    apply (Hc new_alerts). eapply sublist_In; eauto. }
  revert Ha Hg Hn.
  generalize (undismissed (service_alerts_of product_type classes desc alerts)),
             (undismissed (fst left)), (undismissed (snd left)).
  intros ua ug un Ha Hg Hn Hout.
  assert (Hsent : a = ua /\ g = ug /\ n = un).
  { destruct (fst left), (snd left);
      try discriminate;
      (destruct (factories !! service_type desc) as [factory|]; [|discriminate]);
      (destruct (factory (service_attributes desc)) as [alert_service|]; [|discriminate]);
      destruct ua, ug, un; try discriminate;
      injection Hout as <- <- <- _; auto. }
  destruct Hsent as (-> & -> & ->).
  split.
  { apply List.Forall_forall. intros alert Hin.
    apply in_app_iff in Hin as [Hin|Hin]; [apply Ha, Hin|].
    apply in_app_iff in Hin as [Hin|Hin]; [apply Hg, Hin|apply Hn, Hin]. }
  split; [apply List.Forall_forall; intros alert Hin; apply Ha, Hin|].
  split.
  { apply List.Forall_forall. intros alert Hin.
    apply in_app_iff in Hin as [Hin|Hin]; [apply Hg, Hin|apply Hn, Hin]. }
  split; [intros alert Hin; apply Ha, Hin|].
  split; [intros alert Hin; apply Hg, Hin|intros alert Hin; apply Hn, Hin].
Qed.

Lemma applies_to_service_spec product_type classes desc alert :
  applies_to_service product_type classes desc alert = true ->
  In product_type (products (klass alert)) /\
  (value (service_level desc) <= value (get_alert_level alert classes))%Z.
Proof.
  unfold applies_to_service. intros Ha. apply andb_true_iff in Ha as [Hp Hl].
  apply bool_decide_eq_true, list_elem_of_In in Hp. apply Z.leb_le in Hl. auto.
Qed.

Lemma notify_services_well_sent (env : SendEnv) policy_name alerts gone_alerts
    new_alerts descs effects entries type a g n :
  (forall desc, In desc descs -> In desc (alert_services env)) ->
  notify_services env policy_name alerts gone_alerts new_alerts descs
  = Some (effects, entries) ->
  In (Send type a g n) effects ->
  well_sent env alerts policy_name type a g n.
Proof.
  revert effects entries.
  induction descs as [|desc descs IH]; simpl; intros effects entries Hdescs.
  - intros [= <- <-] [].
  - destruct (notify_service _ _ _ _ _ _ _ desc) as [o|] eqn:Ho; simpl; [|discriminate].
    destruct (notify_services _ _ _ _ _ descs) as [[effects' entries']|]; simpl;
      [|discriminate].
    destruct (outcome_effects desc o) as [e l] eqn:He.
    intros [= <- <-] Hin. apply in_app_or in Hin as [Hin|Hin]; [|eauto].
    destruct o; simpl in He; injection He as <- <-; simpl in Hin; try tauto.
    destruct Hin as [[= <- <- <- <-]|[]].
    destruct (notify_service_applies _ _ _ _ _ _ _ _ _ _ _ _ Ho)
      as (Happ & Hnever & Hpol & Hstore & _).
    exists desc. split; [apply Hdescs; left; reflexivity|]. split; [reflexivity|].
    split; [|auto].
    eapply List.Forall_impl; [|exact Happ]. intros alert. apply applies_to_service_spec.
Qed.

Lemma send_policies_well_sent (env : SendEnv) h store todo policies effects entries
    type a g n :
  send_policies env h store todo = Some (policies, effects, entries) ->
  In (Send type a g n) effects ->
  exists policy_name,
    In policy_name (map fst todo) /\
    well_sent env (map (obj h) store) policy_name type a g n.
Proof.
  revert policies effects entries.
  induction todo as [|[policy_name policy] todo IH]; simpl; intros policies effects entries.
  - intros [= <- <- <-] [].
  - destruct (AlertPolicy.receive_alerts _ policy _ store) as [policy' [gone new]].
    destruct (notify_services _ _ _ _ _ _) as [[effects1 entries1]|] eqn:Hn; simpl;
      [|discriminate].
    destruct (send_policies env h store todo) as [[[policies' effects2] entries2]|];
      simpl; [|discriminate].
    intros [= <- <- <-] Hin.
    apply in_app_or in Hin as [Hin|Hin].
    { exists policy_name. split; [left; reflexivity|].
      eapply notify_services_well_sent; eauto. }
    apply in_app_or in Hin as [Hin|Hin].
    { destruct (String.eqb policy_name "IMMEDIATELY"); [|destruct Hin].
      exfalso. eapply immediate_effects_not_send, Hin. }
    destruct (IH _ _ _ eq_refl Hin) as (pn & Hpn & Hw).
    exists pn. split; [right; exact Hpn|exact Hw].
Qed.

Section SendFacts.
Context `{PyNum}.

Lemma add_logs_fields (entries : list LogEntry) (st : State) :
  heap (fold_left (fun st e => add_log e st) entries st) = heap st /\
  alerts (fold_left (fun st e => add_log e st) entries st) = alerts st /\
  policies (fold_left (fun st e => add_log e st) entries st) = policies st.
Proof.
  revert st. induction entries as [|e entries IH]; simpl; intros st; [auto|].
  destruct (IH (add_log e st)) as (-> & -> & ->). auto.
Qed.

(** X15.  The policies that [initialize] creates are given the alerts
    that were loaded, so the dispatch pass that follows - at whatever
    time, with whatever alert services and settings - sends nothing for
    them: no alert service is called, and no event and no mail is sent.
    The alerts are as they were. *)
Theorem restart_sends_nothing (utcnow : string -> Z) (env : SendEnv) (st : State) :
  exists st',
    send_alerts env (initialize_policies utcnow st) = Some (st', []) /\
    heap st' = heap st /\ alerts st' = alerts st.
Proof.
  unfold send_alerts.
  destruct (negb (String.eqb (send_system_state env) "READY")).
  - eexists. split; [reflexivity|]. split; reflexivity.
  - destruct (send_policies_unchanged env (heap (initialize_policies utcnow st))
                (alerts (initialize_policies utcnow st))
                (policies (initialize_policies utcnow st)))
      as [policies' Hsend].
    { unfold initialize_policies, initial_policies. simpl.
      apply List.Forall_cons; [left; reflexivity|].
      apply List.Forall_cons; [left; reflexivity|].
      apply List.Forall_cons; [left; reflexivity|].
      apply List.Forall_cons; [right; intros t; reflexivity|].
      constructor. }
    rewrite Hsend. simpl. eexists. split; [reflexivity|]. split; reflexivity.
Qed.

(** X16.  A dispatch pass runs to its end, changes no alert, and
    whatever it sends to an alert service respects the settings: the
    service is one of the enabled ones; every alert that it is given is
    for the product of the system and at or above the level of the
    service; the alerts of the store that it is told of are alerts of the
    store whose class is not set to NEVER; and the gone and the new alerts
    come from one policy and are of classes set to that policy. *)
Theorem send_alerts_respects_settings (env : SendEnv) (st : State) :
  exists st' effects,
    send_alerts env st = Some (st', effects) /\
    heap st' = heap st /\ alerts st' = alerts st /\
    forall type sent_alerts sent_gone sent_new,
      In (Send type sent_alerts sent_gone sent_new) effects ->
      exists policy_name,
        In policy_name (map fst (policies st)) /\
        well_sent env (store st) policy_name type sent_alerts sent_gone sent_new.
Proof.
  unfold send_alerts.
  destruct (negb (String.eqb (send_system_state env) "READY")).
  - eexists _, _. split; [reflexivity|]. split; [reflexivity|]. split; [reflexivity|].
    intros type a g n [].
  - destruct (send_policies_total env (heap st) (alerts st) (policies st))
      as [[[policies' effects] entries] Hp].
    rewrite Hp. simpl.
    destruct (add_logs_fields entries (set_policies policies' st)) as (Hh & Ha & _).
    eexists _, _. split; [reflexivity|]. split; [exact Hh|]. split; [exact Ha|].
    intros type a g n Hin.
    eapply send_policies_well_sent; eauto.
Qed.

End SendFacts.

(** ** What the jobs keep of a well-formed state *)

Lemma filter_shorter {A : Type} (f : A -> bool) (l : list A) (x : A) :
  In x l -> f x = false -> length (List.filter f l) < length l.
Proof.
  induction l as [|y l IH]; simpl; intros Hin Hx; [destruct Hin|].
  pose proof (sublist_length _ _ (filter_sublist f l)) as Hle.
  destruct Hin as [->|Hin].
  - rewrite Hx. lia.
  - specialize (IH Hin Hx). destruct (f y); simpl; lia.
Qed.

Section JobFacts.
Context `{PyNum} `{AlertBase}.

Lemma oneshot_create_state
    (class_by_name : gmap string AlertClass)
    (create : AlertClass -> option Args -> option Alert) (inp : HandleInput)
    (st : State) (klass_name : string) (create_args : option Args)
    (k : AlertClass) (alert : Alert) :
  refs_valid st ->
  class_by_name !! klass_name = Some k ->
  is_oneshot k = true ->
  create k create_args = Some alert ->
  let created :=
    handle_alert (store st) inp
      (set_node (Some (self_node st)) (set_source (Some "") alert)) in
  exists st',
    oneshot_create class_by_name create inp st klass_name create_args
    = Created st' true /\
    heap st' = heap st ++ [created] /\
    alerts st'
    = List.filter (fun a => negb (bool_decide (uuid (obj (heap st) a) = uuid created)))
                  (alerts st)
      ++ [length (heap st)] /\
    tables st' = tables st.
Proof.
  intros Hvalid Hk Hone Hcreate. cbv zeta.
  unfold oneshot_create. rewrite Hk, Hone, Hcreate. cbn [negb].
  unfold alloc. rewrite !update_alloc.
  cbn [self_node set_heap heap alerts].
  rewrite store_grow by exact Hvalid.
  rewrite obj_app_new.
  set (created := handle_alert (store st) inp _).
  eexists. split; [reflexivity|].
  split; [reflexivity|]. split; [|reflexivity].
  cbn [set_alerts set_heap heap alerts]. f_equal.
  apply filter_ext_in. intros a Ha.
  rewrite obj_app_old; [reflexivity|].
  apply (proj1 (List.Forall_forall _ _) Hvalid a Ha).
Qed.

(** X17.  [oneshot_create] keeps the store well-formed.  After it has
    created an alert, the references of the store are valid; every alert
    still has a last occurrence if every alert had one; the identifiers of
    the store are pairwise distinct if they were; the store has grown by
    one alert at most, and has not grown when it held an alert of this
    node, of the source [""] and of the class and the key of the new one;
    the policies and the locks are as before. *)
Theorem oneshot_create_keeps_store
    (class_by_name : gmap string AlertClass)
    (create : AlertClass -> option Args -> option Alert) (inp : HandleInput)
    (st : State) (klass_name : string) (create_args : option Args)
    (k : AlertClass) (alert : Alert) :
  refs_valid st ->
  class_by_name !! klass_name = Some k ->
  is_oneshot k = true ->
  create k create_args = Some alert ->
  exists st',
    oneshot_create class_by_name create inp st klass_name create_args
    = Created st' true /\
    refs_valid st' /\
    (store_seen st -> store_seen st') /\
    (List.NoDup (map uuid (store st)) -> List.NoDup (map uuid (store st'))) /\
    length (store st') <= S (length (store st)) /\
    ((exists e, In e (store st) /\
                node e = Some (self_node st) /\ source e = Some "" /\
                klass e = klass alert /\ key e = key alert) ->
     length (store st') <= length (store st)) /\
    policies st' = policies st /\
    blocked_sources st' = blocked_sources st /\
    sources_locks st' = sources_locks st.
Proof.
  intros Hvalid Hk Hone Hcreate.
  destruct (oneshot_create_state class_by_name create inp st klass_name create_args
              k alert Hvalid Hk Hone Hcreate) as (st' & Hres & Hh & Ha & Ht).
  set (stamped := set_node (Some (self_node st)) (set_source (Some "") alert)) in *.
  set (created := handle_alert (store st) inp stamped) in *.
  assert (Hstore : store st'
                   = List.filter (fun a => negb (bool_decide (uuid a = uuid created)))
                                 (store st) ++ [created]).
  { unfold store. rewrite Hh, Ha, map_app. simpl. rewrite obj_app_new. f_equal.
    pose proof (filter_map_obj (heap st)
                  (fun a => negb (bool_decide (uuid a = uuid created))) (alerts st)) as Hf.
    cbv beta in Hf. rewrite <- Hf.
    apply map_obj_ext. intros a Hin. apply obj_app_old.
    apply filter_In in Hin as [Hin _].
    apply (proj1 (List.Forall_forall _ _) Hvalid a Hin). }
  exists st'. split; [exact Hres|].
  split.
  { unfold refs_valid. rewrite Hh, Ha, length_app. simpl.
    apply List.Forall_app. split.
    - apply List.Forall_forall. intros a Hin. apply filter_In in Hin as [Hin _].
      pose proof (proj1 (List.Forall_forall _ _) Hvalid a Hin). simpl in *. lia.
    - repeat constructor. lia. }
  split.
  { intros Hseen. unfold store_seen. rewrite Hh, Ha.
    apply List.Forall_app. split.
    - apply List.Forall_forall. intros a Hin. apply filter_In in Hin as [Hin _].
      apply seen_app. apply (proj1 (List.Forall_forall _ _) Hseen a Hin).
    - repeat constructor.
      + rewrite length_app. simpl. lia.
      + rewrite obj_app_new. apply handle_alert_seen. }
  split.
  { intros Hnd. rewrite Hstore, map_app. simpl.
    apply NoDup_ListNoDup, NoDup_app. split; [|split].
    - apply NoDup_ListNoDup.
      apply (NoDup_map_sublist uuid _ (store st)); [apply filter_sublist|exact Hnd].
    - intros u Hu Hc. apply list_elem_of_In in Hu. apply list_elem_of_In in Hc.
      destruct Hc as [<-|[]].
      apply in_map_iff in Hu as (a & Hua & Hin). apply filter_In in Hin as [_ Hf].
      apply negb_true_iff, bool_decide_eq_false in Hf. contradiction.
    - apply NoDup_ListNoDup. repeat constructor. simpl. tauto. }
  split.
  { rewrite Hstore, length_app. simpl.
    pose proof (sublist_length _ _
                  (filter_sublist (fun a => negb (bool_decide (uuid a = uuid created)))
                                  (store st))). lia. }
  split.
  { intros (e & Hin & Hsame). rewrite Hstore, length_app. simpl.
    assert (Hfound : exists e', In e' (store st) /\ uuid created = uuid e').
    { unfold created, handle_alert.
      destruct (List.find (fun a => same_alert a stamped) (store st)) as [e'|] eqn:Hfind.
      - apply find_some in Hfind as [Hin' _]. exists e'. split; [exact Hin'|reflexivity].
      - exfalso. pose proof (find_none _ _ Hfind e Hin) as Hf. simpl in Hf.
        assert (Htrue : same_alert e stamped = true) by (apply same_alert_spec; exact Hsame).
        congruence. }
    destruct Hfound as (e' & Hin' & Hu).
    pose proof (filter_shorter (fun a => negb (bool_decide (uuid a = uuid created)))
                  (store st) e' Hin') as Hlt.
    assert (Hf : negb (bool_decide (uuid e' = uuid created)) = false).
    { rewrite (bool_decide_eq_true_2 _ (eq_sym Hu)). reflexivity. }
    specialize (Hlt Hf). lia. }
  unfold tables in Ht. injection Ht as _ Hp _ Hb Hl _ _. auto.
Qed.

Lemma locks_consistent_fields (st st' : State) :
  blocked_sources st' = blocked_sources st -> sources_locks st' = sources_locks st ->
  locks_consistent st -> locks_consistent st'.
Proof. unfold locks_consistent. intros -> ->. tauto. Qed.

Lemma local_alerts_tables (env : RunEnv) (master_node name : string) (st : State) :
  tables (fst (fst (local_alerts env master_node name st))) = tables st.
Proof.
  unfold local_alerts.
  destruct (bool_decide _).
  - simpl. destruct (updates_fields (set_node (Some master_node))
                       (List.filter (fun l => is_from master_node name (obj (heap st) l))
                                    (alerts st))
                       (add_log (LogDebug "Not running alert source because it is blocked"
                                          name) st)) as (_ & _ & _ & ->).
    reflexivity.
  - destruct (run_source _ _ _) as [rs [fresh|]].
    + destruct (alloc_all_fields fresh (set_run_state rs st)) as (_ & _ & _ & Ht & _).
      destruct (alloc_all fresh (set_run_state rs st)) as [st' ls]. simpl in *.
      destruct (updates_fields (set_node (Some master_node)) ls st') as (_ & _ & _ & ->).
      exact Ht.
    + simpl. destruct (updates_fields (set_node (Some master_node))
                         (List.filter (fun l => is_from master_node name (obj (heap st) l))
                                      (alerts st))
                         (set_run_state rs st)) as (_ & _ & _ & ->).
      reflexivity.
Qed.

Lemma remote_alerts_tables (env : RunEnv) (backup_node : string) (run_on_backup : bool)
    (alert_source : AlertSource) (locked : bool) (st : State) :
  tables (fst (remote_alerts env backup_node run_on_backup alert_source locked st))
  = tables st.
Proof.
  unfold remote_alerts.
  assert (Hup : forall ls s, tables (fold_left (fun st l => update (set_node (Some backup_node)) l st) ls s)
                             = tables s).
  { intros ls s. apply updates_fields. }
  destruct (_ && _); [|reflexivity].
  destruct locked; [simpl; apply Hup|].
  destruct (remote_result env _) as [fresh| | |e].
  - destruct (alloc_all_fields fresh st) as (_ & _ & _ & Ht & _).
    destruct (alloc_all fresh st) as [st' ls]. simpl in *. rewrite Hup. exact Ht.
  - simpl. apply Hup.
  - simpl. rewrite Hup. reflexivity.
  - match goal with
    | |- context [alloc_all ?f st] =>
        destruct (alloc_all_fields f st) as (_ & _ & _ & Ht & _);
        destruct (alloc_all f st) as [st' ls]
    end.
    simpl in *. rewrite Hup. exact Ht.
Qed.

Lemma run_alert_source_locks (env : RunEnv) (master_node backup_node : string)
    (run_on_backup run_failover_related : bool) (st : State) (alert_source : AlertSource) :
  let st' := run_alert_source env master_node backup_node run_on_backup
               run_failover_related st alert_source in
  blocked_sources st' = blocked_sources st /\ sources_locks st' = sources_locks st /\
  policies st' = policies st.
Proof.
  cbv zeta. unfold run_alert_source.
  destruct (negb (bool_decide _)); [auto|].
  destruct (_ && _); [auto|].
  destruct (negb (should_run _ _ _)); [auto|].
  match goal with
  | |- context [local_alerts env master_node ?n ?s] =>
      pose proof (local_alerts_tables env master_node n s) as Hl;
      destruct (local_alerts env master_node n s) as [[st1 la] locked]
  end.
  simpl in Hl.
  pose proof (remote_alerts_tables env backup_node run_on_backup alert_source locked st1)
    as Hr.
  destruct (remote_alerts env backup_node run_on_backup alert_source locked st1)
    as [st2 lb].
  simpl in Hr.
  destruct (handle_alerts_fields (handle_input env (source_name alert_source)) 0
              (la ++ lb) st2) as (_ & _ & _ & Hh).
  simpl. rewrite Hl in Hr. rewrite Hr in Hh.
  unfold tables in Hh. simpl in Hh. injection Hh as _ Hp _ Hb Hk _ _. auto.
Qed.

Lemma run_sources_kept (env : RunEnv) (master_node backup_node : string)
    (run_on_backup run_failover_related : bool) (sources : list AlertSource) :
  forall st : State,
    store_seen st ->
    let st' := fold_left (run_alert_source env master_node backup_node run_on_backup
                            run_failover_related) sources st in
    store_seen st' /\
    blocked_sources st' = blocked_sources st /\ sources_locks st' = sources_locks st.
Proof.
  cbv zeta. induction sources as [|src sources IH]; simpl; intros st Hseen; [auto|].
  destruct (run_alert_source_locks env master_node backup_node run_on_backup
              run_failover_related st src) as (Hb & Hk & _).
  destruct (IH _ (run_alert_source_seen env master_node backup_node run_on_backup
                    run_failover_related st src Hseen)) as (Hs' & Hb' & Hk').
  split; [exact Hs'|]. split; congruence.
Qed.

(** X18.  A scheduling pass keeps the state well-formed.  On a state
    whose alerts all have a last occurrence and whose lock tables agree,
    [process_alerts] raises no exception, and the state that it leaves -
    whether it ends with the dispatch, or with the alerts put back because
    the system is no longer ready - is again such a state. *)
Theorem process_alerts_keeps_state (sources : list AlertSource) (env : PassEnv)
    (st : State) :
  store_seen st -> locks_consistent st ->
  exists st' called,
    process_alerts sources env st = Some (st', called) /\
    store_seen st' /\ locks_consistent st' /\ refs_valid st'.
Proof.
  intros Hseen Hlocks.
  assert (Hvalid : refs_valid st).
  { apply List.Forall_forall. intros l Hl.
    apply (proj1 (List.Forall_forall _ _) Hseen l Hl). }
  assert (Hrv : forall s : State, store_seen s -> refs_valid s).
  { intros s Hs. apply List.Forall_forall. intros l Hl.
    apply (proj1 (List.Forall_forall _ _) Hs l Hl). }
  unfold process_alerts.
  destruct (negb (should_run_or_send_alerts (status_before env))); [eauto 10|].
  destruct (deepcopy_spec (length (heap st)) (alerts st) [] (heap st))
    as (extra & Hh & Hr & Hmap); [lia|exact Hvalid|discriminate|].
  destruct (deepcopy [] (alerts st) (heap st)) as [h1 valid_alerts]. simpl in Hh, Hr, Hmap.
  assert (Hun : untouched h1 (length (heap st)) (length h1) (policies st)
                  (set_heap h1 st)).
  { unfold untouched. simpl. split; [lia|]. split; [auto|]. split; [|reflexivity].
    apply List.Forall_forall. intros l Hl. left.
    apply (proj1 (List.Forall_forall _ _) Hvalid l Hl). }
  assert (Hseen0 : store_seen (set_heap h1 st)).
  { unfold store_seen. simpl. rewrite Hh.
    apply List.Forall_forall. intros l Hl. apply seen_app.
    apply (proj1 (List.Forall_forall _ _) Hseen l Hl). }
  assert (Hlocks0 : locks_consistent (set_heap h1 st)).
  { eapply locks_consistent_fields; [ | |exact Hlocks]; reflexivity. }
  destruct (run_alerts sources (run_env env) (set_heap h1 st)) as [st2|] eqn:Hrun.
  2:{ exfalso. revert Hrun. unfold run_alerts.
      destruct (unblock_expired_total (monotonic_lock (run_env env))
                  (sources_locks (set_heap h1 st)) (set_heap h1 st) Hlocks0)
        as (s1 & -> & _). simpl. discriminate. }
  pose proof (untouched_run_alerts _ _ _ _ _ _ _ _ Hrun Hun) as Hun2.
  assert (Hst2 : store_seen st2 /\ locks_consistent st2).
  { revert Hrun. unfold run_alerts.
    destruct (unblock_expired_spec (monotonic_lock (run_env env))
                (sources_locks (set_heap h1 st)) (set_heap h1 st) Hlocks0)
      as (s1 & -> & Hl1 & _ & _ & _ & _ & Hh1 & Ha1 & _).
    simpl. intros [= <-].
    assert (Hs1 : store_seen s1).
    { unfold store_seen. rewrite Hh1, Ha1. exact Hseen0. }
    match goal with
    | |- context [fold_left ?f sources s1] =>
        destruct (run_sources_kept (run_env env)
                    (if String.eqb (product_type (run_env env)) "SCALE_ENTERPRISE"
                        && licensed (run_env env)
                        && String.eqb (failover_node (run_env env)) "B"
                     then "B" else "A")
                    (if String.eqb (product_type (run_env env)) "SCALE_ENTERPRISE"
                        && licensed (run_env env)
                        && String.eqb (failover_node (run_env env)) "B"
                     then "A" else "B")
                    (String.eqb (product_type (run_env env)) "SCALE_ENTERPRISE"
                     && licensed (run_env env)
                     && match remote_status (run_env env) with
                        | Some (remote_version, remote_system_state, remote_failover_status) =>
                            String.eqb remote_version (system_version (run_env env))
                            && String.eqb remote_system_state "READY"
                            && String.eqb remote_failover_status "BACKUP"
                        | None => false
                        end)
                    (String.eqb (product_type (run_env env)) "SCALE_ENTERPRISE"
                     && num_ltb (blocked_failover_alerts_until (set_heap h1 st))
                                (monotonic_failover (run_env env)))
                    sources s1 Hs1) as (Hs2 & Hb2 & Hk2)
    end.
    split; [exact Hs2|].
    eapply locks_consistent_fields; [exact Hb2|exact Hk2|exact Hl1]. }
  destruct Hst2 as [Hseen2 Hlocks2].
  simpl.
  destruct (expire_alerts (utcnow_expire env) st2) as [st3|] eqn:Hexpire.
  2:{ exfalso. revert Hexpire. unfold expire_alerts.
      destruct (keep_unexpired_total (utcnow_expire env) 0 (heap st2) (alerts st2) Hseen2)
        as [kept ->]. simpl. discriminate. }
  pose proof (untouched_expire_alerts _ _ _ _ _ _ _ Hexpire Hun2) as Hun3.
  assert (Hst3 : store_seen st3 /\ locks_consistent st3 /\ heap st3 = heap st2).
  { revert Hexpire. unfold expire_alerts.
    destruct (keep_unexpired (utcnow_expire env) 0 (heap st2) (alerts st2)) as [kept|] eqn:Hk;
      simpl; [|discriminate].
    intros [= <-]. split; [|split; [|reflexivity]].
    - unfold store_seen. simpl. apply List.Forall_forall. intros l Hl.
      apply (proj1 (List.Forall_forall _ _) Hseen2 l).
      eapply keep_unexpired_In; eauto.
    - eapply locks_consistent_fields; [ | |exact Hlocks2]; reflexivity. }
  destruct Hst3 as (Hseen3 & Hlocks3 & Hh3).
  simpl.
  destruct (negb (should_run_or_send_alerts (status_after env))).
  - eexists _, _. split; [reflexivity|].
    assert (Hback : store_seen (set_alerts valid_alerts st3)).
    { unfold store_seen. simpl.
      destruct Hun3 as (Htop & Hreg & _ & _).
      apply List.Forall_forall. intros l Hl.
      pose proof (proj1 (List.Forall_forall _ _) Hr l Hl) as Hb. simpl in Hb.
      assert (Hobj : obj (heap st3) l = obj h1 l) by (apply obj_lookup, Hreg; lia).
      split; [lia|]. rewrite Hobj.
      assert (Hin : In (obj h1 l) (map (obj (heap st)) (alerts st))).
      { rewrite <- Hmap. apply in_map, Hl. }
      apply in_map_iff in Hin as (l0 & Heq & Hl0). rewrite <- Heq.
      apply (proj1 (List.Forall_forall _ _) Hseen l0 Hl0). }
    split; [exact Hback|]. split; [|apply Hrv, Hback].
    eapply locks_consistent_fields; [ | |exact Hlocks3]; reflexivity.
  - eexists _, _. split; [reflexivity|]. split; [exact Hseen3|].
    split; [exact Hlocks3|apply Hrv, Hseen3].
Qed.

End JobFacts.

Lemma oneshot_create_keeps_store_witness :
  exists st',
    oneshot_create Example.class_by_name Example.create Example.input
      (Example.state_with (Example.quota "A")) "Quota" None = Created st' true /\
    length (store st') <= 1.
Proof.
  destruct (@oneshot_create_keeps_store Example.Z_num Example.class_by_name Example.create
              Example.input (Example.state_with (Example.quota "A")) "Quota" None
              Example.Quota
              {| uuid := None; source := None; klass := Example.Quota; args := None;
                 node := None; key := Some "tank"; datetime := None;
                 last_occurrence := None; dismissed := false; mail := None |})
    as (st' & Hres & _ & _ & _ & _ & Hsame & _).
  - repeat constructor.
  - vm_compute. reflexivity.
  - reflexivity.
  - reflexivity.
  - exists st'. split; [exact Hres|].
    apply Hsame. exists (Example.quota "A").
    split; [left; reflexivity|]. repeat split; reflexivity.
Defined.

Lemma process_alerts_keeps_state_witness :
  exists st' called,
    @process_alerts Example.Z_num Example.base
      [Example.disk_source] Example.pass_env Example.blocked_state
    = Some (st', called) /\
    store_seen st'.
Proof.
  destruct (@process_alerts_keeps_state Example.Z_num Example.base
              [Example.disk_source] Example.pass_env Example.blocked_state)
    as (st' & called & Hpass & Hseen & _).
  - repeat constructor; simpl; try lia; discriminate.
  - split.
    + simpl. repeat constructor. simpl. tauto.
    + simpl. intros k n e [[= <- <- <-]|[]]. vm_compute. reflexivity.
  - exists st', called. split; [exact Hpass|exact Hseen].
Defined.

(** ** The categories, and the rows of the alert services *)

Lemma title_order_trans (a b c : string) :
  String.compare a b <> Gt -> String.compare b c <> Gt -> String.compare a c <> Gt.
Proof.
  intros Hab Hbc.
  destruct (String.compare a b) eqn:Eab; [| |congruence].
  - apply String.compare_eq_iff in Eab. subst b. exact Hbc.
  - destruct (String.compare b c) eqn:Ebc; [| |congruence].
    + apply String.compare_eq_iff in Ebc. subst c. rewrite Eab. discriminate.
    + rewrite (string_compare_trans a b c Eab Ebc). discriminate.
Qed.

Lemma Forall2_In_right {A B : Type} (P : A -> B -> Prop) (l : list A) (k : list B)
    (y : B) :
  Forall2 P l k -> In y k -> exists x, In x l /\ P x y.
Proof.
  induction 1 as [|x y' l k Hxy Hlk IH]; intros Hin; [destruct Hin|].
  destruct Hin as [->|Hin]; [exists x; split; [left; reflexivity|exact Hxy]|].
  destruct (IH Hin) as (x' & Hx' & Hp). exists x'. split; [right; exact Hx'|exact Hp].
Qed.

Lemma category_of_spec (alert_category_names : list (string * string))
    (classes : list ClassEntry) (c : string) :
  In c (Dict.keys alert_category_names) ->
  existsb (fun e => String.eqb (category e) c) classes = true ->
  exists cat,
    category_of alert_category_names classes c = Some cat /\
    category_id cat = c /\
    Dict.get alert_category_names c = Some (category_title cat) /\
    category_classes cat <> [] /\
    StronglySorted
      (fun a b => String.compare (class_title a) (class_title b) <> Gt)
      (category_classes cat) /\
    Permutation (category_classes cat)
      (map category_class
           (List.filter (fun e => String.eqb (category e) c) classes)).
Proof.
  intros Hc Hex. unfold category_of.
  destruct (Dict_get_In alert_category_names c Hc) as (t & -> & _). simpl.
  set (rows := map category_class
                   (List.filter (fun e => String.eqb (category e) c) classes)).
  set (cmp := fun a b : CategoryClass =>
                Some (String.compare (class_title a) (class_title b))).
  assert (Hok : Forall (fun _ : CategoryClass => True) rows)
    by (apply List.Forall_forall; auto).
  destruct (sorted_defined cmp (fun _ => True)
              ltac:(intros x y _ _; discriminate) rows Hok) as [s Hs].
  rewrite Hs. simpl. eexists. split; [reflexivity|]. simpl.
  pose proof (sorted_perm cmp rows s Hs) as Hperm.
  split; [reflexivity|]. split; [reflexivity|].
  split.
  { intros ->. apply Permutation_nil in Hperm.
    apply existsb_exists in Hex as (e & Hin & He).
    assert (Hrow : In (category_class e) rows).
    { unfold rows. apply in_map, filter_In. auto. }
    rewrite Hperm in Hrow. destruct Hrow. }
  split; [|exact Hperm].
  apply (sorted_sorted cmp (fun _ => True)
           (fun a b => String.compare (class_title a) (class_title b) <> Gt))
    with (l := rows); [ | |exact Hok|exact Hs].
  - intros x y _ _. unfold cmp.
    destruct (String.compare (class_title x) (class_title y)) eqn:Hxy.
    + discriminate.
    + discriminate.
    + rewrite (string_compare_Gt _ _ Hxy). discriminate.
  - intros x y z. apply title_order_trans.
Qed.

(** X19.  When every category has a name, [list_categories] returns, in
    the order of the enum, one entry for every category that has a class
    to show, and no entry for the others.  The classes of an entry are
    exactly the registered classes of the category that are for the
    product of the system and are not excluded from the list - a class
    with [exclude_from_list] is in no entry - and they are sorted by
    their titles. *)
Theorem list_categories_shows (AlertCategory : list string)
    (alert_category_names : list (string * string))
    (AlertClass_classes : list ClassEntry) (product_type : string) :
  (forall c, In c AlertCategory -> In c (Dict.keys alert_category_names)) ->
  let shown := fun e =>
    bool_decide (product_type ∈ products (entry_class e))
    && negb (exclude_from_list (entry_class e)) in
  let classes := List.filter shown AlertClass_classes in
  exists cats,
    list_categories AlertCategory alert_category_names AlertClass_classes product_type
    = Some cats /\
    Forall2
      (fun c cat =>
         category_id cat = c /\
         Dict.get alert_category_names c = Some (category_title cat) /\
         category_classes cat <> [] /\
         StronglySorted
           (fun a b => String.compare (class_title a) (class_title b) <> Gt)
           (category_classes cat) /\
         Permutation (category_classes cat)
           (map category_class
                (List.filter (fun e => String.eqb (category e) c) classes)))
      (List.filter
         (fun c => existsb (fun e => String.eqb (category e) c) classes)
         AlertCategory)
      cats /\
    (forall cat row,
       In cat cats -> In row (category_classes cat) ->
       exists e,
         In e AlertClass_classes /\ row = category_class e /\
         category e = category_id cat /\
         In product_type (products (entry_class e)) /\
         exclude_from_list (entry_class e) = false).
Proof.
  intros Hnames. cbv zeta. unfold list_categories.
  set (shown := fun e : ClassEntry =>
                  bool_decide (product_type ∈ products (entry_class e))
                  && negb (exclude_from_list (entry_class e))).
  set (classes := List.filter shown AlertClass_classes).
  set (P := fun (c : string) (cat : Category) =>
              category_id cat = c /\
              Dict.get alert_category_names c = Some (category_title cat) /\
              category_classes cat <> [] /\
              StronglySorted
                (fun a b => String.compare (class_title a) (class_title b) <> Gt)
                (category_classes cat) /\
              Permutation (category_classes cat)
                (map category_class
                     (List.filter (fun e => String.eqb (category e) c) classes))).
  assert (Hgen : forall cs,
            (forall c, In c cs ->
               In c (Dict.keys alert_category_names) /\
               existsb (fun e => String.eqb (category e) c) classes = true) ->
            exists cats,
              Forall2 (fun c cat => category_of alert_category_names classes c = Some cat)
                      cs cats /\
              Forall2 P cs cats).
  { induction cs as [|c cs IH]; intros Hcs.
    - exists []. split; constructor.
    - destruct (Hcs c (or_introl eq_refl)) as [Hc Hex].
      destruct (category_of_spec alert_category_names classes c Hc Hex)
        as (cat & Hcat & Hprops).
      destruct IH as (cats & Hf & Hp); [intros c' Hc'; apply Hcs; right; exact Hc'|].
      exists (cat :: cats). split; constructor; assumption. }
  destruct (Hgen (List.filter
                    (fun c => existsb (fun e => String.eqb (category e) c) classes)
                    AlertCategory)) as (cats & Hf & Hp).
  { intros c Hc. apply filter_In in Hc as [Hc Hex]. split; [apply Hnames, Hc|exact Hex]. }
  exists cats. split; [apply mapM_Some, Hf|]. split; [exact Hp|].
  intros cat row Hcat Hrow.
  destruct (Forall2_In_right _ _ _ _ Hp Hcat) as (c & _ & Hid & _ & _ & _ & Hperm).
  apply (Permutation_in _ Hperm) in Hrow.
  apply in_map_iff in Hrow as (e & <- & He).
  apply filter_In in He as [He Hc]. apply String.eqb_eq in Hc.
  unfold classes in He. apply filter_In in He as [He Hs].
  unfold shown in Hs. apply andb_true_iff in Hs as [Hprod Hexcl].
  exists e. split; [exact He|]. split; [reflexivity|]. split; [congruence|].
  split.
  - apply bool_decide_eq_true, list_elem_of_In in Hprod. exact Hprod.
  - apply negb_true_iff in Hexcl. exact Hexcl.
Qed.

Section DictPopSet.
Context {K V : Type} `{EqDecision K}.

Lemma Dict_pop_set (d : list (K * V)) (k : K) (v : V) :
  Dict.pop (Dict.set d k v) k = Dict.pop d k.
Proof.
  induction d as [|[k0 v0] d IH]; simpl.
  - destruct (decide (k = k)); [reflexivity|congruence].
  - destruct (decide (k = k0)) as [->|Hne]; simpl.
    + destruct (decide (k0 = k0)); [reflexivity|congruence].
    + destruct (decide (k = k0)); [congruence|]. rewrite IH. reflexivity.
Qed.

Lemma Dict_pop_absent (d : list (K * V)) (k : K) :
  ~ In k (Dict.keys d) -> Dict.pop d k = d.
Proof.
  unfold Dict.keys. induction d as [|[k0 v0] d IH]; simpl; intros Hk; [reflexivity|].
  destruct (decide (k = k0)) as [->|Hne]; [tauto|].
  rewrite IH by tauto. reflexivity.
Qed.

End DictPopSet.

(** X20.  [_compress] undoes [_extend]: a row of an alert service that
    went through [_extend] is compressed without a [KeyError] to the row
    without its title - to the row as it was, if it had no title.  A row
    that has no title cannot be compressed. *)
Theorem compress_undoes_extend (titles : gmap string string)
    (service : list (string * string)) :
  _compress (_extend titles service) = Some (Dict.pop service "type__title") /\
  (~ In "type__title" (Dict.keys service) ->
   _compress (_extend titles service) = Some service) /\
  (~ In "type__title" (Dict.keys service) <-> _compress service = None).
Proof.
  assert (Hround : _compress (_extend titles service)
                   = Some (Dict.pop service "type__title")).
  { unfold _compress, _extend, Dict.mem. rewrite Dict_get_set.
    destruct (decide ("type__title" = "type__title")); [|congruence].
    rewrite Dict_pop_set. reflexivity. }
  split; [exact Hround|]. split.
  - intros Habsent. rewrite Hround, Dict_pop_absent by exact Habsent. reflexivity.
  - unfold _compress. rewrite <- Dict_mem_false.
    destruct (Dict.mem "type__title" service); split; congruence.
Qed.

Lemma list_categories_shows_witness :
  exists cats,
    list_categories ["SYSTEM"; "STORAGE"]
      [("SYSTEM", "System"); ("STORAGE", "Storage")]
      [mkClassEntry Example.DiskFail "STORAGE" false;
       mkClassEntry (@TestAlertClass Example.base) "SYSTEM" false]
      "SCALE"
    = Some cats /\
    map category_id cats = ["STORAGE"].
Proof.
  destruct (list_categories_shows ["SYSTEM"; "STORAGE"]
              [("SYSTEM", "System"); ("STORAGE", "Storage")]
              [mkClassEntry Example.DiskFail "STORAGE" false;
               mkClassEntry (@TestAlertClass Example.base) "SYSTEM" false]
              "SCALE") as (cats & Hres & Hcats & _).
  - simpl. tauto.
  - exists cats. split; [exact Hres|].
    assert (Hfilter :
      List.filter
        (fun c => existsb (fun e => String.eqb (category e) c)
                    (List.filter
                       (fun e => bool_decide ("SCALE" ∈ products (entry_class e))
                                 && negb (exclude_from_list (entry_class e)))
                       [mkClassEntry Example.DiskFail "STORAGE" false;
                        mkClassEntry (@TestAlertClass Example.base) "SYSTEM" false]))
        ["SYSTEM"; "STORAGE"] = ["STORAGE"]) by (vm_compute; reflexivity).
    rewrite Hfilter in Hcats.
    inversion Hcats as [|c cat cs cats' (Hid & _) Htail]; subst.
    inversion Htail; subst. simpl. rewrite Hid. reflexivity.
Defined.

(** ** The alerts that the sources of a pass do not own *)

Lemma filter_sublist_mono {A : Type} (f : A -> bool) (l1 l2 : list A) :
  sublist l1 l2 -> sublist (List.filter f l1) (List.filter f l2).
Proof.
  induction 1 as [|x l1 l2 Hs IH|x l1 l2 Hs IH]; simpl.
  - constructor.
  - destruct (f x); [apply sublist_skip|]; exact IH.
  - destruct (f x); [apply sublist_cons|]; exact IH.
Qed.

Lemma filter_sublist_impl {A : Type} (f g : A -> bool) (l : list A) :
  (forall x, f x = true -> g x = true) ->
  sublist (List.filter f l) (List.filter g l).
Proof.
  intros Hfg. induction l as [|x l IH]; simpl; [constructor|].
  destruct (f x) eqn:Hf.
  - rewrite (Hfg x Hf). apply sublist_skip, IH.
  - destruct (g x); [apply sublist_cons|]; exact IH.
Qed.

Lemma filter_twice {A : Type} (f : A -> bool) (l : list A) :
  List.filter f (List.filter f l) = List.filter f l.
Proof.
  induction l as [|x l IH]; simpl; [reflexivity|].
  destruct (f x) eqn:Hf; simpl; [rewrite Hf, IH|]; auto.
Qed.

Section OtherSources.
Context `{PyNum} `{AlertBase}.

Lemma run_alert_source_others (env : RunEnv) (master_node backup_node : string)
    (run_on_backup run_failover_related : bool) (st : State)
    (alert_source : AlertSource) :
  refs_valid st ->
  sublist
    (List.filter
       (fun a => negb (bool_decide (source a = Some (source_name alert_source))))
       (store st))
    (store (run_alert_source env master_node backup_node run_on_backup
              run_failover_related st alert_source)).
Proof.
  intros Hv. unfold run_alert_source.
  destruct (negb (bool_decide _)); [apply filter_sublist|].
  destruct (_ && _); [apply filter_sublist|].
  destruct (negb (should_run _ _ _)); [apply filter_sublist|].
  set (name := source_name alert_source).
  set (st0 := set_alert_source_last_run _ st).
  assert (Hst0 : others_kept name (heap st) (alerts st) (tables st0) st0).
  { unfold others_kept. split; [simpl; lia|]. split; [auto|].
    split; [reflexivity|]. split; [exact Hv|reflexivity]. }
  pose proof (kept_local_alerts name (heap st) (alerts st) (tables st0) env master_node
                st0 Hst0) as Hl.
  destruct (local_alerts env master_node name st0) as [[st1 la] locked].
  simpl in Hl. destruct Hl as [Hst1 Hla].
  pose proof (kept_remote_alerts name (heap st) (alerts st) (tables st0) env backup_node
                run_on_backup alert_source locked st1 eq_refl Hst1) as Hr.
  destruct (remote_alerts env backup_node run_on_backup alert_source locked st1)
    as [st2 lb].
  simpl in Hr. destruct Hr as [Hst2 Hlb].
  assert (Hab : Forall (of_source name (heap st)) (la ++ lb))
    by (apply List.Forall_app; auto).
  pose proof (kept_handle_alerts name (heap st) (alerts st) (tables st0)
                (handle_input env name) 0 (la ++ lb) st2 Hab Hst2) as Hst3.
  set (st3 := handle_alerts _ 0 (la ++ lb) st2) in *.
  pose proof (kept_store name (heap st) (alerts st) (tables st0) st3 Hst3) as Hstore.
  unfold store at 2. simpl. rewrite map_app, Hstore.
  apply sublist_inserts_r. reflexivity.
Qed.

Lemma unblock_expired_fields (monotonic : string -> num)
    (items : list (string * (string * num))) :
  forall st st' : State,
    unblock_expired monotonic items st = Some st' ->
    heap st' = heap st /\ alerts st' = alerts st.
Proof.
  induction items as [|[k [n e]] items IH]; simpl; intros st st'.
  - intros [= <-]. auto.
  - destruct (num_leb e (monotonic k)); simpl; [|apply IH].
    unfold unblock_source.
    destruct (Dict.get (sources_locks st) k) as [[sn e0]|]; simpl; [|apply IH].
    destruct (bool_decide _); simpl; [|discriminate].
    intros Hrest. destruct (IH _ _ Hrest) as [-> ->]. auto.
Qed.

(** X21.  The sources of a pass leave alone the alerts that none of them
    owns.  After [__run_alerts] over the registered sources, the alerts
    of the store whose source is not the name of a registered source -
    the one-shot alerts, whose source is [""], among them - are in the
    store, unchanged and in their order; and every alert of the store
    has a last occurrence, as before. *)
Theorem run_alerts_spares_other_sources (sources : list AlertSource) (env : RunEnv)
    (st st' : State) :
  store_seen st ->
  run_alerts sources env st = Some st' ->
  sublist
    (List.filter
       (fun a => negb (bool_decide (source a ∈ map (fun s => Some (source_name s)) sources)))
       (store st))
    (store st') /\
  store_seen st'.
Proof.
  intros Hseen. unfold run_alerts.
  destruct (unblock_expired _ _ st) as [st1|] eqn:Hsweep; simpl; [|discriminate].
  intros [= <-].
  destruct (unblock_expired_fields _ _ _ _ Hsweep) as [Hh1 Ha1].
  assert (Hseen1 : store_seen st1) by (unfold store_seen; rewrite Hh1, Ha1; exact Hseen).
  assert (Hstore1 : store st1 = store st) by (unfold store; rewrite Hh1, Ha1; reflexivity).
  rewrite <- Hstore1. clear Hsweep Hh1 Ha1 Hstore1 Hseen.
  set (unowned := fun a : Alert =>
         negb (bool_decide (source a ∈ map (fun s => Some (source_name s)) sources))).
  match goal with
  | |- context [fold_left ?f sources st1] => set (run := f)
  end.
  assert (Hgen : forall srcs (s : State),
            (forall src, In src srcs -> In src sources) ->
            store_seen s ->
            sublist (List.filter unowned (store s)) (store (fold_left run srcs s)) /\
            store_seen (fold_left run srcs s)).
  { induction srcs as [|src srcs IH]; simpl; intros s Hincl Hs.
    - split; [apply filter_sublist|exact Hs].
    - assert (Hv : refs_valid s).
      { apply List.Forall_forall. intros l Hl.
        apply (proj1 (List.Forall_forall _ _) Hs l Hl). }
      assert (Hs' : store_seen (run s src)) by (apply run_alert_source_seen, Hs).
      destruct (IH (run s src)) as [Hsub Hseen'];
        [intros src' Hsrc'; apply Hincl; right; exact Hsrc'|exact Hs'|].
      split; [|exact Hseen'].
      etransitivity; [|exact Hsub].
      rewrite <- (filter_twice unowned (store s)).
      apply filter_sublist_mono.
      etransitivity; [|apply (run_alert_source_others _ _ _ _ _ s src Hv)].
      apply filter_sublist_impl. intros a Ha.
      apply negb_true_iff, bool_decide_eq_false in Ha.
      apply negb_true_iff, bool_decide_eq_false. intros Heq. apply Ha.
      rewrite Heq. apply list_elem_of_In, in_map_iff.
      exists src. split; [reflexivity|apply Hincl; left; reflexivity]. }
  apply Hgen; [auto|exact Hseen1].
Qed.

End OtherSources.

Lemma run_alerts_spares_other_sources_witness :
  exists st',
    @run_alerts Example.Z_num Example.base [Example.disk_source]
      (run_env Example.pass_env) Sample.mixed_state = Some st' /\
    sublist [Example.new_a] (store st').
Proof.
  destruct (@run_alerts Example.Z_num Example.base [Example.disk_source]
              (run_env Example.pass_env) Sample.mixed_state) as [st'|] eqn:Hrun.
  - exists st'. split; [reflexivity|].
    apply (@run_alerts_spares_other_sources Example.Z_num Example.base
             [Example.disk_source] (run_env Example.pass_env) Sample.mixed_state st').
    + repeat constructor; simpl; discriminate.
    + exact Hrun.
  - exfalso. revert Hrun. unfold run_alerts. simpl. discriminate.
Defined.

(** ** Policies that have nothing to report *)

Lemma send_policies_policies (env : SendEnv) (h : list Alert) (store : list loc)
    (todo : list (string * AlertPolicy.t loc)) policies effects entries :
  send_policies env h store todo = Some (policies, effects, entries) ->
  policies
  = map (fun p => (fst p,
                   fst (AlertPolicy.receive_alerts (fun l => uuid (obj h l)) (snd p)
                          (naive (utcnow_send env)) store)))
        todo.
Proof.
  revert policies effects entries.
  induction todo as [|[policy_name policy] todo IH]; simpl; intros policies effects entries.
  - intros [= <- <- <-]. reflexivity.
  - destruct (AlertPolicy.receive_alerts _ policy _ store) as [policy' [gone new]].
    destruct (notify_services _ _ _ _ _ _) as [[effects1 entries1]|]; simpl;
      [|discriminate].
    destruct (send_policies env h store todo) as [[[policies' effects2] entries2]|];
      simpl; [|discriminate].
    intros [= <- <- <-]. simpl. f_equal. apply (IH _ _ _ eq_refl).
Qed.

Lemma notify_services_only_send (env : SendEnv) policy_name alerts gone_alerts
    new_alerts descs effects entries :
  notify_services env policy_name alerts gone_alerts new_alerts descs
  = Some (effects, entries) ->
  forall effect, In effect effects ->
    exists type a g n, effect = Send type a g n.
Proof.
  revert effects entries.
  induction descs as [|desc descs IH]; simpl; intros effects entries.
  - intros [= <- <-] effect [].
  - destruct (notify_service _ _ _ _ _ _ _ desc) as [o|]; simpl; [|discriminate].
    destruct (notify_services _ _ _ _ _ descs) as [[effects' entries']|]; simpl;
      [|discriminate].
    destruct (outcome_effects desc o) as [e l] eqn:He.
    intros [= <- <-] effect Hin. apply in_app_or in Hin as [Hin|Hin]; [|eauto].
    destruct o; simpl in He; injection He as <- <-; simpl in Hin; try tauto.
    destruct Hin as [<-|[]]. eauto.
Qed.

(** The effects of a pass in which the policy [quiet] has nothing to
    report: what is sent to a service comes from another policy, and
    there are events and mails only if [quiet] is not IMMEDIATELY. *)
Lemma send_policies_quiet (env : SendEnv) (h : list Alert) (store : list loc)
    (quiet : string) (todo : list (string * AlertPolicy.t loc))
    policies effects entries :
  Forall (fun p =>
            fst p = quiet ->
            AlertPolicy.last_key_value_alerts (snd p)
            = Dict.of_list (map (fun a => (uuid (obj h a), a)) store) \/
            (forall t, KeyValue_eqb (AlertPolicy.key (snd p) t)
                                    (AlertPolicy.last_key_value (snd p)) = true)) todo ->
  send_policies env h store todo = Some (policies, effects, entries) ->
  forall effect, In effect effects ->
    match effect with
    | Send type a g n =>
        exists policy_name,
          policy_name <> quiet /\ In policy_name (map fst todo) /\
          well_sent env (map (obj h) store) policy_name type a g n
    | _ => quiet <> "IMMEDIATELY"
    end.
Proof.
  intros Hquiet. revert policies effects entries.
  induction Hquiet as [|[policy_name policy] todo Hp Htodo IH]; simpl;
    intros policies effects entries.
  - intros [= <- <- <-] effect [].
  - destruct (AlertPolicy.receive_alerts _ policy _ store) as [policy' [gone new]] eqn:Hr.
    destruct (notify_services _ _ _ _ _ _) as [[effects1 entries1]|] eqn:Hn; simpl;
      [|discriminate].
    destruct (send_policies env h store todo) as [[[policies' effects2] entries2]|];
      simpl; [|discriminate].
    intros [= <- <- <-] effect Hin.
    assert (Hrest : In effect effects2 ->
              match effect with
              | Send type a g n =>
                  exists pn, pn <> quiet /\ (policy_name = pn \/ In pn (map fst todo)) /\
                             well_sent env (map (obj h) store) pn type a g n
              | _ => quiet <> "IMMEDIATELY"
              end).
    { intros Hin2. specialize (IH _ _ _ eq_refl effect Hin2).
      destruct effect; [|exact IH|exact IH].
      destruct IH as (pn & Hne & Hpn & Hw). exists pn. auto. }
    destruct (decide (policy_name = quiet)) as [Heq|Hne].
    + simpl in Hp. specialize (Hp Heq).
      pose proof (receive_alerts_tracked (fun l => uuid (obj h l)) policy
                    (naive (utcnow_send env)) store Hp) as Hs.
      rewrite Hr in Hs. simpl in Hs. injection Hs as -> ->.
      simpl in Hn. rewrite notify_services_unchanged in Hn. injection Hn as <- <-.
      simpl in Hin.
      assert (Himm : (if String.eqb policy_name "IMMEDIATELY"
                      then immediate_effects env [] [] else []) = []).
      { destruct (String.eqb policy_name "IMMEDIATELY"); reflexivity. }
      rewrite Himm in Hin. simpl in Hin. apply Hrest, Hin.
    + apply in_app_or in Hin as [Hin|Hin].
      { destruct (notify_services_only_send _ _ _ _ _ _ _ _ Hn effect Hin)
          as (type & a & g & n & ->).
        exists policy_name. split; [exact Hne|]. split; [left; reflexivity|].
        eapply notify_services_well_sent; eauto. }
      apply in_app_or in Hin as [Hin|Hin]; [|apply Hrest, Hin].
      destruct (String.eqb policy_name "IMMEDIATELY") eqn:Himm; [|destruct Hin].
      apply String.eqb_eq in Himm. subst policy_name.
      destruct effect as [type a g n|kind id|m].
      * exfalso. eapply immediate_effects_not_send, Hin.
      * congruence.
      * congruence.
Qed.

Section QuietFacts.
Context `{PyNum}.

(** X22.  An alert of a class that is set to NEVER is never sent to an
    alert service.  With the policy NEVER as [initialize] creates it - its
    bucket is the constant [None], which is the bucket that it starts
    with - a dispatch pass gives no alert of such a class to any service,
    in none of the three lists, and leaves the policy NEVER as it is. *)
Theorem never_policy_sends_nothing (env : SendEnv) (st : State) :
  (forall p, In ("NEVER", p) (policies st) ->
     (forall t, AlertPolicy.key p t = KNone) /\ AlertPolicy.last_key_value p = KNone) ->
  exists st' effects,
    send_alerts env st = Some (st', effects) /\
    (forall p, In ("NEVER", p) (policies st') ->
       (forall t, AlertPolicy.key p t = KNone) /\ AlertPolicy.last_key_value p = KNone) /\
    forall type sent_alerts sent_gone sent_new,
      In (Send type sent_alerts sent_gone sent_new) effects ->
      Forall (fun alert => get_alert_policy alert (classes env) <> "NEVER")
             (sent_alerts ++ sent_gone ++ sent_new).
Proof.
  intros Hnever. unfold send_alerts.
  destruct (negb (String.eqb (send_system_state env) "READY")).
  - eexists _, _. split; [reflexivity|]. split; [exact Hnever|]. intros type a g n [].
  - destruct (send_policies_total env (heap st) (alerts st) (policies st))
      as [[[policies' effects] entries] Hp].
    rewrite Hp. simpl.
    destruct (add_logs_fields entries (set_policies policies' st)) as (_ & _ & Hpol).
    eexists _, _. split; [reflexivity|].
    assert (Hquiet :
      Forall (fun p =>
                fst p = "NEVER" ->
                AlertPolicy.last_key_value_alerts (snd p)
                = Dict.of_list (map (fun a => (uuid (obj (heap st) a), a)) (alerts st)) \/
                (forall t, KeyValue_eqb (AlertPolicy.key (snd p) t)
                                        (AlertPolicy.last_key_value (snd p)) = true))
             (policies st)).
    { apply List.Forall_forall. intros [n p] Hin Hn. simpl in *. subst n. right.
      destruct (Hnever p Hin) as [Hk Hl]. intros t. rewrite Hk, Hl. reflexivity. }
    split.
    + rewrite Hpol. simpl. rewrite (send_policies_policies _ _ _ _ _ _ _ Hp).
      intros p Hin. apply in_map_iff in Hin as ([n p0] & Heq & Hin0).
      simpl in Heq. injection Heq as -> <-.
      destruct (Hnever p0 Hin0) as [Hk Hl].
      unfold AlertPolicy.receive_alerts. rewrite Hk, Hl. simpl. auto.
    + intros type a g n Hin.
      destruct (send_policies_quiet env (heap st) (alerts st) "NEVER" (policies st)
                  _ _ _ Hquiet Hp _ Hin)
        as (pn & Hne & _ & desc & _ & _ & _ & Hna & Hpn & _).
      apply List.Forall_app. split; [exact Hna|].
      eapply List.Forall_impl; [|exact Hpn]. simpl. intros alert ->. exact Hne.
Qed.

(** X23.  No change is announced twice.  After a dispatch pass in which
    the bucket of the policy IMMEDIATELY has changed (the clock has moved
    since the pass before), a second pass over the same alerts - at
    whatever time, with whatever services and settings - sends no event
    and no mail, and what it sends to an alert service comes from another
    policy than IMMEDIATELY. *)
Theorem no_change_announced_twice (env1 env2 : SendEnv) (st : State) :
  send_system_state env1 = "READY" ->
  (forall p, In ("IMMEDIATELY", p) (policies st) ->
     KeyValue_eqb (AlertPolicy.key p (naive (utcnow_send env1)))
                  (AlertPolicy.last_key_value p) = false) ->
  exists st1 effects1 st2 effects2,
    send_alerts env1 st = Some (st1, effects1) /\
    send_alerts env2 st1 = Some (st2, effects2) /\
    store st2 = store st /\
    forall effect, In effect effects2 ->
      exists type sent_alerts sent_gone sent_new policy_name,
        effect = Send type sent_alerts sent_gone sent_new /\
        policy_name <> "IMMEDIATELY" /\
        In policy_name (map fst (policies st)) /\
        well_sent env2 (store st) policy_name type sent_alerts sent_gone sent_new.
Proof.
  intros Hready Hmoved. unfold send_alerts at 1. rewrite Hready. simpl.
  destruct (send_policies_total env1 (heap st) (alerts st) (policies st))
    as [[[policies1 effects1] entries1] Hp1].
  rewrite Hp1. simpl.
  destruct (add_logs_fields entries1 (set_policies policies1 st)) as (Hh1 & Ha1 & Hpol1).
  set (st1 := fold_left (fun st e => add_log e st) entries1 (set_policies policies1 st)) in *.
  simpl in Hh1, Ha1, Hpol1.
  exists st1, effects1.
  unfold send_alerts.
  destruct (negb (String.eqb (send_system_state env2) "READY")).
  { eexists _, _. split; [reflexivity|]. split; [reflexivity|].
    split; [unfold store; simpl; rewrite Hh1, Ha1; reflexivity|]. intros effect []. }
  destruct (send_policies_total env2 (heap st1) (alerts st1) (policies st1))
    as [[[policies2 effects2] entries2] Hp2].
  rewrite Hp2. simpl.
  destruct (add_logs_fields entries2 (set_policies policies2 st1)) as (Hh2 & Ha2 & _).
  eexists _, _. split; [reflexivity|]. split; [reflexivity|].
  split; [unfold store; rewrite Hh2, Ha2; simpl; rewrite Hh1, Ha1; reflexivity|].
  assert (Hquiet :
    Forall (fun p =>
              fst p = "IMMEDIATELY" ->
              AlertPolicy.last_key_value_alerts (snd p)
              = Dict.of_list (map (fun a => (uuid (obj (heap st1) a), a)) (alerts st1)) \/
              (forall t, KeyValue_eqb (AlertPolicy.key (snd p) t)
                                      (AlertPolicy.last_key_value (snd p)) = true))
           (policies st1)).
  { rewrite Hpol1, (send_policies_policies _ _ _ _ _ _ _ Hp1), Hh1, Ha1.
    apply List.Forall_forall. intros [n p] Hin Hn. simpl in Hn. subst n.
    apply in_map_iff in Hin as ([n0 p0] & Heq & Hin0). simpl in Heq.
    injection Heq as -> <-. left.
    unfold AlertPolicy.receive_alerts. rewrite (Hmoved p0 Hin0). reflexivity. }
  intros effect Hin.
  pose proof (send_policies_quiet env2 (heap st1) (alerts st1) "IMMEDIATELY" (policies st1)
                _ _ _ Hquiet Hp2 effect Hin) as Heff.
  destruct effect as [type a g n|kind id|m]; [|congruence|congruence].
  destruct Heff as (pn & Hne & Hpn & Hw).
  exists type, a, g, n, pn. split; [reflexivity|]. split; [exact Hne|].
  split.
  - rewrite Hpol1, (send_policies_policies _ _ _ _ _ _ _ Hp1), map_map in Hpn.
    exact Hpn.
  - unfold store. rewrite <- Hh1, <- Ha1. exact Hw.
Qed.

End QuietFacts.

Lemma never_policy_sends_nothing_witness :
  exists st' effects,
    send_alerts Example.send_env Example.state = Some (st', effects) /\
    forall type sent_alerts sent_gone sent_new,
      In (Send type sent_alerts sent_gone sent_new) effects ->
      Forall (fun alert => get_alert_policy alert (classes Example.send_env) <> "NEVER")
             (sent_alerts ++ sent_gone ++ sent_new).
Proof.
  destruct (@never_policy_sends_nothing Example.Z_num Example.send_env Example.state)
    as (st' & effects & Hsend & _ & Hsent).
  - intros p [Hin|[Hin|[Hin|[Hin|[]]]]]; try discriminate.
    injection Hin as <-. split; reflexivity.
  - exists st', effects. split; [exact Hsend|exact Hsent].
Defined.

Lemma no_change_announced_twice_witness :
  exists st1 effects1 st2 effects2,
    send_alerts Example.send_env Example.state = Some (st1, effects1) /\
    send_alerts Example.send_env st1 = Some (st2, effects2) /\
    store st2 = store Example.state.
Proof.
  destruct (@no_change_announced_twice Example.Z_num Example.send_env Example.send_env
              Example.state)
    as (st1 & effects1 & st2 & effects2 & Hfirst & Hsecond & Hstore & _).
  - reflexivity.
  - intros p [Hin|[Hin|[Hin|[Hin|[]]]]]; try discriminate.
    injection Hin as <-. reflexivity.
  - exists st1, effects1, st2, effects2. auto.
Defined.

(** ** The alerts of a source after its run *)

Section FreshFacts.
Context `{PyNum}.

Lemma alloc_all_heap (fresh : list Alert) (st : State) :
  heap (fst (alloc_all fresh st)) = heap st ++ fresh /\
  snd (alloc_all fresh st) = seq (length (heap st)) (length fresh).
Proof.
  revert st. induction fresh as [|a fresh IH]; simpl; intros st.
  - rewrite app_nil_r. auto.
  - specialize (IH (set_heap (heap st ++ [a]) st)).
    destruct (alloc_all fresh (set_heap (heap st ++ [a]) st)) as [st' ls]. simpl in *.
    destruct IH as [-> ->]. rewrite length_app, <- app_assoc. simpl.
    replace (length (heap st) + 1) with (S (length (heap st))) by lia. auto.
Qed.

Lemma obj_middle (h done : list Alert) (a : Alert) (todo : list Alert) :
  obj (h ++ done ++ a :: todo) (length h + length done) = a.
Proof.
  unfold obj. rewrite app_assoc. apply list_lookup_total_middle.
  rewrite length_app. reflexivity.
Qed.

Lemma insert_middle (h done : list Alert) (a b : Alert) (todo : list Alert) :
  <[length h + length done := b]> (h ++ done ++ a :: todo) = h ++ (done ++ [b]) ++ todo.
Proof.
  rewrite (app_assoc h done), insert_app_r_alt by (rewrite length_app; lia).
  rewrite length_app.
  replace (length h + length done - (length h + length done)) with 0 by lia.
  simpl. rewrite <- !app_assoc. reflexivity.
Qed.

Lemma updates_fresh (f : Alert -> Alert) (h : list Alert) (todo : list Alert) :
  forall (done : list Alert) (st : State),
    heap st = h ++ done ++ todo ->
    heap (fold_left (fun st l => update f l st)
                    (seq (length h + length done) (length todo)) st)
    = h ++ done ++ map f todo.
Proof.
  induction todo as [|a todo IH]; simpl; intros done st Hh; [exact Hh|].
  specialize (IH (done ++ [f a]) (update f (length h + length done) st)).
  rewrite length_app in IH. simpl in IH.
  replace (length h + (length done + 1)) with (S (length h + length done)) in IH by lia.
  rewrite IH.
  - rewrite <- app_assoc. reflexivity.
  - unfold update. simpl. rewrite Hh, obj_middle, insert_middle. reflexivity.
Qed.

Lemma handle_alerts_fresh (inp : nat -> HandleInput) (h : list Alert)
    (ls : list loc) (todo : list Alert) :
  Forall (fun l => l < length h) ls ->
  forall (done : list Alert) (st : State),
    heap st = h ++ done ++ todo -> alerts st = ls ->
    heap (handle_alerts inp (length done)
            (seq (length h + length done) (length todo)) st)
    = h ++ done
      ++ imap (fun i a => handle_alert (map (obj h) ls) (inp (length done + i)) a) todo.
Proof.
  intros Hls. induction todo as [|a todo IH]; simpl; intros done st Hh Ha; [exact Hh|].
  assert (Hstore : store st = map (obj h) ls).
  { unfold store. rewrite Hh, Ha. apply map_obj_ext. intros l Hl.
    apply obj_app_old. apply (proj1 (List.Forall_forall _ _) Hls l Hl). }
  specialize (IH (done ++ [handle_alert (map (obj h) ls) (inp (length done)) a])
                 (update (handle_alert (store st) (inp (length done)))
                         (length h + length done) st)).
  rewrite length_app in IH. simpl in IH.
  replace (length h + (length done + 1)) with (S (length h + length done)) in IH by lia.
  replace (length done + 1) with (S (length done)) in IH by lia.
  rewrite IH.
  - rewrite <- app_assoc. simpl. rewrite Nat.add_0_r. f_equal. f_equal. f_equal.
    apply imap_ext. intros i x _. simpl. f_equal. f_equal. lia.
  - unfold update. simpl. rewrite Hstore, Hh, obj_middle, insert_middle. reflexivity.
  - unfold update. simpl. exact Ha.
Qed.

Lemma map_obj_fresh (h fresh : list Alert) :
  map (obj (h ++ fresh)) (seq (length h) (length fresh)) = fresh.
Proof.
  revert h. induction fresh as [|a fresh IH]; simpl; intros h; [reflexivity|].
  f_equal.
  - pose proof (obj_middle h [] a fresh) as Hm. simpl in Hm.
    rewrite Nat.add_0_r in Hm. exact Hm.
  - specialize (IH (h ++ [a])). rewrite length_app, <- app_assoc in IH. simpl in IH.
    replace (length h + 1) with (S (length h)) in IH by lia. exact IH.
Qed.

End FreshFacts.

Section ReplaceFacts.
Context `{PyNum} `{AlertBase}.

(** X24.  The run of a source replaces its alerts by the alerts of the
    check.  When a source that is due and not blocked is run on this node
    alone, and its check is not unavailable, the store then holds the
    alerts of the other sources, as they were and in their order,
    followed by the alerts that [__run_source] returned, each one given
    the node and reconciled by [__handle_alert] with the store as it was
    before the run.  The alerts that the source had in the store and does
    not report any more are gone. *)
Theorem run_alert_source_replaces (env : RunEnv) (master_node backup_node : string)
    (run_on_backup run_failover_related : bool) (st : State)
    (alert_source : AlertSource) (rs : RunState) (fresh : list Alert) :
  let name := source_name alert_source in
  let st' := run_alert_source env master_node backup_node run_on_backup
               run_failover_related st alert_source in
  refs_valid st ->
  bool_decide (product_type env ∈ source_products alert_source)
  && negb (failover_related alert_source && negb run_failover_related)
  && should_run alert_source (utcnow_schedule env name)
                (default 0%Z (alert_source_last_run st !! name)) = true ->
  default ∅ (blocked_sources st !! name) = ∅ ->
  run_on_backup && run_on_backup_node alert_source = false ->
  run_source (run_state st) name (source_input env name) = (rs, Some fresh) ->
  store st'
  = List.filter (fun a => negb (bool_decide (source a = Some name))) (store st)
    ++ imap (fun i a =>
               handle_alert (store st) (handle_input env name i)
                            (set_node (Some master_node) a))
            fresh /\
  run_state st' = rs.
Proof.
  cbv zeta. intros Hv Hdue Hfree Hlocal Hrun.
  apply andb_true_iff in Hdue as [Hdue Hsched].
  apply andb_true_iff in Hdue as [Hprod Hfail].
  unfold run_alert_source. rewrite Hprod. simpl.
  apply negb_true_iff in Hfail. rewrite Hfail, Hsched. simpl.
  set (name := source_name alert_source) in *.
  unfold local_alerts. simpl.
  rewrite bool_decide_eq_false_2 by (intros Hb; apply Hb, Hfree).
  rewrite Hrun.
  set (st0 := set_run_state rs _).
  destruct (alloc_all_heap fresh st0) as [Hh1 Hl1].
  destruct (alloc_all_fields fresh st0) as (_ & Ha1 & Hr1 & _).
  destruct (alloc_all fresh st0) as [stA la]. simpl in Hh1, Hl1, Ha1, Hr1.
  unfold remote_alerts. rewrite Hlocal. simpl. rewrite app_nil_r.
  subst la.
  pose proof (updates_fresh (set_node (Some master_node)) (heap st) fresh [] stA) as Hh2.
  simpl in Hh2. rewrite Nat.add_0_r in Hh2. specialize (Hh2 Hh1).
  destruct (updates_fields (set_node (Some master_node))
              (seq (length (heap st)) (length fresh)) stA) as (_ & Ha2 & Hr2 & _).
  set (st1 := fold_left (fun st l => update (set_node (Some master_node)) l st)
                        (seq (length (heap st)) (length fresh)) stA) in *.
  pose proof (handle_alerts_fresh (handle_input env name) (heap st) (alerts st)
                (map (set_node (Some master_node)) fresh) Hv [] st1) as Hh3.
  simpl in Hh3. rewrite Nat.add_0_r, length_map in Hh3.
  specialize (Hh3 Hh2 (eq_trans Ha2 Ha1)).
  destruct (handle_alerts_fields (handle_input env name) 0
              (seq (length (heap st)) (length fresh)) st1) as (_ & Ha3 & Hr3 & _).
  set (st3 := handle_alerts (handle_input env name) 0
                            (seq (length (heap st)) (length fresh)) st1) in *.
  split; [|simpl; rewrite Hr3, Hr2, Hr1; reflexivity].
  unfold store at 1. simpl. rewrite map_app. f_equal.
  - rewrite Ha3, Ha2, Ha1. simpl.
    pose proof (filter_map_obj (heap st3)
                  (fun a => negb (bool_decide (source a = Some name))) (alerts st)) as Hf.
    cbv beta in Hf. rewrite Hf.
    f_equal. rewrite Hh3. apply map_obj_ext. intros l Hl. apply obj_app_old.
    apply (proj1 (List.Forall_forall _ _) Hv l Hl).
  - rewrite Hh3.
    pose proof (map_obj_fresh (heap st)
                  (imap (fun i a => handle_alert (map (obj (heap st)) (alerts st))
                                      (handle_input env name i) a)
                        (map (set_node (Some master_node)) fresh))) as Hm.
    rewrite length_imap, length_map in Hm. rewrite Hm.
    rewrite imap_fmap. reflexivity.
Qed.

End ReplaceFacts.

Lemma run_alert_source_replaces_witness :
  exists rest,
    store (@run_alert_source Example.Z_num Example.base (run_env Example.pass_env)
             "A" "B" false false Sample.mixed_state Example.disk_source)
    = Example.new_a :: rest /\
    map key rest = [Some "sda"; Some "sdb"] /\
    map uuid rest = [Some "U"; Some "V"].
Proof.
  destruct (@run_alert_source_replaces Example.Z_num Example.base
              (run_env Example.pass_env) "A" "B" false false Sample.mixed_state
              Example.disk_source
              (fst (@run_source Example.Z_num Example.base
                      (run_state Sample.mixed_state) "disk"
                      (source_input (run_env Example.pass_env) "disk")))
              [Example.sda_seen; Example.sdb_seen]) as [Hstore _].
  - repeat constructor.
  - vm_compute. reflexivity.
  - vm_compute. reflexivity.
  - reflexivity.
  - reflexivity.
  - eexists. split; [rewrite Hstore; reflexivity|]. split; reflexivity.
Defined.
